(** * stream_console: the arena orchestrator and its drafts

    A shallow embedding of [server/orchestrator.js] and of the draft
    variants kept next to it ([orchestrator_backup_0506_2.js],
    [orchestrator_backup_0507.js] and the drafts [unnamed/part_000],
    [unnamed/part_001] and [unnamed/part_002]), followed by the
    properties of the relay, the recorder and the singleton that the
    specification states.

    Conventions.
    - A Node [Buffer] is a list of bytes.
    - A JS object used as a dictionary ([this.sessions], [this.wavWriters],
      [this.sessionIds]) is a [gmap string _]; an absent key is [undefined].
    - Objects with identity and mutable state (WebSocket connections, WAV
      writers, promises) live in heaps, lists indexed by reference.
    - JS numbers that stay integral are [Z] or [nat]; the ones the code
      divides are exact rationals [Q].  The recorder only ever multiplies
      back what it divided, so the byte counts it computes are the same in
      IEEE doubles as long as the offsets stay below 2^45 ms.
    - A handler is a computation in a small state-and-exception monad. *)

From Stdlib Require Import ZArith QArith Qround Lia Lqa List String Ascii.
From Stdlib Require Import Sorting.Sorted Sorting.Permutation.
From stdpp Require Import gmap strings list fin_maps.

Set Warnings "-register-all".

Open Scope string_scope.
Open Scope list_scope.
Open Scope Z_scope.

(** ** Buffers *)

Abbreviation Buffer := (list Byte.byte).

(** [Buffer.alloc(n)]: [n] zero bytes. *)
Definition Buffer_alloc (n : nat) : Buffer := replicate n Byte.x00.

(** [buffer.slice(i, j)] for [0 <= i <= j]: the bytes at [i .. j-1], cut at
    the end of the buffer. *)
Definition Buffer_slice (buffer : Buffer) (i j : nat) : Buffer :=
  take (j - i) (drop i buffer).

(** [Math.round]: the nearest integer, halves going up. *)
Definition Math_round (x : Q) : Z := Qfloor (x + (1 # 2)).

Definition Qltb (x y : Q) : bool := negb (Qle_bool y x).

(** ** JSON values and the messages made of them *)

(** What [JSON.parse] returns.  Whole numbers are all the code looks at. *)
Inductive json :=
| JNull
| JBool (b : bool)
| JNum (n : Z)
| JStr (s : string)
| JArr (items : list json)
| JObj (fields : list (string * json)).

(** A JS value that may be [undefined]. *)
Abbreviation JsValue := (option json).

Inductive JsError :=
| SyntaxError (message : string)
| TypeError (message : string)
| Error (message : string).

(** The result of a JS expression or statement: a value, or a [throw]. *)
Inductive Completion (A : Type) :=
| Normal (a : A)
| Throw (e : JsError).
Arguments Normal {A} a.
Arguments Throw {A} e.

Fixpoint assoc (k : string) (fields : list (string * json)) : JsValue :=
  match fields with
  | [] => None
  | (k', v) :: r => if String.eqb k k' then Some v else assoc k r
  end.

(** [v.k]: reading a property of [null] or [undefined] throws; the
    properties the code reads ([type], [data], [delta], [session], [id],
    [payload], [item], [role]) exist on objects only. *)
Definition get (v : JsValue) (k : string) : Completion JsValue :=
  match v with
  | None => Throw (TypeError ("Cannot read properties of undefined (reading '" +:+ k +:+ "')"))
  | Some JNull => Throw (TypeError ("Cannot read properties of null (reading '" +:+ k +:+ "')"))
  | Some (JObj fields) => Normal (assoc k fields)
  | Some _ => Normal None
  end.

(** [v?.k]. *)
Definition get_opt (v : JsValue) (k : string) : JsValue :=
  match v with
  | Some (JObj fields) => assoc k fields
  | _ => None
  end.

(** [a ?? b]. *)
Definition nullish (a b : JsValue) : JsValue :=
  match a with
  | None | Some JNull => b
  | _ => a
  end.

(** [v === 'lit']. *)
Definition is_str (v : JsValue) (lit : string) : bool :=
  match v with
  | Some (JStr s) => String.eqb s lit
  | _ => false
  end.

(** An object literal; a property whose value is [undefined] is left out,
    as [JSON.stringify] leaves it out. *)
Definition obj (fields : list (string * JsValue)) : json :=
  JObj (omap (fun '(k, v) => match v with Some j => Some (k, j) | None => None end) fields).

(** A frame as the service or the network delivers it, seen through
    [JSON.parse]: either the parse throws or it yields a value. *)
Inductive Frame :=
| Unparsable (err : JsError)
| Parsed (msg : json).

(** *** Node's Buffer and base64

    The handlers are stated over any implementation of these three library
    functions; an instance for the RFC 4648 alphabet follows. *)
Class NodeBuffer := {
  (** [Buffer.from(s, 'base64')] for a string [s]; never throws. *)
  Buffer_from_base64 : string -> Buffer;
  (** [Buffer.from(v, 'base64')] for an array or an object [v]. *)
  Buffer_from_object : json -> Completion Buffer;
  (** [buffer.toString('base64')]. *)
  Buffer_toString_base64 : Buffer -> string
}.

(** [Buffer.from(v, 'base64')]. *)
Definition Buffer_from `{NodeBuffer} (v : JsValue) : Completion Buffer :=
  match v with
  | Some (JStr s) => Normal (Buffer_from_base64 s)
  | Some (JArr items) => Buffer_from_object (JArr items)
  | Some (JObj fields) => Buffer_from_object (JObj fields)
  | _ => Throw (TypeError "The first argument must be of type string or an instance of Buffer, ArrayBuffer, or Array or an Array-like Object.")
  end.

(** *** An instance: RFC 4648 base64

    Decoding as Node does it: characters outside the two base64 alphabets
    are skipped, the first [=] ends the input, and every complete group of
    eight bits is a byte. *)

Module Base64.

Definition alphabet : string :=
  "ABCDEFGHIJKLMNOPQRSTUVWXYZabcdefghijklmnopqrstuvwxyz0123456789+/".

Definition value (c : ascii) : option N :=
  let n := N_of_ascii c in
  if ((65 <=? n) && (n <=? 90))%N then Some (n - 65)%N
  else if ((97 <=? n) && (n <=? 122))%N then Some (n - 71)%N
  else if ((48 <=? n) && (n <=? 57))%N then Some (n + 4)%N
  else if ((n =? 43) || (n =? 45))%N then Some 62%N
  else if ((n =? 47) || (n =? 95))%N then Some 63%N
  else None.

Fixpoint sextets (s : string) : list N :=
  match s with
  | EmptyString => []
  | String c r =>
      if Ascii.eqb c "="%char then []
      else match value c with
           | Some v => v :: sextets r
           | None => sextets r
           end
  end.

Definition byte_of (n : N) : Byte.byte :=
  match Byte.of_N (n mod 256) with
  | Some b => b
  | None => Byte.x00
  end.

Fixpoint bytes (l : list N) : Buffer :=
  match l with
  | a :: b :: c :: d :: r =>
      byte_of (a * 4 + b / 16) :: byte_of (b * 16 + c / 4) :: byte_of (c * 64 + d) :: bytes r
  | [a; b; c] => [byte_of (a * 4 + b / 16); byte_of (b * 16 + c / 4)]
  | [a; b] => [byte_of (a * 4 + b / 16)]
  | _ => []
  end%N.

Definition decode (s : string) : Buffer := bytes (sextets s).

Definition char_of (n : N) : string :=
  match String.get (N.to_nat n) alphabet with
  | Some c => String c EmptyString
  | None => EmptyString
  end.

Fixpoint encode (b : Buffer) : string :=
  match b with
  | x :: y :: z :: r =>
      let x := Byte.to_N x in let y := Byte.to_N y in let z := Byte.to_N z in
      char_of (x / 4) +:+ char_of ((x mod 4) * 16 + y / 16)
        +:+ char_of ((y mod 16) * 4 + z / 64) +:+ char_of (z mod 64) +:+ encode r
  | [x; y] =>
      let x := Byte.to_N x in let y := Byte.to_N y in
      char_of (x / 4) +:+ char_of ((x mod 4) * 16 + y / 16)
        +:+ char_of ((y mod 16) * 4) +:+ "="
  | [x] =>
      let x := Byte.to_N x in
      char_of (x / 4) +:+ char_of ((x mod 4) * 16) +:+ "=="
  | [] => EmptyString
  end%N.

(** [Buffer.from(array)] for an array of whole numbers: each number modulo
    256.  The service sends neither other arrays nor objects as a payload;
    here their other elements count as 0 and a plain object is refused. *)
Definition from_object (v : json) : Completion Buffer :=
  match v with
  | JArr items =>
      Normal (map (fun j => match j with
                            | JNum n => byte_of (Z.to_N (n mod 256))
                            | _ => Byte.x00
                            end) items)
  | _ => Throw (TypeError "The first argument must be of type string or an instance of Buffer, ArrayBuffer, or Array or an Array-like Object.")
  end.

End Base64.

#[export] Instance node_buffer : NodeBuffer :=
  {| Buffer_from_base64 := Base64.decode;
     Buffer_from_object := Base64.from_object;
     Buffer_toString_base64 := Base64.encode |}.

(** ** Connections, writers and the event emitter *)

Inductive ReadyState := CONNECTING | OPEN | CLOSING | CLOSED.

Definition ReadyState_eqb (a b : ReadyState) : bool :=
  match a, b with
  | CONNECTING, CONNECTING | OPEN, OPEN | CLOSING, CLOSING | CLOSED, CLOSED => true
  | _, _ => false
  end.

(** The promise a [_createSession] call returns. *)
Inductive Settled := Pending | Resolved | Rejected (e : JsError).

(** A [WebSocket] object made by [_createSession(label)]: [label] and
    [clientSessionId] are the variables its listeners close over, [sent]
    the objects given to [ws.send(JSON.stringify(..))], oldest first,
    [ready] the promise that [_createSession] returned. *)
Record WebSocket := {
  label : string;
  clientSessionId : string;
  readyState : ReadyState;
  sent : list json;
  ready : Settled
}.

(** A [wav.Writer] piped to a file: the buffers written, and whether
    [end()] was called. *)
Record WavWriter := {
  path : string;
  chunks : list Buffer;
  ended : bool
}.

(** What the orchestrator emits: [emit('log', {..})] and [emit('error', err)].
    [server.js] subscribes to both right after [initOrchestrator()] and never
    unsubscribes, so an emitted error is delivered and [emit] returns. *)
Inductive Emitted :=
| log (record : json)
| error (err : JsError).

(** The objects an orchestrator and its listeners refer to: the heaps of
    WebSocket and wav.Writer objects (a reference is an index), everything
    passed to [this.emit], and the exceptions that escaped a listener into
    the event loop. *)
Record Heap := {
  sockets : list WebSocket;
  writers : list WavWriter;
  emitted : list Emitted;
  uncaught : list JsError
}.

Definition empty_heap : Heap :=
  {| sockets := []; writers := []; emitted := []; uncaught := [] |}.

Definition push_sent (m : json) (s : WebSocket) : WebSocket :=
  {| label := label s; clientSessionId := clientSessionId s;
     readyState := readyState s; sent := sent s ++ [m]; ready := ready s |}.

Definition set_ready (p : Settled) (s : WebSocket) : WebSocket :=
  {| label := label s; clientSessionId := clientSessionId s;
     readyState := readyState s; sent := sent s; ready := p |}.

Definition set_readyState (r : ReadyState) (s : WebSocket) : WebSocket :=
  {| label := label s; clientSessionId := clientSessionId s;
     readyState := r; sent := sent s; ready := ready s |}.

Definition push_chunk (b : Buffer) (w : WavWriter) : WavWriter :=
  {| path := path w; chunks := chunks w ++ [b]; ended := ended w |}.

Definition push_chunks (bufs : list Buffer) (w : WavWriter) : WavWriter :=
  {| path := path w; chunks := chunks w ++ bufs; ended := ended w |}.

Definition push_sents (ms : list json) (s : WebSocket) : WebSocket :=
  {| label := label s; clientSessionId := clientSessionId s;
     readyState := readyState s; sent := sent s ++ ms; ready := ready s |}.

Definition end_writer (w : WavWriter) : WavWriter :=
  {| path := path w; chunks := chunks w; ended := true |}.

Definition with_sockets (f : list WebSocket -> list WebSocket) (h : Heap) : Heap :=
  {| sockets := f (sockets h); writers := writers h; emitted := emitted h; uncaught := uncaught h |}.
Definition with_writers (f : list WavWriter -> list WavWriter) (h : Heap) : Heap :=
  {| sockets := sockets h; writers := f (writers h); emitted := emitted h; uncaught := uncaught h |}.
Definition with_emitted (f : list Emitted -> list Emitted) (h : Heap) : Heap :=
  {| sockets := sockets h; writers := writers h; emitted := f (emitted h); uncaught := uncaught h |}.
Definition with_uncaught (f : list JsError -> list JsError) (h : Heap) : Heap :=
  {| sockets := sockets h; writers := writers h; emitted := emitted h; uncaught := f (uncaught h) |}.

(** [target?.readyState === WebSocket.OPEN] for [target = sockets[ws]]. *)
Definition is_open (sockets : list WebSocket) (ws : option nat) : bool :=
  match ws with
  | Some r =>
      match sockets !! r with
      | Some s => ReadyState_eqb (readyState s) OPEN
      | None => false
      end
  | None => false
  end.

(** [{ type: 'input_audio_buffer.append', audio }] *)
Definition input_audio_buffer_append (audio : JsValue) : json :=
  obj [("type", Some (JStr "input_audio_buffer.append")); ("audio", audio)].

(** [label === 'A' ? 'B' : 'A'] *)
Definition other_of (label : string) : string :=
  if String.eqb label "A" then "B" else "A".

(** [msg.type === 'response.audio_chunk' || msg.type === 'response.audio.delta'] *)
Definition is_audio_type (type : JsValue) : bool :=
  is_str type "response.audio_chunk" || is_str type "response.audio.delta".

(** [o[k] = v]; a key that holds [undefined] reads like an absent key. *)
Definition assign {V} (k : string) (v : option V) (m : gmap string V) : gmap string V :=
  match v with
  | Some x => <[k:=x]> m
  | None => delete k m
  end.

(** ** Computations over a state [S] that may throw *)

Definition M (S A : Type) : Type := S -> Completion A * S.

Definition ret {S A} (a : A) : M S A := fun st => (Normal a, st).

Definition bind {S A B} (c : M S A) (k : A -> M S B) : M S B :=
  fun st =>
    match c st with
    | (Normal a, st') => k a st'
    | (Throw e, st') => (Throw e, st')
    end.

Definition lift {S A} (c : Completion A) : M S A := fun st => (c, st).
Definition gets {S A} (f : S -> A) : M S A := fun st => (Normal (f st), st).
Definition modify {S} (f : S -> S) : M S unit := fun st => (Normal tt, f st).

Notation "'let!' x ':=' c 'in' k" := (bind c (fun x => k))
  (at level 10, x name, c at level 100, k at level 200).
Notation "c '>>' k" := (bind c (fun _ => k))
  (at level 90, right associativity).

(** A computation that maintains [I], whether it returns or throws. *)
Definition preserves {S A} (I : S -> Prop) (c : M S A) : Prop :=
  forall st, I st -> I (snd (c st)).

(** *** Primitives on the heap *)

(** [this.emit(kind, payload)] *)
Definition emit (e : Emitted) : M Heap unit := modify (with_emitted (fun l => l ++ [e])).

(** [ws.send(JSON.stringify(m))] as the ws library (version 8) does it: a
    connection that is still CONNECTING throws, one that is CLOSING or
    CLOSED drops the message. *)
Definition ws_send (ws : nat) (m : json) : M Heap unit :=
  fun h =>
    match sockets h !! ws with
    | Some s =>
        match readyState s with
        | OPEN => (Normal tt, with_sockets (alter (push_sent m) ws) h)
        | CONNECTING => (Throw (Error "WebSocket is not open: readyState 0 (CONNECTING)"), h)
        | _ => (Normal tt, h)
        end
    | None => (Throw (TypeError "Cannot read properties of undefined (reading 'send')"), h)
    end.

(** [new WebSocket(url, ..)] with the listeners of [_createSession(label)]. *)
Definition new_WebSocket (label clientSessionId : string) : M Heap nat :=
  fun h =>
    (Normal (length (sockets h)),
     with_sockets (fun l => l ++ [{| label := label; clientSessionId := clientSessionId;
                                     readyState := CONNECTING; sent := []; ready := Pending |}]) h).

(** [_createWavWriter(path)]: a fresh writer piped to a fresh file stream. *)
Definition _createWavWriter (path : string) : M Heap nat :=
  fun h =>
    (Normal (length (writers h)),
     with_writers (fun l => l ++ [{| path := path; chunks := []; ended := false |}]) h).

(** [writer.write(chunk)] for [writer = this.wavWriters[k]].  A writer that
    was ended refuses the chunk and reports ERR_STREAM_WRITE_AFTER_END on
    its own error channel, which nothing listens to. *)
Definition writer_write (writer : option nat) (chunk : Buffer) : M Heap unit :=
  fun h =>
    match writer with
    | None => (Throw (TypeError "Cannot read properties of undefined (reading 'write')"), h)
    | Some w =>
        match writers h !! w with
        | Some wr =>
            if ended wr
            then (Normal tt, with_uncaught (fun l => l ++ [Error "write after end"]) h)
            else (Normal tt, with_writers (alter (push_chunk chunk) w) h)
        | None => (Normal tt, h)
        end
    end.

(** [writer?.end()] *)
Definition writer_end (writer : option nat) : M Heap unit :=
  match writer with
  | Some w => modify (with_writers (alter end_writer w))
  | None => ret tt
  end.

(** [if (ws?.readyState === WebSocket.OPEN) ws.close();] *)
Definition close_if_open (ws : option nat) : M Heap unit :=
  fun h =>
    if is_open (sockets h) ws
    then match ws with
         | Some r => (Normal tt, with_sockets (alter (set_readyState CLOSING) r) h)
         | None => (Normal tt, h)
         end
    else (Normal tt, h).

(** ** [server/orchestrator.js] *)

Module Orchestrator.

(** The fields of an [ArenaOrchestrator], and the heap around it. *)
Record Arena := {
  apiKey : string;
  model : string;
  sessions : gmap string nat;
  wavWriters : gmap string nat;
  sessionIds : gmap string json;
  heap : Heap
}.

(** [new ArenaOrchestrator(apiKey)] *)
Definition new_ArenaOrchestrator (apiKey : string) : Arena :=
  {| apiKey := apiKey; model := "gpt-4o-realtime-preview";
     sessions := ∅; wavWriters := ∅; sessionIds := ∅; heap := empty_heap |}.

Definition with_sessions (f : gmap string nat -> gmap string nat) (st : Arena) : Arena :=
  {| apiKey := apiKey st; model := model st; sessions := f (sessions st);
     wavWriters := wavWriters st; sessionIds := sessionIds st; heap := heap st |}.
Definition with_wavWriters (f : gmap string nat -> gmap string nat) (st : Arena) : Arena :=
  {| apiKey := apiKey st; model := model st; sessions := sessions st;
     wavWriters := f (wavWriters st); sessionIds := sessionIds st; heap := heap st |}.
Definition with_sessionIds (f : gmap string json -> gmap string json) (st : Arena) : Arena :=
  {| apiKey := apiKey st; model := model st; sessions := sessions st;
     wavWriters := wavWriters st; sessionIds := f (sessionIds st); heap := heap st |}.
Definition with_heap (h : Heap) (st : Arena) : Arena :=
  {| apiKey := apiKey st; model := model st; sessions := sessions st;
     wavWriters := wavWriters st; sessionIds := sessionIds st; heap := h |}.

(** A heap primitive run inside the orchestrator. *)
Definition on_heap {A} (c : M Heap A) : M Arena A :=
  fun st => let '(r, h) := c (heap st) in (r, with_heap h st).

Definition session_update : json :=
  obj [("type", Some (JStr "session.update"));
       ("session", Some (obj [("input_audio_format", Some (JStr "pcm16"));
                              ("output_audio_format", Some (JStr "pcm16"));
                              ("modalities", Some (JArr [JStr "audio"; JStr "text"]))]))].

Section Handlers.
Context `{NodeBuffer}.

(** The branch [if (msg.type === 'response.audio_chunk' || msg.type ===
    'response.audio.delta')] of the message listener, lines 79 to 94. *)
Definition on_audio (label : string) (msg : json) : M Arena unit :=
  let! data := lift (get (Some msg) "data") in
  let! delta := lift (get (Some msg) "delta") in
  let b64 := nullish data delta in
  let! chunk := lift (Buffer_from b64) in
  let! writer := gets (fun st => wavWriters st !! label) in
  on_heap (writer_write writer chunk) >>
  let other := other_of label in
  let! target := gets (fun st => sessions st !! other) in
  let! target_open := gets (fun st => is_open (sockets (heap st)) target) in
  (if target_open
   then match target with
        | Some r => on_heap (ws_send r (input_audio_buffer_append b64))
        | None => ret tt
        end
   else ret tt) >>
  on_heap (emit (log (obj [("session", Some (JStr label)); ("event", Some (JStr "audio_chunk"));
                           ("byteLength", Some (JNum (Z.of_nat (length chunk))))]))).

(** The listener [ws.on('message', raw => { .. })] of the connection [ws]
    that [_createSession(label)] opened. *)
Definition on_message (ws : nat) (label : string) (raw : Frame) : M Arena unit :=
  match raw with
  | Unparsable err => on_heap (emit (error err))
  | Parsed msg =>
      let! type := lift (get (Some msg) "type") in
      if is_str type "session.created" then
        let! session := lift (get (Some msg) "session") in
        let! realSid := lift (get session "id") in
        modify (with_sessionIds (assign label realSid)) >>
        on_heap (emit (log (obj [("session", Some (JStr label));
                                 ("event", Some (JStr "session.created"));
                                 ("sessionId", realSid)]))) >>
        on_heap (ws_send ws session_update) >>
        let! w := on_heap (_createWavWriter ("session" +:+ label +:+ ".wav")) in
        modify (with_wavWriters (insert label w)) >>
        modify (with_sessions (insert label ws)) >>
        on_heap (modify (with_sockets (alter (set_ready Resolved) ws)))
      else if is_audio_type type then
        on_audio label msg
      else if is_str type "conversation.item.created" then
        let item := get_opt (get_opt (Some msg) "payload") "item" in
        if is_str (get_opt item "role") "user" then
          on_heap (emit (log (obj [("session", Some (JStr label));
                                   ("event", Some (JStr "user_committed"))]))) >>
          let! sid := gets (fun st => sessionIds st !! label) in
          on_heap (ws_send ws (obj [("type", Some (JStr "response.create")); ("session", sid)])) >>
          on_heap (emit (log (obj [("session", Some (JStr label));
                                   ("event", Some (JStr "response.create.sent"))])))
        else ret tt
      else
        on_heap (emit (log (obj [("session", Some (JStr label)); ("event", type);
                                 ("payload", Some msg)])))
  end.

(** [_sendAudio(label, buffer)] *)
Definition _sendAudio (label : string) (buffer : Buffer) : M Arena unit :=
  let! ws := gets (fun st => sessions st !! label) in
  let! ws_open := gets (fun st => is_open (sockets (heap st)) ws) in
  if ws_open
  then match ws with
       | Some r =>
           on_heap (ws_send r (input_audio_buffer_append
                                 (Some (JStr (Buffer_toString_base64 buffer))))) >>
           on_heap (emit (log (obj [("session", Some (JStr label));
                                    ("event", Some (JStr "seed_sent"))])))
       | None => ret tt
       end
  else on_heap (emit (error (Error ("Session " +:+ label +:+ " not ready")))).

End Handlers.

(** [ws.once('open', ..)] *)
Definition on_open (label clientSessionId : string) : M Arena unit :=
  on_heap (emit (log (obj [("session", Some (JStr label)); ("event", Some (JStr "connected"));
                           ("clientSessionId", Some (JStr clientSessionId))]))).

(** [ws.once('close', ..)] *)
Definition on_close (label : string) : M Arena unit :=
  let! writer := gets (fun st => wavWriters st !! label) in
  on_heap (writer_end writer) >>
  on_heap (emit (log (obj [("session", Some (JStr label)); ("event", Some (JStr "closed"))]))).

(** [ws.on('error', err => { this.emit('error', err); reject(err); })];
    rejecting a promise that is settled does nothing. *)
Definition on_error (ws : nat) (err : JsError) : M Arena unit :=
  on_heap (emit (error err)) >>
  on_heap (modify (with_sockets (alter (fun s => match ready s with
                                                 | Pending => set_ready (Rejected err) s
                                                 | _ => s
                                                 end) ws))).

(** [_createSession(label)] up to the point where its promise is returned:
    a new connection, CONNECTING, with the four listeners attached.
    [clientSessionId] is the [uuidv4()] it draws. *)
Definition _createSession (label clientSessionId : string) : M Arena nat :=
  on_heap (new_WebSocket label clientSessionId).

(** [start()] up to its [await]: both [_createSession] calls have run and
    the caller holds a promise that waits for the two connections. *)
Definition start (uuidA uuidB : string) : M Arena (nat * nat) :=
  let! a := _createSession "A" uuidA in
  let! b := _createSession "B" uuidB in
  ret (a, b).

(** [start()] after the [await], once both connections resolved; [seed] is
    what [fs.readFileSync('seed_hello.pcm')] yields. *)
Definition start_resume `{NodeBuffer} (seed : Completion Buffer) : M Arena unit :=
  let! seed := lift seed in
  _sendAudio "A" seed.

(** One pass of the loop in [stop()]. *)
Definition stop_label (label : string) : M Arena unit :=
  let! ws := gets (fun st => sessions st !! label) in
  let! writer := gets (fun st => wavWriters st !! label) in
  on_heap (close_if_open ws) >>
  on_heap (writer_end writer) >>
  on_heap (emit (log (obj [("session", Some (JStr label)); ("event", Some (JStr "stopped"))]))).

(** [stop()] *)
Definition stop : M Arena unit := stop_label "A" >> stop_label "B".

(** What can happen to an arena: a call from [server.js], or an event on
    one of its connections.  The ws library moves [readyState] before it
    calls the listener. *)
Inductive Event :=
| Start (uuidA uuidB : string)
| StartResume (seed : Completion Buffer)
| Stop
| Opened (ws : nat)
| Message (ws : nat) (raw : Frame)
| Closed (ws : nat)
| Errored (ws : nat) (err : JsError).

Definition settle {A} (r : Completion A * Arena) : Arena :=
  match r with
  | (Normal _, st) => st
  | (Throw e, st) => with_heap (with_uncaught (fun l => l ++ [e]) (heap st)) st
  end.

Definition step `{NodeBuffer} (ev : Event) (st : Arena) : Arena :=
  match ev with
  | Start uuidA uuidB => settle (start uuidA uuidB st)
  | StartResume seed => settle (start_resume seed st)
  | Stop => settle (stop st)
  | Opened ws =>
      match sockets (heap st) !! ws with
      | Some s =>
          settle (on_open (label s) (clientSessionId s)
                    (with_heap (with_sockets (alter (set_readyState OPEN) ws) (heap st)) st))
      | None => st
      end
  | Message ws raw =>
      match sockets (heap st) !! ws with
      | Some s => settle (on_message ws (label s) raw st)
      | None => st
      end
  | Closed ws =>
      match sockets (heap st) !! ws with
      | Some s =>
          settle (on_close (label s)
                    (with_heap (with_sockets (alter (set_readyState CLOSED) ws) (heap st)) st))
      | None => st
      end
  | Errored ws err =>
      match sockets (heap st) !! ws with
      | Some s => settle (on_error ws err st)
      | None => st
      end
  end.

Definition run `{NodeBuffer} (evs : list Event) (st : Arena) : Arena :=
  fold_left (fun st ev => step ev st) evs st.

(** [msg.data ?? msg.delta] for an object with the properties [fields]. *)
Definition audio_payload (fields : list (string * json)) : JsValue :=
  nullish (assoc "data" fields) (assoc "delta" fields).

(** Where the audio branch forwards: [this.sessions[other]] if it is open. *)
Definition forward_to (label : string) (st : Arena) : option nat :=
  match sessions st !! other_of label with
  | Some r => if is_open (sockets (heap st)) (Some r) then Some r else None
  | None => None
  end.

(** The arena after the audio branch ran for a payload that decodes to
    [chunk], when the writer [w] of the party is live. *)
Definition after_audio (label : string) (fields : list (string * json)) (chunk : Buffer)
    (w : nat) (st : Arena) : Arena :=
  let h1 := with_writers (alter (push_chunk chunk) w) (heap st) in
  let h2 := match forward_to label st with
            | Some r => with_sockets
                          (alter (push_sent (input_audio_buffer_append (audio_payload fields))) r) h1
            | None => h1
            end in
  with_heap
    (with_emitted
       (fun l => l ++ [log (obj [("session", Some (JStr label));
                                 ("event", Some (JStr "audio_chunk"));
                                 ("byteLength", Some (JNum (Z.of_nat (length chunk))))])]) h2) st.

(** The message that forwards the payload of a frame. *)
Definition forwarded (fields : list (string * json)) : json :=
  input_audio_buffer_append (audio_payload fields).

(** An audio payload message whose payload decodes to [chunk]. *)
Definition audio_frame `{NodeBuffer} (fields : list (string * json)) (chunk : Buffer) : Prop :=
  is_audio_type (assoc "type" fields) = true /\
  Buffer_from (audio_payload fields) = Normal chunk.

(** Every connection registered in [this.sessions] is registered under the
    label it was made for. *)
Definition labelled (st : Arena) : Prop :=
  forall l r, sessions st !! l = Some r ->
    exists s, sockets (heap st) !! r = Some s /\ label s = l.

(** The labels the connections were made for, by reference. *)
Definition labels (h : Heap) : list string := label <$> sockets h.

Definition hquiet {A} (c : M Heap A) : Prop :=
  forall h, labels h `prefix_of` labels (snd (c h)).

(** The computation leaves [this.sessions] alone. *)
Definition quiet {A} (c : M Arena A) : Prop :=
  forall st, sessions (snd (c st)) = sessions st /\
             labels (heap st) `prefix_of` labels (heap (snd (c st))).

(** What a computation may do to the registered connections. *)
Definition grows (st st' : Arena) : Prop :=
  labels (heap st) `prefix_of` labels (heap st') /\
  forall l r, sessions st' !! l = Some r ->
    sessions st !! l = Some r \/ labels (heap st') !! r = Some l.

(** Run in a state where [ws] is a connection made for [label], the
    computation registers no connection under a foreign label. *)
Definition registers {A} (ws : nat) (label : string) (c : M Arena A) : Prop :=
  forall st, labels (heap st) !! ws = Some label -> grows st (snd (c st)).

(** The module variable [let orchestrator = null;] and the instances made
    so far; a reference to an instance is its index. *)
Record Globals := {
  orchestrator : option nat;
  instances : list Arena
}.

Definition module_loaded : Globals := {| orchestrator := None; instances := [] |}.

(** [initOrchestrator()]; [OPENAI_API_KEY] is [process.env.OPENAI_API_KEY],
    [None] when the variable is not in the environment.  An instance is an
    object, hence truthy; of the strings only the empty one is falsy. *)
Definition initOrchestrator (OPENAI_API_KEY : option string) (g : Globals)
  : Completion nat * Globals :=
  match orchestrator g with
  | Some o => (Normal o, g)
  | None =>
      match OPENAI_API_KEY with
      | None | Some EmptyString =>
          (Throw (Error "OPENAI_API_KEY not set in environment"), g)
      | Some apiKey =>
          let o := length (instances g) in
          (Normal o, {| orchestrator := Some o;
                        instances := instances g ++ [new_ArenaOrchestrator apiKey] |})
      end
  end.

End Orchestrator.

(** ** The draft with paced forwarding queues, [unnamed/part_002]

    [this.forwardQueues = { A: Promise.resolve(), B: Promise.resolve() }]:
    every audio payload for a destination whose connection is open replaces
    the destination's promise by [promise.then(task)], where the task sends
    the payload and returns a promise that a timer resolves. *)

Module Part002.

(** The closure given to [then]: it captures [target], [b64] and [chunk]. *)
Record Task := { target : nat; audio : JsValue; chunk : Buffer }.

(** The promise [q.then(task)] made for a task:
    - [Waiting]: the task has not run;
    - [Sleeping t]: the task ran at time [t], and the promise it returned
      waits for its timer;
    - [Fulfilled t]: the task ran at time [t] and its timer has fired;
    - [Broken e]: rejected, because the task threw or because the promise
      before it was rejected and the task was skipped. *)
Inductive Status :=
| Waiting
| Sleeping (ran_at : Q)
| Fulfilled (ran_at : Q)
| Broken (e : JsError).

Record Link := { task : Task; status : Status }.

(** [this.forwardQueues[d]]: the promises derived from [Promise.resolve()]
    by successive [then], oldest first; the field itself holds the last. *)
Abbreviation Chain := (list Link).

Record Arena := {
  apiKey : string;
  model : string;
  sessions : gmap string nat;
  wavWriters : gmap string nat;
  sessionIds : gmap string json;
  forwardQueues : gmap string Chain;
  now : Q;
  heap : Heap
}.

(** [new ArenaOrchestrator(apiKey)]; the clock starts at any time. *)
Definition new_ArenaOrchestrator (apiKey : string) (now : Q) : Arena :=
  {| apiKey := apiKey; model := "gpt-4o-realtime-preview";
     sessions := ∅; wavWriters := ∅; sessionIds := ∅;
     forwardQueues := <["A" := []]> (<["B" := []]> ∅);
     now := now; heap := empty_heap |}.

Definition with_sessions (f : gmap string nat -> gmap string nat) (st : Arena) : Arena :=
  {| apiKey := apiKey st; model := model st; sessions := f (sessions st);
     wavWriters := wavWriters st; sessionIds := sessionIds st;
     forwardQueues := forwardQueues st; now := now st; heap := heap st |}.
Definition with_wavWriters (f : gmap string nat -> gmap string nat) (st : Arena) : Arena :=
  {| apiKey := apiKey st; model := model st; sessions := sessions st;
     wavWriters := f (wavWriters st); sessionIds := sessionIds st;
     forwardQueues := forwardQueues st; now := now st; heap := heap st |}.
Definition with_sessionIds (f : gmap string json -> gmap string json) (st : Arena) : Arena :=
  {| apiKey := apiKey st; model := model st; sessions := sessions st;
     wavWriters := wavWriters st; sessionIds := f (sessionIds st);
     forwardQueues := forwardQueues st; now := now st; heap := heap st |}.
Definition with_forwardQueues (f : gmap string Chain -> gmap string Chain) (st : Arena) : Arena :=
  {| apiKey := apiKey st; model := model st; sessions := sessions st;
     wavWriters := wavWriters st; sessionIds := sessionIds st;
     forwardQueues := f (forwardQueues st); now := now st; heap := heap st |}.
Definition with_now (t : Q) (st : Arena) : Arena :=
  {| apiKey := apiKey st; model := model st; sessions := sessions st;
     wavWriters := wavWriters st; sessionIds := sessionIds st;
     forwardQueues := forwardQueues st; now := t; heap := heap st |}.
Definition with_heap (h : Heap) (st : Arena) : Arena :=
  {| apiKey := apiKey st; model := model st; sessions := sessions st;
     wavWriters := wavWriters st; sessionIds := sessionIds st;
     forwardQueues := forwardQueues st; now := now st; heap := h |}.

Definition on_heap {A} (c : M Heap A) : M Arena A :=
  fun st => let '(r, h) := c (heap st) in (r, with_heap h st).

Definition session_update : json :=
  obj [("type", Some (JStr "session.update"));
       ("session", Some (obj [("input_audio_format", Some (JStr "pcm16"));
                              ("output_audio_format", Some (JStr "pcm16"));
                              ("modalities", Some (JArr [JStr "audio"; JStr "text"]));
                              ("turn_detection",
                               Some (obj [("type", Some (JStr "server_vad"));
                                          ("create_response", Some (JBool true))]))]))].

(** [const delayMs = (chunk.length / 48000) * 1000;] *)
Definition delayMs (chunk : Buffer) : Q :=
  (inject_Z (Z.of_nat (length chunk)) / inject_Z 48000) * inject_Z 1000.

(** [this.forwardQueues[other] = this.forwardQueues[other].then(task)] *)
Definition enqueue (other : string) (k : Task) : M Arena unit :=
  fun st =>
    match forwardQueues st !! other with
    | Some q =>
        (Normal tt,
         with_forwardQueues (insert other (q ++ [{| task := k; status := Waiting |}])) st)
    | None => (Throw (TypeError "Cannot read properties of undefined (reading 'then')"), st)
    end.

Section Handlers.
Context `{NodeBuffer}.

(** The audio branch of the message listener, lines 96 to 118. *)
Definition on_audio (label : string) (msg : json) : M Arena unit :=
  let! data := lift (get (Some msg) "data") in
  let! delta := lift (get (Some msg) "delta") in
  let b64 := nullish data delta in
  let! chunk := lift (Buffer_from b64) in
  let! writer := gets (fun st => wavWriters st !! label) in
  on_heap (writer_write writer chunk) >>
  on_heap (emit (log (obj [("session", Some (JStr label)); ("event", Some (JStr "audio_chunk"));
                           ("byteLength", Some (JNum (Z.of_nat (length chunk))))]))) >>
  let other := other_of label in
  let! target := gets (fun st => sessions st !! other) in
  let! target_open := gets (fun st => is_open (sockets (heap st)) target) in
  if target_open
  then match target with
       | Some r => enqueue other {| target := r; audio := b64; chunk := chunk |}
       | None => ret tt
       end
  else ret tt.

(** The listener [ws.on("message", (raw) => { .. })]. *)
Definition on_message (ws : nat) (label : string) (raw : Frame) : M Arena unit :=
  match raw with
  | Unparsable err => on_heap (emit (error err))
  | Parsed msg =>
      let! type := lift (get (Some msg) "type") in
      if is_str type "session.created" then
        let! session := lift (get (Some msg) "session") in
        let! sid := lift (get session "id") in
        modify (with_sessionIds (assign label sid)) >>
        on_heap (emit (log (obj [("session", Some (JStr label));
                                 ("event", Some (JStr "session.created"));
                                 ("sessionId", sid)]))) >>
        on_heap (ws_send ws session_update) >>
        on_heap (emit (log (obj [("session", Some (JStr label));
                                 ("event", Some (JStr "session.update.sent"))]))) >>
        let! w := on_heap (_createWavWriter ("session" +:+ label +:+ ".wav")) in
        modify (with_wavWriters (insert label w)) >>
        modify (with_sessions (insert label ws)) >>
        on_heap (modify (with_sockets (alter (set_ready Resolved) ws)))
      else if is_audio_type type then
        on_audio label msg
      else
        on_heap (emit (log (obj [("session", Some (JStr label)); ("event", type);
                                 ("payload", Some msg)])))
  end.

End Handlers.

(** [ws.once("open", ..)] *)
Definition on_open (label clientSessionId : string) : M Arena unit :=
  on_heap (emit (log (obj [("session", Some (JStr label)); ("event", Some (JStr "connected"));
                           ("clientSessionId", Some (JStr clientSessionId))]))).

(** [ws.once("close", ..)] *)
Definition on_close (label : string) : M Arena unit :=
  let! writer := gets (fun st => wavWriters st !! label) in
  on_heap (writer_end writer) >>
  on_heap (emit (log (obj [("session", Some (JStr label)); ("event", Some (JStr "closed"))]))).

(** [_createSession(label)] up to the point where its promise is returned. *)
Definition _createSession (label clientSessionId : string) : M Arena nat :=
  on_heap (new_WebSocket label clientSessionId).

(** [start()] up to its [await]. *)
Definition start (uuidA uuidB : string) : M Arena (nat * nat) :=
  let! a := _createSession "A" uuidA in
  let! b := _createSession "B" uuidB in
  ret (a, b).

(** The body of the task, run at time [now st]:
<<
  target.send(JSON.stringify({ type: "input_audio_buffer.append", audio: b64 }));
  const delayMs = (chunk.length / 48000) * 1000;
  return new Promise((res) => setTimeout(res, delayMs));
>>
    The promise it returns is the [Sleeping] state of the link. *)
Definition run_task (k : Task) : M Arena Status :=
  on_heap (ws_send (target k) (input_audio_buffer_append (audio k))) >>
  let! t := gets now in
  ret (Sleeping t).

(** The reaction job of the first promise of the chain that is not settled:
    if the promise before it is fulfilled its task runs, if that promise is
    rejected it is rejected as well.  [prev] is the rejection of the promise
    before the chain, if any.  No job is due ([None]) while a timer is
    pending or when every promise is settled. *)
Fixpoint react (prev : option JsError) (q : Chain) (st : Arena) : option (Chain * Arena) :=
  match q with
  | [] => None
  | l :: rest =>
      match status l with
      | Fulfilled _ => '(rest', st') ← react None rest st; Some (l :: rest', st')
      | Broken e => '(rest', st') ← react (Some e) rest st; Some (l :: rest', st')
      | Sleeping _ => None
      | Waiting =>
          match prev with
          | Some e => Some ({| task := task l; status := Broken e |} :: rest, st)
          | None =>
              match run_task (task l) st with
              | (Normal s, st') => Some ({| task := task l; status := s |} :: rest, st')
              | (Throw e, st') => Some ({| task := task l; status := Broken e |} :: rest, st')
              end
          end
      end
  end.

(** When the task of a link ran, if it did. *)
Definition ran_at (l : Link) : option Q :=
  match status l with
  | Sleeping t | Fulfilled t => Some t
  | _ => None
  end.

Definition not_ran (l : Link) : Prop := ran_at l = None.
Definition waiting (l : Link) : Prop := status l = Waiting.

Section Timers.
(** [setTimeout_wait d]: the time the runtime lets pass, at the least,
    before it calls a callback registered with [setTimeout(cb, d)]. *)
Variable setTimeout_wait : Q -> Q.

(** The time a link keeps the queue busy once its task has run. *)
Definition pause (l : Link) : Q := setTimeout_wait (delayMs (chunk (task l))).

(** The shape of a queue at time [now]: tasks that ran and whose timers
    fired, each started no sooner than [lower], the end of the pause before
    it; then at most one task whose timer is pending; then tasks that wait.
    After a rejected promise no task has run. *)
Fixpoint paced (lower now : Q) (q : Chain) : Prop :=
  match q with
  | [] => (lower <= now)%Q
  | l :: rest =>
      match status l with
      | Fulfilled t => (lower <= t)%Q /\ (t + pause l <= now)%Q /\ paced (t + pause l) now rest
      | Sleeping t => (lower <= t)%Q /\ (t <= now)%Q /\ Forall waiting rest
      | Waiting => (lower <= now)%Q /\ Forall waiting rest
      | Broken _ => Forall not_ran rest
      end
  end.

Definition queues_paced (st : Arena) : Prop :=
  forall d q, forwardQueues st !! d = Some q -> exists lower, paced lower (now st) q.

(** The timer of the one [Sleeping] promise fires, which resolves it. *)
Fixpoint fire (q : Chain) (t : Q) : option Chain :=
  match q with
  | [] => None
  | l :: rest =>
      match status l with
      | Fulfilled _ | Broken _ => rest' ← fire rest t; Some (l :: rest')
      | Waiting => None
      | Sleeping ran_at =>
          if Qle_bool (ran_at + setTimeout_wait (delayMs (chunk (task l)))) t
          then Some ({| task := task l; status := Fulfilled ran_at |} :: rest)
          else None
      end
  end.

(** What can happen: a frame arrives on a connection, a connection opens
    or closes, a reaction job of a queue runs, a timer of a queue fires,
    time passes.  [None] when the event cannot happen in the state. *)
Inductive Event :=
| Start (uuidA uuidB : string)
| Opened (ws : nat)
| Message (ws : nat) (raw : Frame)
| Closed (ws : nat)
| React (d : string)
| TimerFired (d : string)
| Elapse (dt : Q).

Definition settle {A} (r : Completion A * Arena) : Arena :=
  match r with
  | (Normal _, st) => st
  | (Throw e, st) => with_heap (with_uncaught (fun l => l ++ [e]) (heap st)) st
  end.

Definition step `{NodeBuffer} (ev : Event) (st : Arena) : option Arena :=
  match ev with
  | Start uuidA uuidB => Some (settle (start uuidA uuidB st))
  | Opened ws =>
      s ← sockets (heap st) !! ws;
      Some (settle (on_open (label s) (clientSessionId s)
                      (with_heap (with_sockets (alter (set_readyState OPEN) ws) (heap st)) st)))
  | Message ws raw =>
      s ← sockets (heap st) !! ws;
      Some (settle (on_message ws (label s) raw st))
  | Closed ws =>
      s ← sockets (heap st) !! ws;
      Some (settle (on_close (label s)
                      (with_heap (with_sockets (alter (set_readyState CLOSED) ws) (heap st)) st)))
  | React d =>
      q ← forwardQueues st !! d;
      '(q', st') ← react None q st;
      Some (with_forwardQueues (insert d q') st')
  | TimerFired d =>
      q ← forwardQueues st !! d;
      q' ← fire q (now st);
      Some (with_forwardQueues (insert d q') st)
  | Elapse dt =>
      if Qle_bool 0 dt then Some (with_now (now st + dt)%Q st) else None
  end.

Fixpoint run `{NodeBuffer} (evs : list Event) (st : Arena) : option Arena :=
  match evs with
  | [] => Some st
  | ev :: rest => st' ← step ev st; run rest st'
  end.

End Timers.

End Part002.

(** ** The recorder of [orchestrator_backup_0507.js]

    [this.events = { A: [], B: [] }] holds one array of timed events per
    party; [_writeConversationFiles] turns them into three WAV files. *)

Module Backup0507.

(** An element [{ t, data }] of [this.events[label]]: [t] is
    [Date.now() - this.startTime], in milliseconds. *)
Record TimedEvent := { t : Z; data : Buffer }.

Record Events := { events_A : list TimedEvent; events_B : list TimedEvent }.

Definition sampleRate : Q := inject_Z 24000.
Definition bitDepth : Q := inject_Z 16.
Definition channels : Z := 1.

(** [const bytesPerMs = (sampleRate * (bitDepth/8)) / 1000;] *)
Definition bytesPerMs : Q := (sampleRate * (bitDepth / inject_Z 8)) / inject_Z 1000.

(** [events.sort((a,b) => a.t - b.t)]: Array.prototype.sort is stable, so
    the result is the one arrangement of the array that is ascending in [t]
    and keeps events of equal [t] in their former order.  Insertion from the
    right computes it. *)
Fixpoint insert_by_t (e : TimedEvent) (l : list TimedEvent) : list TimedEvent :=
  match l with
  | [] => [e]
  | x :: r => if t e <=? t x then e :: x :: r else x :: insert_by_t e r
  end.

Fixpoint sort_by_t (l : list TimedEvent) : list TimedEvent :=
  match l with
  | [] => []
  | x :: r => insert_by_t x (sort_by_t r)
  end.

(** Ascending in [t]. *)
Definition le_t (a b : TimedEvent) : Prop := t a <= t b.

(** The state of the loop in [build]: the [cursor] variable and the buffers
    handed to [writer.write] so far. *)
Record Walk := { cursor : Q; written : list Buffer }.

(** One iteration of [for (const {t, data} of events)]:
<<
  const gap = t - cursor;
  if (gap > 0) writer.write(Buffer.alloc(Math.round(gap * bytesPerMs)));
  writer.write(data);
  cursor = t + (data.length / bytesPerMs);
>>
    The size given to [Buffer.alloc] is not negative, since [gap > 0]. *)
Definition build_step (w : Walk) (e : TimedEvent) : Walk :=
  let gap := (inject_Z (t e) - cursor w)%Q in
  let w1 :=
    if Qltb 0 gap
    then written w ++ [Buffer_alloc (Z.to_nat (Math_round (gap * bytesPerMs)))]
    else written w in
  {| cursor := (inject_Z (t e) + inject_Z (Z.of_nat (length (data e))) / bytesPerMs)%Q;
     written := w1 ++ [data e] |}.

Definition walk_from (w : Walk) (events : list TimedEvent) : Walk :=
  fold_left build_step events w.

Definition walk (events : list TimedEvent) : Walk :=
  walk_from {| cursor := 0; written := [] |} events.

(** [build(events, name)]: sorts [events] in place, then writes the walk to
    a fresh writer and ends it.  The result is the array as it is left
    behind and the buffers the file received. *)
Definition build (events : list TimedEvent) : list TimedEvent * list Buffer :=
  let sorted := sort_by_t events in
  (sorted, written (walk sorted)).

(** [data.length / bytesPerMs]: the milliseconds of audio in a buffer. *)
Definition duration (b : Buffer) : Q := inject_Z (Z.of_nat (length b)) / bytesPerMs.

(** A finished file: its name under [recordings/] and the PCM payload. *)
Record WavFile := { name : string; pcm : Buffer }.

(** [_writeConversationFiles()]. *)
Definition _writeConversationFiles (ev : Events) : Events * list WavFile :=
  let '(a, fileA) := build (events_A ev) in
  let '(b, fileB) := build (events_B ev) in
  let merged := sort_by_t (a ++ b) in
  let '(_, fileM) := build merged in
  ({| events_A := a; events_B := b |},
   [ {| name := "sessionA_full.wav"; pcm := concat fileA |};
     {| name := "sessionB_full.wav"; pcm := concat fileB |};
     {| name := "conversation.wav"; pcm := concat fileM |} ]).

(** What an [async] function does between its suspensions. *)
Inductive Effect :=
| SendAudio (ws : nat) (frame : Buffer)
    (** [ws.send(JSON.stringify({ type: "input_audio_buffer.append",
        audio: frame.toString("base64") }))] *)
| Wait (ms : Z)
    (** [await new Promise(r => setTimeout(r, ms))] *)
| Emit (e : Emitted).

(** [const frameSize = 960;] *)
Definition frameSize : nat := 960.

(** The loop [for (let i = 0; i < buffer.length; i += frameSize)] from the
    index [i] on; [fuel] bounds the number of iterations. *)
Fixpoint stream_loop (fuel : nat) (ws : nat) (buffer : Buffer) (i : nat) : list Effect :=
  match fuel with
  | O => []
  | S fuel' =>
      if (i <? length buffer)%nat
      then SendAudio ws (Buffer_slice buffer i (i + frameSize))
             :: Wait 20
             :: stream_loop fuel' ws buffer (i + frameSize)
      else []
  end.

(** [_streamTo(label, buffer)].  The index grows by 960 in every iteration,
    so [length buffer] iterations are enough. *)
Definition _streamTo (sessions : gmap string nat) (sockets : list WebSocket)
    (label : string) (buffer : Buffer) : list Effect :=
  match sessions !! label with
  | Some ws =>
      if is_open sockets (Some ws)
      then stream_loop (length buffer) ws buffer 0
      else [Emit (error (Error ("Session " +:+ label +:+ " not ready")))]
  | None => [Emit (error (Error ("Session " +:+ label +:+ " not ready")))]
  end.

(** The frames a script sends, in order. *)
Definition frames_sent (script : list Effect) : list Buffer :=
  omap (fun e => match e with SendAudio _ f => Some f | _ => None end) script.

End Backup0507.

(** ** [_streamTo] of [orchestrator_backup_0506_2.js] *)

Module Backup0506.

Definition frameSize : nat := 960.

Fixpoint stream_loop (fuel : nat) (ws : nat) (buffer : Buffer) (offset : nat)
  : list Backup0507.Effect :=
  match fuel with
  | O => []
  | S fuel' =>
      if (offset <? length buffer)%nat
      then Backup0507.SendAudio ws (Buffer_slice buffer offset (offset + frameSize))
             :: Backup0507.Wait 20
             :: stream_loop fuel' ws buffer (offset + frameSize)
      else []
  end.

Definition _streamTo (sessions : gmap string nat) (sockets : list WebSocket)
    (label : string) (buffer : Buffer) : list Backup0507.Effect :=
  match sessions !! label with
  | Some ws =>
      if is_open sockets (Some ws)
      then stream_loop (length buffer) ws buffer 0
      else [Backup0507.Emit
              (error (Error ("Session " +:+ label +:+ " not ready for streaming")))]
  | None => [Backup0507.Emit
               (error (Error ("Session " +:+ label +:+ " not ready for streaming")))]
  end.

End Backup0506.

(** ** The drafts that write the solo tracks live, [unnamed/part_000] and
    [unnamed/part_001] *)

Module Part000.

(** The fields of the orchestrator that the audio branch reads:
    [this.wavWriters] has the keys [A], [B] and [combined]. *)
Record Arena := {
  sessions : gmap string nat;
  wavWriters : gmap string nat;
  heap : Heap
}.

Definition with_heap (h : Heap) (st : Arena) : Arena :=
  {| sessions := sessions st; wavWriters := wavWriters st; heap := h |}.

Definition on_heap {A} (c : M Heap A) : M Arena A :=
  fun st => let '(r, h) := c (heap st) in (r, with_heap h st).

(** [this.wavWriters[k].write(b)] *)
Definition write (k : string) (b : Buffer) : M Arena unit :=
  let! writer := gets (fun st => wavWriters st !! k) in
  on_heap (writer_write writer b).

Section Handlers.
Context `{NodeBuffer}.

(** The audio branch of [part_000], lines 222 to 246. *)
Definition on_audio (label : string) (msg : json) : M Arena unit :=
  let! data := lift (get (Some msg) "data") in
  let! delta := lift (get (Some msg) "delta") in
  let b64 := nullish data delta in
  let! chunk := lift (Buffer_from b64) in
  let silence := Buffer_alloc (length chunk) in
  (if String.eqb label "A"
   then write "A" chunk >> write "B" silence
   else write "B" chunk >> write "A" silence) >>
  write "combined" chunk >>
  let other := other_of label in
  let! target := gets (fun st => sessions st !! other) in
  let! target_open := gets (fun st => is_open (sockets (heap st)) target) in
  (if target_open
   then match target with
        | Some r => on_heap (ws_send r (input_audio_buffer_append b64))
        | None => ret tt
        end
   else ret tt) >>
  on_heap (emit (log (obj [("session", Some (JStr label)); ("event", Some (JStr "audio_chunk"));
                           ("byteLength", Some (JNum (Z.of_nat (length chunk))))]))).

End Handlers.

(** The bytes a writer has received. *)
Definition bytes_written (st : Arena) (k : string) : nat :=
  match wavWriters st !! k with
  | Some w =>
      match writers (heap st) !! w with
      | Some wr => length (concat (chunks wr))
      | None => O
      end
  | None => O
  end.

(** An exception that leaves the listener reaches the event loop. *)
Definition settle {A} (r : Completion A * Arena) : Arena :=
  match r with
  | (Normal _, st) => st
  | (Throw e, st) => with_heap (with_uncaught (fun l => l ++ [e]) (heap st)) st
  end.

(** Audio payload messages handled one after the other, each given with
    the label of the connection it arrived on; [branch] is the audio branch
    of the draft. *)
Definition receive (branch : string -> json -> M Arena unit)
    (frames : list (string * list (string * json))) (st : Arena) : Arena :=
  fold_left (fun st '(label, fields) => settle (branch label (JObj fields) st)) frames st.

(** What the solo track [k] receives for a chunk that came from [label]. *)
Definition solo_part (k label : string) (chunk : Buffer) : Buffer :=
  if Bool.eqb (String.eqb label "A") (String.eqb k "A")
  then chunk
  else Buffer_alloc (length chunk).

(** The tracks of A and B, as the part of the state the rest of the branch
    must leave alone. *)
Definition tracks (m : gmap string nat) (a b : nat) (ta tb : option WavWriter)
    (st : Arena) : Prop :=
  wavWriters st = m /\ writers (heap st) !! a = ta /\ writers (heap st) !! b = tb.

(** The buffers the solo track [k] receives for chunks that came from the
    given labels. *)
Definition solo_parts (k : string) (frames : list (string * list (string * json)))
    (bufs : list Buffer) : list Buffer :=
  zip_with (fun f chunk => solo_part k (fst f) chunk) frames bufs.

(** An audio payload message, with the label of its connection, whose
    payload decodes to [chunk]. *)
Definition audio_frame `{NodeBuffer} (f : string * list (string * json)) (chunk : Buffer) : Prop :=
  is_audio_type (assoc "type" (snd f)) = true /\
  Buffer_from (nullish (assoc "data" (snd f)) (assoc "delta" (snd f))) = Normal chunk.

End Part000.

Module Part001.

Section Handlers.
Context `{NodeBuffer}.

(** The audio branch of [part_001], lines 212 to 225: as in [part_000],
    without the log record. *)
Definition on_audio (label : string) (msg : json) : M Part000.Arena unit :=
  let! data := lift (get (Some msg) "data") in
  let! delta := lift (get (Some msg) "delta") in
  let! chunk := lift (Buffer_from (nullish data delta)) in
  let silence := Buffer_alloc (length chunk) in
  (if String.eqb label "A"
   then Part000.write "A" chunk >> Part000.write "B" silence
   else Part000.write "B" chunk >> Part000.write "A" silence) >>
  Part000.write "combined" chunk >>
  let other := other_of label in
  let! target := gets (fun st => Part000.sessions st !! other) in
  let! target_open := gets (fun st => is_open (sockets (Part000.heap st)) target) in
  if target_open
  then match target with
       | Some r => Part000.on_heap (ws_send r (input_audio_buffer_append (nullish data delta)))
       | None => ret tt
       end
  else ret tt.

End Handlers.

End Part001.


(** ** A conversation to try things on *)

Module Scenario.
Import Orchestrator.

Definition session_created (sid : string) : Frame :=
  Parsed (JObj [("type", JStr "session.created"); ("session", JObj [("id", JStr sid)])]).

Definition audio_delta (b64 : string) : list (string * json) :=
  [("type", JStr "response.audio.delta"); ("delta", JStr b64)].

Definition seed : Buffer := [Byte.x01; Byte.x02].

(** Both parties connect and are configured, then A is seeded. *)
Definition conversation : list Event :=
  [ Start "uuid-A" "uuid-B"; Opened 0; Opened 1;
    Message 0 (session_created "sess_A"); Message 1 (session_created "sess_B");
    StartResume (Normal seed) ].

Definition running : Arena := run conversation (new_ArenaOrchestrator "sk-test").

(** The service closes the connection of B. *)
Definition B_gone : Arena := run [Closed 1] running.

(** *** The same with paced queues *)

(** A runtime whose timers fire no sooner than asked. *)
Definition on_time (delay : Q) : Q := delay.

(** Two payloads for A while B listens; the first is forwarded, a tenth of
    a millisecond passes, its timer fires, the second is forwarded. *)
Definition paced_run : list Part002.Event :=
  [ Part002.Start "uuid-A" "uuid-B"; Part002.Opened 0; Part002.Opened 1;
    Part002.Message 0 (session_created "sess_A");
    Part002.Message 1 (session_created "sess_B");
    Part002.Message 0 (Parsed (JObj (audio_delta "AAAA")));
    Part002.Message 0 (Parsed (JObj (audio_delta "AQID")));
    Part002.React "B"; Part002.Elapse (1 # 10); Part002.TimerFired "B";
    Part002.React "B" ].

Definition paced_start : Part002.Arena := Part002.new_ArenaOrchestrator "sk-test" 0.

Definition paced_end : Part002.Arena :=
  default paced_start (Part002.run on_time paced_run paced_start).

Definition queue_B : list Part002.Link :=
  default [] (Part002.forwardQueues paced_end !! "B").

Definition waiting_link : Part002.Link :=
  {| Part002.task := {| Part002.target := 0; Part002.audio := None; Part002.chunk := [] |};
     Part002.status := Part002.Waiting |}.

Definition first_item : Part002.Link := default waiting_link (queue_B !! 0%nat).
Definition second_item : Part002.Link := default waiting_link (queue_B !! 1%nat).

(** *** Seed streaming *)

Definition seed_1000 : Buffer := replicate 1000 Byte.x01.

Definition sessions_A : gmap string nat := {[ "A" := 0%nat ]}.

Definition sockets_A : list WebSocket :=
  [ {| label := "A"; clientSessionId := "uuid-A"; readyState := OPEN;
       sent := []; ready := Resolved |} ].

(** *** Solo tracks written live *)

Definition live_tracks : Part000.Arena :=
  {| Part000.sessions := <["A" := 0%nat]> (<["B" := 1%nat]> ∅);
     Part000.wavWriters := <["A" := 0%nat]> (<["B" := 1%nat]> (<["combined" := 2%nat]> ∅));
     Part000.heap :=
       {| sockets :=
            [ {| label := "A"; clientSessionId := "uuid-A"; readyState := OPEN;
                 sent := []; ready := Resolved |};
              {| label := "B"; clientSessionId := "uuid-B"; readyState := OPEN;
                 sent := []; ready := Resolved |} ];
          writers :=
            [ {| path := "out/sessionA.wav"; chunks := []; ended := false |};
              {| path := "out/sessionB.wav"; chunks := []; ended := false |};
              {| path := "out/conversation.wav"; chunks := []; ended := false |} ];
          emitted := []; uncaught := [] |} |}.

Definition live_frames : list (string * list (string * json)) :=
  [ ("A", audio_delta "AAAA"); ("B", audio_delta "AQID"); ("B", audio_delta "AQ==") ].

End Scenario.

(** ** The audio branch of [server/orchestrator_backup_0507.js]

    The branch stamps every chunk with the time since [start()] and keeps
    it in [this.events]; the files are built from these arrays by [stop()].
    It appends a [_streamTo(other, chunk)] task to the promise chain of the
    other party, whatever the state of that party's connection. *)

Module Relay0507.
Import Backup0507.

(** The fields the branch touches.  [forwardQueues] holds, for each
    destination, the chunks of the tasks appended to its chain, oldest
    first. *)
Record Arena := {
  startTime : option Z;
  events : Events;
  forwardQueues : gmap string (list Buffer);
  emitted : list Emitted
}.

(** [new ArenaOrchestrator(apiKey)], lines 17 to 26. *)
Definition new_ArenaOrchestrator : Arena :=
  {| startTime := None;
     events := {| events_A := []; events_B := [] |};
     forwardQueues := <["A" := []]> (<["B" := []]> ∅);
     emitted := [] |}.

(** [this.startTime = Date.now();] *)
Definition start (now : Z) (st : Arena) : Arena :=
  {| startTime := Some now; events := events st;
     forwardQueues := forwardQueues st; emitted := emitted st |}.

(** [this.events[label].push(e)] *)
Definition push_event (label : string) (e : TimedEvent) (ev : Events) : Completion Events :=
  if String.eqb label "A"
  then Normal {| events_A := events_A ev ++ [e]; events_B := events_B ev |}
  else if String.eqb label "B"
  then Normal {| events_A := events_A ev; events_B := events_B ev ++ [e] |}
  else Throw (TypeError "Cannot read properties of undefined (reading 'push')").

Definition set_events (ev : Events) : M Arena unit :=
  modify (fun st => {| startTime := startTime st; events := ev;
                       forwardQueues := forwardQueues st; emitted := emitted st |}).

Definition emit (e : Emitted) : M Arena unit :=
  modify (fun st => {| startTime := startTime st; events := events st;
                       forwardQueues := forwardQueues st; emitted := emitted st ++ [e] |}).

(** [this.forwardQueues[other] = this.forwardQueues[other]
       .then(() => this._streamTo(other, chunk));] *)
Definition enqueue (other : string) (chunk : Buffer) : M Arena unit :=
  fun st =>
    match forwardQueues st !! other with
    | Some q =>
        (Normal tt,
         {| startTime := startTime st; events := events st;
            forwardQueues := <[other := q ++ [chunk]]> (forwardQueues st);
            emitted := emitted st |})
    | None => (Throw (TypeError "Cannot read properties of undefined (reading 'then')"), st)
    end.

Section Handlers.
Context `{NodeBuffer}.

(** The audio branch, lines 97 to 108; [now] is what [Date.now()] returns.
    In [Date.now() - this.startTime] a [null] counts as 0. *)
Definition on_audio (label : string) (now : Z) (msg : json) : M Arena unit :=
  let! data := lift (get (Some msg) "data") in
  let! delta := lift (get (Some msg) "delta") in
  let b64 := nullish data delta in
  let! chunk := lift (Buffer_from b64) in
  let! started := gets startTime in
  let t := now - default 0 started in
  let! ev := gets events in
  let! ev' := lift (push_event label {| t := t; data := chunk |} ev) in
  set_events ev' >>
  emit (log (obj [("session", Some (JStr label)); ("event", Some (JStr "audio_chunk"));
                  ("byteLength", Some (JNum (Z.of_nat (length chunk))))])) >>
  enqueue (other_of label) chunk.

End Handlers.

(** An audio payload as it arrives: the party of the connection, the
    clock, the properties of the message. *)
Record Arrival := { party : string; clock : Z; fields : list (string * json) }.

(** Audio payloads handled one after the other. *)
Definition receive `{NodeBuffer} (arrivals : list Arrival) (st : Arena) : Arena :=
  fold_left (fun st a => snd (on_audio (party a) (clock a) (JObj (fields a)) st)) arrivals st.

(** An arrival for A or B whose payload decodes to [chunk]. *)
Definition decodes `{NodeBuffer} (a : Arrival) (chunk : Buffer) : Prop :=
  (party a = "A" \/ party a = "B") /\
  Buffer_from (nullish (assoc "data" (fields a)) (assoc "delta" (fields a))) = Normal chunk.

(** The chunks that came from [label], stamped with the time since [s]. *)
Fixpoint heard (label : string) (s : Z) (arrivals : list Arrival) (chunks : list Buffer)
  : list TimedEvent :=
  match arrivals, chunks with
  | a :: ar, c :: cr =>
      if String.eqb (party a) label
      then {| t := clock a - s; data := c |} :: heard label s ar cr
      else heard label s ar cr
  | _, _ => []
  end.

(** The tasks of a chain run one after the other, each once the one before
    it is through; here with the connections as they are found. *)
Definition drain (sessions : gmap string nat) (sockets : list WebSocket)
    (label : string) (queue : list Buffer) : list Effect :=
  flat_map (_streamTo sessions sockets label) queue.

(** The frames a buffer is cut into. *)
Definition frames_of (b : Buffer) : nat := ((length b + 959) / 960)%nat.

End Relay0507.

(** ** The close listener of [unnamed/part_000] and [unnamed/part_001] *)

Module Part000Close.
Import Part000.

(** [Object.values(this.wavWriters).forEach(writer => writer?.end())] for
    the writers [ws]; the order in which they are ended leaves no trace. *)
Definition end_all (ws : list nat) : M Heap unit :=
  modify (with_writers (fun l => foldr (fun w l => alter end_writer w l) l ws)).

(** [ws.once('close', ..)], lines 260 to 263 of [part_000]. *)
Definition on_close (label : string) : M Arena unit :=
  let! ws := gets (fun st => (map_to_list (wavWriters st)).*2) in
  on_heap (end_all ws) >>
  on_heap (emit (log (obj [("session", Some (JStr label)); ("event", Some (JStr "closed"))]))).

(** [ws.once('close', ..)], line 236 of [part_001]: the same, without the
    record. *)
Definition on_close_001 : M Arena unit :=
  let! ws := gets (fun st => (map_to_list (wavWriters st)).*2) in
  on_heap (end_all ws).

(** Every registered writer was ended. *)
Definition frozen (st : Arena) : Prop :=
  forall k w wr, wavWriters st !! k = Some w -> writers (heap st) !! w = Some wr ->
    ended wr = true.

End Part000Close.

(** ** The listeners [server.js] attaches to the orchestrator *)

Module Server.

(** The functions given to [orchestrator.on]: the two of lines 16 to 22,
    and the two closures made for every UI socket, lines 112 to 114.  A
    socket is named by its number in the order of the connections. *)
Inductive Listener :=
| console_log
| console_error
| sendLog (socket : nat)
| sendError (socket : nat).

#[global] Instance Listener_eq_dec : EqDecision Listener.
Proof. solve_decision. Defined.

(** [emitter.off(name, listener)] removes the instance of the listener
    that was added last, if there is one. *)
Fixpoint removeListener (l : Listener) (ls : list Listener) : list Listener :=
  match ls with
  | [] => []
  | x :: r =>
      if decide (l ∈ r) then x :: removeListener l r
      else if decide (x = l) then r
      else x :: r
  end.

(** The listener arrays of the orchestrator for ['log'] and ['error'],
    and the number of UI sockets the WebSocket server has handed out. *)
Record Server := {
  log_listeners : list Listener;
  error_listeners : list Listener;
  connections : nat
}.

(** Lines 15 to 22. *)
Definition boot : Server :=
  {| log_listeners := [console_log]; error_listeners := [console_error]; connections := 0 |}.

Inductive UiEvent :=
| Connection
| SocketClosed (socket : nat).

(** The listener of [wss.on("connection", ..)] and the close listener it
    gives the socket, lines 110 to 123. *)
Definition step (ev : UiEvent) (sv : Server) : Server :=
  match ev with
  | Connection =>
      let socket := connections sv in
      {| log_listeners := log_listeners sv ++ [sendLog socket];
         error_listeners := error_listeners sv ++ [sendError socket];
         connections := S socket |}
  | SocketClosed socket =>
      {| log_listeners := removeListener (sendLog socket) (log_listeners sv);
         error_listeners := removeListener (sendError socket) (error_listeners sv);
         connections := connections sv |}
  end.

Definition run (evs : list UiEvent) (sv : Server) : Server :=
  fold_left (fun sv ev => step ev sv) evs sv.

End Server.

(** ** Notions for the files of the recorder and for scripts *)

Module Timeline.
Import Backup0507.

(** The PCM payload a walk has produced. *)
Definition pcm_of (w : Walk) : Buffer := concat (written w).

(** A buffer of zero bytes. *)
Definition silent (b : Buffer) : Prop := Forall (fun x => x = Byte.x00) b.

(** No event starts before the audio of the one before it is over, the
    first not before [c]. *)
Fixpoint spaced (c : Q) (l : list TimedEvent) : Prop :=
  match l with
  | [] => True
  | e :: r => (c <= inject_Z (t e))%Q /\ spaced (inject_Z (t e) + duration (data e)) r
  end.

(** The milliseconds a script waits in all. *)
Fixpoint total_wait (script : list Effect) : Z :=
  match script with
  | [] => 0
  | Wait ms :: r => ms + total_wait r
  | _ :: r => total_wait r
  end.

End Timeline.

(** ** Notions for the connections and writers over time *)

Module History.

(** What [if (ws?.readyState === WebSocket.OPEN) ws.close()] does to the
    connections. *)
Definition closing (ws : option nat) (l : list WebSocket) : list WebSocket :=
  if is_open l ws
  then match ws with
       | Some r => alter (set_readyState CLOSING) r l
       | None => l
       end
  else l.

(** What [writer?.end()] does to the writers. *)
Definition ending (w : option nat) (l : list WavWriter) : list WavWriter :=
  match w with
  | Some k => alter end_writer k l
  | None => l
  end.

(** The connection [s] later on: made for the same party, and what was
    sent is still there, in its place. *)
Definition socket_extends (s s' : WebSocket) : Prop :=
  label s' = label s /\ clientSessionId s' = clientSessionId s /\
  sent s `prefix_of` sent s'.

(** The writer [w] later on: the same file, what was written is still
    there, in its place, and a writer that was ended stays ended. *)
Definition writer_extends (w w' : WavWriter) : Prop :=
  path w' = path w /\ chunks w `prefix_of` chunks w' /\
  (ended w = true -> ended w' = true).

Definition extends (h h' : Heap) : Prop :=
  (forall r s, sockets h !! r = Some s ->
     exists s', sockets h' !! r = Some s' /\ socket_extends s s') /\
  (forall k w, writers h !! k = Some w ->
     exists w', writers h' !! k = Some w' /\ writer_extends w w') /\
  emitted h `prefix_of` emitted h' /\
  uncaught h `prefix_of` uncaught h'.

(** How often [start()] was called. *)
Fixpoint starts (evs : list Orchestrator.Event) : nat :=
  match evs with
  | [] => 0
  | Orchestrator.Start _ _ :: r => S (starts r)
  | _ :: r => starts r
  end.

(** [start()] called once more while the conversation is running: the
    service has answered on the new connection of A; the old one is still
    there. *)
Definition restarted : Orchestrator.Arena :=
  Orchestrator.run
    [ Orchestrator.Start "uuid-A2" "uuid-B2"; Orchestrator.Opened 2;
      Orchestrator.Message 2 (Scenario.session_created "sess_A2") ]
    Scenario.running.

(** The record the audio branch logs. *)
Definition audio_chunk_log (label : string) (chunk : Buffer) : Emitted :=
  log (obj [("session", Some (JStr label)); ("event", Some (JStr "audio_chunk"));
            ("byteLength", Some (JNum (Z.of_nat (length chunk))))]).

(** The two records [stop()] emits. *)
Definition stopped_logs : list Emitted :=
  [ log (obj [("session", Some (JStr "A")); ("event", Some (JStr "stopped"))]);
    log (obj [("session", Some (JStr "B")); ("event", Some (JStr "stopped"))]) ].

End History.

(** ** Notions for the promise chains of [part_002] *)

Module Queues.
Import Part002.

(** A connection that exists and is past CONNECTING: [send] on it returns. *)
Definition live (h : Heap) (r : nat) : Prop :=
  exists s, sockets h !! r = Some s /\ readyState s <> CONNECTING.

(** A promise of the chain that was not rejected. *)
Definition unbroken (l : Link) : Prop :=
  match status l with
  | Broken _ => False
  | _ => True
  end.

Definition sound (st : Arena) : Prop :=
  forall d q, forwardQueues st !! d = Some q ->
    Forall (fun l => unbroken l /\ live (heap st) (target (task l))) q.

End Queues.

(** * Properties *)

(** ** Invariants of computations *)

Lemma preserves_bind {S A B} (I : S -> Prop) (c : M S A) (k : A -> M S B) :
  preserves I c -> (forall a, preserves I (k a)) -> preserves I (bind c k).
Proof.
  intros Hc Hk st HI. unfold bind. specialize (Hc st HI).
  destruct (c st) as [[a|e] st1]; [|exact Hc]. now apply Hk.
Qed.

Lemma preserves_pure {S A} (I : S -> Prop) (c : M S A) :
  (forall st, snd (c st) = st) -> preserves I c.
Proof. intros Hc st HI. now rewrite Hc. Qed.

(** ** Arithmetic of the recorder *)

Lemma Qltb_lt x y : Qltb x y = true <-> (x < y)%Q.
Proof.
  unfold Qltb. rewrite negb_true_iff. split.
  - intros H. apply Qnot_le_lt. intros Hle.
    apply Qle_bool_iff in Hle. congruence.
  - intros H. destruct (Qle_bool y x) eqn:E; [|reflexivity].
    apply Qle_bool_iff in E. exfalso. revert E. apply Qlt_not_le, H.
Qed.

Lemma Math_round_inject_Z (n : Z) (x : Q) : (x == inject_Z n)%Q -> Math_round x = n.
Proof.
  intros H. unfold Math_round.
  assert (E : (x + (1 # 2) == inject_Z n + (1 # 2))%Q) by (rewrite H; reflexivity).
  rewrite (Qfloor_comp _ _ E).
  unfold Qfloor, inject_Z, Qplus; simpl.
  rewrite Z.mul_1_r.
  replace (n * 2 + 1) with (1 + n * 2) by lia.
  rewrite Z.div_add by lia. reflexivity.
Qed.


Module Recorder.
Import Backup0507.

Lemma bytesPerMs_48 : (bytesPerMs == inject_Z 48)%Q.
Proof. reflexivity. Qed.

(** The duration of a buffer, as [build] computes it. *)
Lemma duration_bytes (n : Z) : (inject_Z n / bytesPerMs * bytesPerMs == inject_Z n)%Q.
Proof. rewrite bytesPerMs_48. field. Qed.

(** *** Sorting *)

Lemma insert_by_t_perm e l : Permutation (insert_by_t e l) (e :: l).
Proof.
  induction l as [|x r IH]; simpl; [reflexivity|].
  destruct (t e <=? t x); [reflexivity|].
  rewrite IH. apply perm_swap.
Qed.

Lemma sort_by_t_perm l : Permutation (sort_by_t l) l.
Proof.
  induction l as [|x r IH]; simpl; [reflexivity|].
  rewrite insert_by_t_perm. now constructor.
Qed.

Lemma insert_by_t_hd e x l :
  t x <= t e -> HdRel le_t x l -> HdRel le_t x (insert_by_t e l).
Proof.
  intros Hxe Hhd. destruct l as [|y r]; simpl.
  - now constructor.
  - destruct (t e <=? t y); constructor; [exact Hxe|].
    now inversion Hhd.
Qed.

Lemma insert_by_t_sorted e l : Sorted le_t l -> Sorted le_t (insert_by_t e l).
Proof.
  induction 1 as [|x r Hs IH Hhd]; simpl.
  - repeat constructor.
  - destruct (t e <=? t x) eqn:E.
    + apply Z.leb_le in E. repeat constructor; assumption.
    + apply Z.leb_gt in E. constructor; [exact IH|].
      apply insert_by_t_hd; [unfold le_t in *; lia | exact Hhd].
Qed.

Lemma sort_by_t_sorted l : Sorted le_t (sort_by_t l).
Proof.
  induction l as [|x r IH]; simpl; [constructor|].
  now apply insert_by_t_sorted.
Qed.

(** Events of equal offset keep their order: the sort is stable. *)
Lemma insert_by_t_stable k e l :
  Sorted le_t l ->
  filter (fun x => t x =? k) (insert_by_t e l) = filter (fun x => t x =? k) (e :: l).
Proof.
  induction 1 as [|x r Hs IH Hhd]; [reflexivity|].
  cbn [insert_by_t]. destruct (t e <=? t x) eqn:E; [reflexivity|].
  apply Z.leb_gt in E.
  rewrite filter_cons. rewrite IH. rewrite !filter_cons.
  destruct (decide (t x =? k)) as [Hx|Hx]; destruct (decide (t e =? k)) as [He|He];
    try reflexivity.
  exfalso. apply Is_true_eq_true in Hx, He. apply Z.eqb_eq in Hx, He. lia.
Qed.

Lemma sort_by_t_stable k l :
  filter (fun x => t x =? k) (sort_by_t l) = filter (fun x => t x =? k) l.
Proof.
  induction l as [|x r IH]; [reflexivity|].
  cbn [sort_by_t]. rewrite insert_by_t_stable by apply sort_by_t_sorted.
  rewrite !filter_cons. rewrite IH. reflexivity.
Qed.

(** Sorting an ascending array leaves it as it is. *)
Lemma sort_by_t_sorted_id l : Sorted le_t l -> sort_by_t l = l.
Proof.
  induction 1 as [|x r Hs IH Hhd]; [reflexivity|].
  cbn [sort_by_t]. rewrite IH. destruct Hhd as [|y r' Hxy]; [reflexivity|].
  simpl. apply Z.leb_le in Hxy. now rewrite Hxy.
Qed.

Lemma sort_by_t_idem l : sort_by_t (sort_by_t l) = sort_by_t l.
Proof. apply sort_by_t_sorted_id, sort_by_t_sorted. Qed.

(** *** The walk *)

Lemma walk_snoc l e : walk (l ++ [e]) = build_step (walk l) e.
Proof. unfold walk, walk_from. now rewrite fold_left_app. Qed.

(** The cursor is always a whole number of bytes. *)
Lemma cursor_whole l : exists z : Z, (cursor (walk l) * bytesPerMs == inject_Z z)%Q.
Proof.
  destruct l as [|x r] using rev_ind.
  - exists 0. reflexivity.
  - exists (t x * 48 + Z.of_nat (length (data x))).
    rewrite walk_snoc. cbn [build_step cursor].
    rewrite Qmult_plus_distr_l, duration_bytes, bytesPerMs_48.
    rewrite !inject_Z_plus, !inject_Z_mult. reflexivity.
Qed.

(** [Buffer.alloc] is never asked for a negative size. *)
Lemma silence_size_nonneg (gap : Q) :
  (0 < gap)%Q -> 0 <= Math_round (gap * bytesPerMs).
Proof.
  intros Hgap. unfold Math_round. change 0 with (Qfloor 0).
  apply Qfloor_resp_le.
  assert (0 < gap * bytesPerMs)%Q by (apply Qmult_lt_0_compat; [exact Hgap|reflexivity]).
  lra.
Qed.

(** One iteration when the event starts after the cursor... *)
Lemma build_step_gap w e z :
  (cursor w * bytesPerMs == inject_Z z)%Q ->
  (cursor w < inject_Z (t e))%Q ->
  let n := Z.to_nat (t e * 48 - z) in
  (inject_Z (Z.of_nat n) / bytesPerMs == inject_Z (t e) - cursor w)%Q /\
  written (build_step w e) = written w ++ [Buffer_alloc n; data e] /\
  cursor (build_step w e) = (inject_Z (t e) + duration (data e))%Q.
Proof.
  intros Hz Hlt n.
  assert (Hgap : ((inject_Z (t e) - cursor w) * bytesPerMs == inject_Z (t e * 48 - z))%Q).
  { assert (E : ((inject_Z (t e) - cursor w) * bytesPerMs
                 == inject_Z (t e) * bytesPerMs - cursor w * bytesPerMs)%Q) by ring.
    rewrite E, Hz, bytesPerMs_48.
    unfold Z.sub. rewrite inject_Z_plus, inject_Z_mult, inject_Z_opp. reflexivity. }
  assert (Hpos : 0 < t e * 48 - z).
  { rewrite Zlt_Qlt, <- Hgap. apply Qmult_lt_0_compat; [|reflexivity].
    unfold Qminus. rewrite <- (Qplus_opp_r (cursor w)).
    apply Qplus_lt_l. exact Hlt. }
  split; [|split].
  - subst n. rewrite Z2Nat.id by lia. rewrite <- Hgap, bytesPerMs_48. field.
  - unfold build_step. cbn [written].
    replace (Qltb 0 (inject_Z (t e) - cursor w)) with true.
    + rewrite (Math_round_inject_Z _ _ Hgap). rewrite <- app_assoc. reflexivity.
    + symmetry. apply Qltb_lt. unfold Qminus. rewrite <- (Qplus_opp_r (cursor w)).
      apply Qplus_lt_l. exact Hlt.
  - reflexivity.
Qed.

(** ... and when it does not: the audio follows at once, and the cursor is
    set from the offset of the event all the same. *)
Lemma build_step_no_gap w e :
  (inject_Z (t e) <= cursor w)%Q ->
  written (build_step w e) = written w ++ [data e] /\
  cursor (build_step w e) = (inject_Z (t e) + duration (data e))%Q.
Proof.
  intros Hle. unfold build_step. cbn [written cursor]. split; [|reflexivity].
  replace (Qltb 0 (inject_Z (t e) - cursor w)) with false; [reflexivity|].
  symmetry. apply not_true_is_false. rewrite Qltb_lt. intros Hlt.
  apply (Qlt_not_le _ _ Hlt). unfold Qminus.
  rewrite <- (Qplus_opp_r (cursor w)). apply Qplus_le_l. exact Hle.
Qed.

Lemma duration_length (b : Buffer) (ms : Z) :
  (duration b == inject_Z ms)%Q -> length b = Z.to_nat (ms * 48).
Proof.
  intros Hd. unfold duration in Hd.
  assert (E : (inject_Z (Z.of_nat (length b)) == inject_Z (ms * 48))%Q).
  { rewrite <- (duration_bytes (Z.of_nat (length b))), Hd, bytesPerMs_48, inject_Z_mult.
    reflexivity. }
  unfold Qeq, inject_Z in E. cbn [Qnum Qden] in E. lia.
Qed.

(** C2.  [build] walks the array sorted by offset; for every event whose
    offset exceeds the cursor it writes zero bytes lasting exactly
    [offset - cursor], then the audio, which leaves the cursor at the offset
    plus the duration of the audio; two segments of 100 ms at offsets 0 and
    150 come out with exactly 50 ms of silence between them. *)
Theorem C2_gap_filling_walk :
  (forall events,
     fst (build events) = sort_by_t events /\
     Sorted le_t (sort_by_t events) /\
     Permutation (sort_by_t events) events /\
     snd (build events) = written (walk (sort_by_t events))) /\
  (forall events before e after,
     sort_by_t events = before ++ e :: after ->
     (cursor (walk before) < inject_Z (t e))%Q ->
     exists n : nat,
       (duration (Buffer_alloc n) == inject_Z (t e) - cursor (walk before))%Q /\
       written (walk (before ++ [e])) = written (walk before) ++ [Buffer_alloc n; data e] /\
       cursor (walk (before ++ [e])) = (inject_Z (t e) + duration (data e))%Q) /\
  (forall a b : Buffer,
     (duration a == inject_Z 100)%Q ->
     (duration b == inject_Z 100)%Q ->
     exists n : nat,
       snd (build [ {| t := 0; data := a |}; {| t := 150; data := b |} ])
         = [a; Buffer_alloc n; b] /\
       (duration (Buffer_alloc n) == inject_Z 50)%Q).
Proof.
  split; [|split].
  - intros events. repeat split.
    + apply sort_by_t_sorted.
    + apply sort_by_t_perm.
  - intros events before e after _ Hlt.
    destruct (cursor_whole before) as [z Hz].
    destruct (build_step_gap _ e z Hz Hlt) as (Hn & Hw & Hc).
    exists (Z.to_nat (t e * 48 - z)). rewrite walk_snoc.
    split; [|split; assumption].
    unfold duration, Buffer_alloc. rewrite length_replicate. exact Hn.
  - intros a b Ha Hb. exists 2400%nat.
    apply duration_length in Ha, Hb. split; [|reflexivity].
    unfold build, walk, walk_from. cbn [snd sort_by_t insert_by_t t].
    cbn [Z.leb Z.compare fold_left]. unfold build_step. cbn [t data cursor written].
    rewrite Ha. reflexivity.
Qed.

(** The example of C2 at two concrete segments, through the general part. *)
Lemma C2_gap_filling_walk_witness :
  let a := replicate 4800 Byte.x01 in
  let b := replicate 4800 Byte.x02 in
  exists n : nat,
    (duration (Buffer_alloc n) == inject_Z 150 - cursor (walk [ {| t := 0; data := a |} ]))%Q /\
    written (walk ([ {| t := 0; data := a |} ] ++ [ {| t := 150; data := b |} ]))
      = written (walk [ {| t := 0; data := a |} ]) ++ [Buffer_alloc n; b] /\
    cursor (walk ([ {| t := 0; data := a |} ] ++ [ {| t := 150; data := b |} ]))
      = (inject_Z 150 + duration b)%Q.
Proof.
  intros a b.
  apply (proj1 (proj2 C2_gap_filling_walk)
           [ {| t := 150; data := b |}; {| t := 0; data := a |} ]
           [ {| t := 0; data := a |} ] {| t := 150; data := b |} []).
  - reflexivity.
  - vm_compute. reflexivity.
Defined.

(** The three files, whatever the events. *)
Lemma _writeConversationFiles_eq ev :
  _writeConversationFiles ev =
  ({| events_A := sort_by_t (events_A ev); events_B := sort_by_t (events_B ev) |},
   [ {| name := "sessionA_full.wav";
        pcm := concat (written (walk (sort_by_t (events_A ev)))) |};
     {| name := "sessionB_full.wav";
        pcm := concat (written (walk (sort_by_t (events_B ev)))) |};
     {| name := "conversation.wav";
        pcm := concat (written (walk (sort_by_t
                 (sort_by_t (events_A ev) ++ sort_by_t (events_B ev))))) |} ]).
Proof.
  unfold _writeConversationFiles, build. now rewrite sort_by_t_idem.
Qed.

(** C4.  The conversation file is the gap-filling walk over the events of
    both parties in one array sorted by offset; merging [(0,a0)] of A with
    [(50,b0)] of B gives the track [(0,a0); (50,b0)], written as [a0], the
    silence that fills what is left of the 50 ms, and [b0]. *)
Theorem C4_merged_track :
  (forall ev,
     let merged := sort_by_t (sort_by_t (events_A ev) ++ sort_by_t (events_B ev)) in
     Sorted le_t merged /\
     Permutation merged (events_A ev ++ events_B ev) /\
     snd (_writeConversationFiles ev) !! 2%nat
       = Some {| name := "conversation.wav"; pcm := concat (written (walk merged)) |}) /\
  (forall a0 b0 : Buffer,
     let ev := {| events_A := [ {| t := 0; data := a0 |} ];
                  events_B := [ {| t := 50; data := b0 |} ] |} in
     sort_by_t (sort_by_t (events_A ev) ++ sort_by_t (events_B ev))
       = [ {| t := 0; data := a0 |}; {| t := 50; data := b0 |} ] /\
     snd (_writeConversationFiles ev) !! 2%nat
       = Some {| name := "conversation.wav";
                 pcm := a0 ++ Buffer_alloc (2400 - length a0) ++ b0 |}).
Proof.
  split.
  - intros ev merged. split; [apply sort_by_t_sorted|]. split.
    + subst merged. now rewrite !sort_by_t_perm.
    + now rewrite _writeConversationFiles_eq.
  - intros a0 b0 ev. split; [reflexivity|].
    rewrite _writeConversationFiles_eq. cbn [snd lookup list_lookup]. do 2 f_equal.
    change (sort_by_t (sort_by_t (events_A ev) ++ sort_by_t (events_B ev)))
      with ([ {| t := 0; data := a0 |} ] ++ [ {| t := 50; data := b0 |} ]).
    rewrite walk_snoc.
    set (w := walk [ {| t := 0; data := a0 |} ]).
    assert (Hw : written w = [a0]) by reflexivity.
    assert (Hz : (cursor w * bytesPerMs == inject_Z (Z.of_nat (length a0)))%Q).
    { change (cursor w) with (inject_Z 0 + duration a0)%Q. unfold duration.
      rewrite Qplus_0_l. apply duration_bytes. }
    assert (Hc : (cursor w == inject_Z (Z.of_nat (length a0)) / inject_Z 48)%Q).
    { change (cursor w) with (inject_Z 0 + duration a0)%Q. unfold duration.
      rewrite Qplus_0_l, bytesPerMs_48. reflexivity. }
    destruct (le_lt_dec 2400 (length a0)) as [Hge|Hlt].
    + destruct (build_step_no_gap w {| t := 50; data := b0 |}) as [Hwr _].
      { cbn [t]. rewrite Hc. unfold Qle, Qdiv, Qmult, Qinv, inject_Z. simpl. lia. }
      rewrite Hwr, Hw. replace (2400 - length a0)%nat with 0%nat by lia.
      simpl. now rewrite app_nil_r.
    + destruct (build_step_gap w {| t := 50; data := b0 |} _ Hz) as (_ & Hwr & _).
      { cbn [t]. rewrite Hc. unfold Qlt, Qdiv, Qmult, Qinv, inject_Z. simpl. lia. }
      rewrite Hwr, Hw. cbn [t data].
      replace (Z.to_nat (50 * 48 - Z.of_nat (length a0))) with (2400 - length a0)%nat by lia.
      simpl. now rewrite app_nil_r.
Qed.

(** C5.  With no events, [build] writes nothing and returns; a party that
    never spoke gets a file without samples, and the conversation file is
    then the track of the other party. *)
Theorem C5_empty_events :
  build [] = ([], []) /\
  (forall b,
     _writeConversationFiles {| events_A := []; events_B := b |} =
     ({| events_A := []; events_B := sort_by_t b |},
      [ {| name := "sessionA_full.wav"; pcm := [] |};
        {| name := "sessionB_full.wav"; pcm := concat (written (walk (sort_by_t b))) |};
        {| name := "conversation.wav"; pcm := concat (written (walk (sort_by_t b))) |} ])) /\
  (forall a,
     _writeConversationFiles {| events_A := a; events_B := [] |} =
     ({| events_A := sort_by_t a; events_B := [] |},
      [ {| name := "sessionA_full.wav"; pcm := concat (written (walk (sort_by_t a))) |};
        {| name := "sessionB_full.wav"; pcm := [] |};
        {| name := "conversation.wav"; pcm := concat (written (walk (sort_by_t a))) |} ])).
Proof.
  split; [reflexivity|]. split.
  - intros b. rewrite _writeConversationFiles_eq. cbn [events_A events_B sort_by_t app].
    now rewrite sort_by_t_idem.
  - intros a. rewrite _writeConversationFiles_eq. cbn [events_A events_B sort_by_t].
    now rewrite app_nil_r, sort_by_t_idem.
Qed.

End Recorder.

(** ** Seed streaming *)

Module Streaming.
Import Backup0507.

Section Loop.
Variables (ws : nat) (buffer : Buffer).

(** Fuel beyond the iterations the loop makes changes nothing. *)
Lemma stream_loop_fuel f1 : forall f2 i,
  (length buffer - i <= f1)%nat -> (length buffer - i <= f2)%nat ->
  stream_loop f1 ws buffer i = stream_loop f2 ws buffer i.
Proof using Type.
  induction f1 as [|f1 IH]; intros f2 i H1 H2.
  - destruct f2 as [|f2]; [reflexivity|]. simpl.
    destruct (Nat.ltb_spec i (length buffer)); [lia|reflexivity].
  - destruct f2 as [|f2]; simpl.
    + destruct (Nat.ltb_spec i (length buffer)); [lia|reflexivity].
    + destruct (Nat.ltb_spec i (length buffer)); [|reflexivity].
      do 2 f_equal. apply IH; unfold frameSize; lia.
Qed.

Lemma stream_loop_shape fuel : forall i,
  stream_loop fuel ws buffer i
  = flat_map (fun f => [SendAudio ws f; Wait 20]) (frames_sent (stream_loop fuel ws buffer i)).
Proof using Type.
  induction fuel as [|fuel IH]; intros i; simpl; [reflexivity|].
  destruct (i <? length buffer)%nat; [|reflexivity].
  cbn. now rewrite <- IH.
Qed.

Lemma stream_loop_concat fuel : forall i,
  (length buffer - i <= fuel)%nat ->
  concat (frames_sent (stream_loop fuel ws buffer i)) = drop i buffer.
Proof using Type.
  induction fuel as [|fuel IH]; intros i Hf; simpl.
  - rewrite drop_ge by lia. reflexivity.
  - destruct (Nat.ltb_spec i (length buffer)) as [Hi|Hi].
    + cbn. rewrite IH by (unfold frameSize; lia).
      unfold Buffer_slice. replace (i + frameSize - i)%nat with frameSize by lia.
      rewrite <- drop_drop. apply take_drop.
    + rewrite drop_ge by lia. reflexivity.
Qed.

Lemma stream_loop_lengths fuel : forall i k f,
  frames_sent (stream_loop fuel ws buffer i) !! k = Some f ->
  (0 < length f <= frameSize)%nat /\
  (S k < length (frames_sent (stream_loop fuel ws buffer i)) -> length f = frameSize)%nat.
Proof using Type.
  induction fuel as [|fuel IH]; intros i k f; simpl; [discriminate|].
  destruct (Nat.ltb_spec i (length buffer)) as [Hi|Hi]; [|discriminate].
  cbn. destruct k as [|k]; cbn.
  - intros [= <-]. unfold Buffer_slice.
    replace (i + frameSize - i)%nat with frameSize by lia.
    rewrite length_take, length_drop. split; [unfold frameSize; lia|].
    intros Hmore. destruct fuel as [|fuel]; [simpl in Hmore; lia|].
    simpl in Hmore.
    destruct (Nat.ltb_spec (i + frameSize) (length buffer)); [lia|simpl in Hmore; lia].
  - intros Hk. destruct (IH _ _ _ Hk) as [H1 H2]. split; [exact H1|].
    intros Hmore. apply H2. unfold frames_sent in *. cbn in Hmore. lia.
Qed.

End Loop.

Lemma draft_0506_same_loop fuel ws buffer : forall i,
  Backup0506.stream_loop fuel ws buffer i = stream_loop fuel ws buffer i.
Proof.
  induction fuel as [|fuel IH]; intros i; simpl; [reflexivity|].
  now rewrite IH.
Qed.

(** A frame of 960 bytes is 20 ms at the rate of the recorder and of the
    session, 24 kHz, 16 bit, one channel. *)
Lemma frame_is_20ms (f : Buffer) : length f = frameSize -> (duration f == inject_Z 20)%Q.
Proof. intros Hf. unfold duration. rewrite Hf. reflexivity. Qed.

(** C8, as the code has it.  When the connection of the destination is
    open, [_streamTo] cuts the buffer into consecutive frames of 960 bytes,
    20 ms at 24 kHz PCM16 mono, the last frame holding what is left (1 to
    960 bytes), sends them in buffer order and waits 20 ms after each one;
    the 0506 draft does the same. *)
Theorem C8_seed_frames (sessions : gmap string nat) (sockets : list WebSocket)
    (label : string) (ws : nat) (buffer : Buffer) :
  sessions !! label = Some ws ->
  is_open sockets (Some ws) = true ->
  let script := _streamTo sessions sockets label buffer in
  let frames := frames_sent script in
  concat frames = buffer /\
  (forall k f, frames !! k = Some f ->
     (0 < length f <= 960)%nat /\
     (S k < length frames -> length f = 960%nat /\ (duration f == inject_Z 20)%Q)%nat) /\
  script = flat_map (fun f => [SendAudio ws f; Wait 20]) frames /\
  Backup0506._streamTo sessions sockets label buffer = script /\
  (forall extra, stream_loop (length buffer + extra) ws buffer 0
                 = stream_loop (length buffer) ws buffer 0).
Proof.
  intros Hs Ho script frames. subst frames script.
  unfold _streamTo, Backup0506._streamTo. rewrite Hs, Ho.
  split; [|split; [|split; [|split]]].
  - rewrite stream_loop_concat by lia. apply drop_0.
  - intros k f Hk. destruct (stream_loop_lengths _ _ _ _ _ _ Hk) as [H1 H2].
    split; [exact H1|]. intros Hmore. split; [now apply H2|].
    apply frame_is_20ms. now apply H2.
  - apply stream_loop_shape.
  - apply draft_0506_same_loop.
  - intros extra. apply stream_loop_fuel; lia.
Qed.

(** C8 on a seed of 1000 bytes. *)
Lemma C8_seed_frames_witness :
  let script := _streamTo Scenario.sessions_A Scenario.sockets_A "A" Scenario.seed_1000 in
  Scenario.sessions_A !! "A" = Some 0%nat /\
  is_open Scenario.sockets_A (Some 0%nat) = true /\
  concat (frames_sent script) = Scenario.seed_1000 /\
  script = flat_map (fun f => [SendAudio 0%nat f; Wait 20]) (frames_sent script).
Proof.
  intros script.
  assert (H1 : Scenario.sessions_A !! "A" = Some 0%nat) by reflexivity.
  assert (H2 : is_open Scenario.sockets_A (Some 0%nat) = true) by reflexivity.
  destruct (C8_seed_frames Scenario.sessions_A Scenario.sockets_A "A" 0%nat
              Scenario.seed_1000 H1 H2) as (Hc & _ & Hs & _).
  repeat split; assumption.
Defined.

(** C8 as stated fails: a seed of 1000 bytes goes out as a frame of 960
    bytes and a frame of 40 bytes, which is not 20 ms of audio. *)
Lemma C8_counterexample :
  let frames := frames_sent
                  (_streamTo Scenario.sessions_A Scenario.sockets_A "A" Scenario.seed_1000) in
  length <$> frames = [960; 40]%nat /\
  ~ Forall (fun f => length f = 960%nat) frames /\
  ~ Forall (fun f => duration f == inject_Z 20)%Q frames.
Proof.
  cbv zeta.
  assert (Hlast : frames_sent
                    (_streamTo Scenario.sessions_A Scenario.sockets_A "A" Scenario.seed_1000)
                  !! 1%nat = Some (replicate 40 Byte.x01)) by (vm_compute; reflexivity).
  split; [vm_compute; reflexivity|]. split.
  - intros HF. pose proof (Forall_lookup_1 _ _ _ _ HF Hlast) as H40. discriminate.
  - intros HF. pose proof (Forall_lookup_1 _ _ _ _ HF Hlast) as H40. cbv beta in H40.
    apply (Recorder.duration_length _ 20) in H40. discriminate.
Qed.

End Streaming.

(** ** The relay of [server/orchestrator.js] *)

Module Relay.
Import Orchestrator.

Lemma is_str_eq v lit : is_str v lit = true -> v = Some (JStr lit).
Proof.
  destruct v as [[]|]; simpl; try discriminate.
  intros E. apply String.eqb_eq in E. now subst.
Qed.

Lemma audio_not_created type :
  is_audio_type type = true -> is_str type "session.created" = false.
Proof.
  unfold is_audio_type. intros E. apply orb_true_iff in E.
  destruct E as [E|E]; apply is_str_eq in E; subst; reflexivity.
Qed.

Lemma other_of_ne label : other_of label <> label.
Proof.
  unfold other_of. destruct (String.eqb_spec label "A") as [->|Hne]; [discriminate|].
  congruence.
Qed.

Section Relay.
Context `{NodeBuffer}.

(** The listener on a frame that does not parse. *)
Lemma on_message_unparsable ws label err st :
  on_message ws label (Unparsable err) st
  = (Normal tt, with_heap (with_emitted (fun l => l ++ [error err]) (heap st)) st).
Proof using Type. reflexivity. Qed.

(** The listener on an audio payload whose writer is live. *)
Lemma on_message_audio ws label fields chunk w wr st :
  is_audio_type (assoc "type" fields) = true ->
  Buffer_from (audio_payload fields) = Normal chunk ->
  wavWriters st !! label = Some w ->
  writers (heap st) !! w = Some wr ->
  ended wr = false ->
  on_message ws label (Parsed (JObj fields)) st
  = (Normal tt, after_audio label fields chunk w st).
Proof using Type.
  intros Hty Hbuf Hw Hwr Hend.
  unfold on_message. cbn [get lift bind].
  rewrite (audio_not_created _ Hty), Hty.
  unfold on_audio, after_audio, forward_to, audio_payload in *.
  unfold bind, gets, lift, ret. cbn [get]. cbn beta iota zeta. rewrite Hbuf, Hw.
  unfold on_heap, writer_write, emit, modify, ws_send. cbn beta iota zeta.
  rewrite Hwr, Hend. cbn [heap with_heap with_writers sockets sessions is_open].
  destruct (sessions st !! other_of label) as [r|]; [|reflexivity].
  unfold is_open.
  destruct (sockets (heap st) !! r) as [s|] eqn:Hs; [|reflexivity].
  destruct (readyState s) eqn:Hrs; cbn [ReadyState_eqb]; [reflexivity| |reflexivity..].
  cbn [heap with_heap with_writers sockets]. rewrite Hs, Hrs. reflexivity.
Qed.

Lemma push_chunks_nil w : push_chunks [] w = w.
Proof using Type. destruct w. unfold push_chunks. cbn. now rewrite app_nil_r. Qed.

Lemma push_sents_nil s : push_sents [] s = s.
Proof using Type. destruct s. unfold push_sents. cbn. now rewrite app_nil_r. Qed.

Lemma push_chunks_cons b bufs w : push_chunks bufs (push_chunk b w) = push_chunks (b :: bufs) w.
Proof using Type. unfold push_chunks, push_chunk. cbn. now rewrite <- app_assoc. Qed.

Lemma push_sents_cons m ms s : push_sents ms (push_sent m s) = push_sents (m :: ms) s.
Proof using Type. unfold push_sents, push_sent. cbn. now rewrite <- app_assoc. Qed.

Lemma is_open_alter_sent m r l t :
  is_open (alter (push_sent m) r l) t = is_open l t.
Proof using Type.
  destruct t as [i|]; [|reflexivity]. unfold is_open.
  destruct (decide (r = i)) as [->|Hne].
  - rewrite list_lookup_alter_eq. now destruct (l !! i).
  - now rewrite list_lookup_alter_ne.
Qed.

Lemma forward_to_after_audio label fields chunk w st :
  forward_to label (after_audio label fields chunk w st) = forward_to label st.
Proof using Type.
  unfold forward_to, after_audio. cbn [sessions heap with_heap with_emitted sockets].
  unfold forward_to. destruct (sessions st !! other_of label) as [r|]; [|reflexivity].
  destruct (is_open (sockets (heap st)) (Some r)) eqn:E;
    cbn [with_sockets with_writers sockets].
  - now rewrite is_open_alter_sent, E.
  - now rewrite E.
Qed.

Lemma run_cons ev evs st : run (ev :: evs) st = run evs (step ev st).
Proof using Type. reflexivity. Qed.

Lemma run_app evs1 evs2 st : run (evs1 ++ evs2) st = run evs2 (run evs1 st).
Proof using Type. unfold run. apply fold_left_app. Qed.

Lemma step_audio ws s fields chunk w wr st :
  sockets (heap st) !! ws = Some s ->
  is_audio_type (assoc "type" fields) = true ->
  Buffer_from (audio_payload fields) = Normal chunk ->
  wavWriters st !! label s = Some w ->
  writers (heap st) !! w = Some wr ->
  ended wr = false ->
  step (Message ws (Parsed (JObj fields))) st = after_audio (label s) fields chunk w st.
Proof using Type.
  intros Hs Hty Hbuf Hw Hwr Hend. unfold step. rewrite Hs.
  now rewrite (on_message_audio ws (label s) fields chunk w wr st Hty Hbuf Hw Hwr Hend).
Qed.

(** A run of audio payloads on one connection, as one update of the arena. *)
Lemma run_audio ws X frames : forall bufs st s w wr,
  Forall2 audio_frame frames bufs ->
  sockets (heap st) !! ws = Some s -> label s = X ->
  wavWriters st !! X = Some w ->
  writers (heap st) !! w = Some wr ->
  ended wr = false ->
  let st' := run (map (fun fields => Message ws (Parsed (JObj fields))) frames) st in
  writers (heap st') = alter (push_chunks bufs) w (writers (heap st)) /\
  (sockets (heap st') =
    match forward_to X st with
    | Some r => alter (push_sents (map forwarded frames)) r (sockets (heap st))
    | None => sockets (heap st)
    end) /\
  uncaught (heap st') = uncaught (heap st) /\
  sessions st' = sessions st /\ wavWriters st' = wavWriters st /\
  sessionIds st' = sessionIds st.
Proof using Type.
  induction frames as [|fields frames IH]; intros bufs st s w wr HF Hs HX Hw Hwr Hend.
  - inversion HF; subst. cbn [map run fold_left].
    rewrite (list_alter_id _ _ _ push_chunks_nil).
    destruct (forward_to (label s) st);
      [rewrite (list_alter_id _ _ _ push_sents_nil)|]; repeat split; reflexivity.
  - inversion HF as [|? chunk ? bufs' [Hty Hbuf] HF']; subst. cbn [map].
    rewrite run_cons.
    rewrite (step_audio ws s fields chunk w wr st Hs Hty Hbuf Hw Hwr Hend).
    set (st1 := after_audio (label s) fields chunk w st).
    assert (Hw1 : writers (heap st1) = alter (push_chunk chunk) w (writers (heap st))).
    { unfold st1, after_audio. cbn [heap with_heap with_emitted writers].
      destruct (forward_to (label s) st); reflexivity. }
    assert (Hs1 : sockets (heap st1) =
                  match forward_to (label s) st with
                  | Some r => alter (push_sent (forwarded fields)) r (sockets (heap st))
                  | None => sockets (heap st)
                  end).
    { unfold st1, after_audio. cbn [heap with_heap with_emitted sockets].
      destruct (forward_to (label s) st); reflexivity. }
    assert (Hu1 : uncaught (heap st1) = uncaught (heap st)).
    { unfold st1, after_audio. cbn [heap with_heap with_emitted uncaught].
      destruct (forward_to (label s) st); reflexivity. }
    assert (Hsock : exists s1, sockets (heap st1) !! ws = Some s1 /\ label s1 = label s).
    { rewrite Hs1. destruct (forward_to (label s) st) as [r|]; [|now exists s].
      destruct (decide (r = ws)) as [->|Hne].
      - rewrite list_lookup_alter_eq, Hs. now eexists.
      - rewrite list_lookup_alter_ne by done. now exists s. }
    destruct Hsock as (s1 & Hs1' & Hl1).
    destruct (IH bufs' st1 s1 w (push_chunk chunk wr) HF' Hs1' Hl1)
      as (IHw & IHs & IHu & IHse & IHww & IHid).
    { exact Hw. }
    { rewrite Hw1, list_lookup_alter_eq, Hwr. reflexivity. }
    { exact Hend. }
    unfold st1 in IHs at 2. rewrite forward_to_after_audio in IHs.
    fold st1 in IHs.
    repeat split.
    + rewrite IHw, Hw1, list_alter_alter_eq.
      apply list_alter_ext; [|reflexivity]. intros; apply push_chunks_cons.
    + rewrite IHs, Hs1. destruct (forward_to (label s) st) as [r|]; [|reflexivity].
      rewrite list_alter_alter_eq. apply list_alter_ext; [|reflexivity].
      intros; apply push_sents_cons.
    + now rewrite IHu.
    + now rewrite IHse.
    + now rewrite IHww.
    + now rewrite IHid.
Qed.

(** *** Connections stay registered under their own label *)

Lemma labels_alter (f : WebSocket -> WebSocket) (i : nat) (l : list WebSocket) :
  (forall x, label (f x) = label x) -> label <$> alter f i l = label <$> l.
Proof using Type.
  intros Hf. revert i. induction l as [|x l IH]; intros [|i]; cbn; f_equal; auto.
Qed.

Lemma grows_refl st : grows st st.
Proof using Type. split; [reflexivity|auto]. Qed.

Lemma grows_trans st1 st2 st3 : grows st1 st2 -> grows st2 st3 -> grows st1 st3.
Proof using Type.
  intros [P1 S1] [P2 S2]. split; [etrans; eassumption|].
  intros l r Hl. destruct (S2 l r Hl) as [Hl2|Hl2]; [|now right].
  destruct (S1 l r Hl2) as [Hl1|Hl1]; [now left|right].
  eapply prefix_lookup_Some; eassumption.
Qed.

Lemma grows_labelled st st' : labelled st -> grows st st' -> labelled st'.
Proof using Type.
  intros HL [P S] l r Hl.
  assert (Hlab : labels (heap st') !! r = Some l).
  { destruct (S l r Hl) as [Hold|Hnew]; [|exact Hnew].
    destruct (HL l r Hold) as (s & Hs & <-).
    eapply prefix_lookup_Some; [|exact P].
    unfold labels. now rewrite list_lookup_fmap, Hs. }
  unfold labels in Hlab. rewrite list_lookup_fmap in Hlab.
  destruct (sockets (heap st') !! r) as [s|]; [|discriminate].
  exists s. split; [reflexivity|]. now injection Hlab.
Qed.

Lemma quiet_registers {A} ws label (c : M Arena A) : quiet c -> registers ws label c.
Proof using Type.
  intros Hq st _. destruct (Hq st) as [Hs Hp]. split; [exact Hp|].
  intros l r Hl. left. now rewrite <- Hs.
Qed.

Lemma registers_bind {A B} ws label (c : M Arena A) (k : A -> M Arena B) :
  registers ws label c -> (forall a, registers ws label (k a)) ->
  registers ws label (bind c k).
Proof using Type.
  intros Hc Hk st Hws. unfold bind. specialize (Hc st Hws).
  destruct (c st) as [[a|e] st1]; [|exact Hc]. cbn [snd] in Hc.
  eapply grows_trans; [exact Hc|]. apply Hk.
  eapply prefix_lookup_Some; [exact Hws|apply Hc].
Qed.

Lemma quiet_bind {A B} (c : M Arena A) (k : A -> M Arena B) :
  quiet c -> (forall a, quiet (k a)) -> quiet (bind c k).
Proof using Type.
  intros Hc Hk st. unfold bind. destruct (Hc st) as [Hs Hp].
  destruct (c st) as [[a|e] st1]; [|now split]. cbn [snd] in *.
  destruct (Hk a st1) as [Hs' Hp']. split; [congruence|etrans; eassumption].
Qed.

Lemma quiet_ret {A} (a : A) : quiet (ret a).
Proof using Type. intros st. now split. Qed.

Lemma quiet_lift {A} (c : Completion A) : quiet (lift c).
Proof using Type. intros st. now split. Qed.

Lemma quiet_gets {A} (f : Arena -> A) : quiet (gets f).
Proof using Type. intros st. now split. Qed.

Lemma quiet_on_heap {A} (c : M Heap A) : hquiet c -> quiet (on_heap c).
Proof using Type.
  intros Hc st. unfold on_heap. specialize (Hc (heap st)).
  destruct (c (heap st)) as [r h]. now split.
Qed.

Lemma quiet_sessionIds f : quiet (modify (with_sessionIds f)).
Proof using Type. intros st. now split. Qed.

Lemma quiet_wavWriters f : quiet (modify (with_wavWriters f)).
Proof using Type. intros st. now split. Qed.

Lemma registers_insert ws label : registers ws label (modify (with_sessions (insert label ws))).
Proof using Type.
  intros st Hws. split; [reflexivity|]. intros l r. cbn.
  rewrite lookup_insert. case_decide as E; [|now left].
  intros [= <-]. subst. now right.
Qed.

Lemma hquiet_emit e : hquiet (emit e).
Proof using Type. intros h. reflexivity. Qed.

Lemma hquiet_alter f ws :
  (forall x, label (f x) = label x) -> hquiet (modify (with_sockets (alter f ws))).
Proof using Type. intros Hf h. unfold labels. cbn. now rewrite labels_alter. Qed.

Lemma hquiet_ws_send ws m : hquiet (ws_send ws m).
Proof using Type.
  intros h. unfold ws_send. destruct (sockets h !! ws) as [s|]; [|reflexivity].
  destruct (readyState s); try reflexivity.
  unfold labels. cbn. now rewrite labels_alter.
Qed.

Lemma hquiet_createWavWriter path : hquiet (_createWavWriter path).
Proof using Type. intros h. reflexivity. Qed.

Lemma hquiet_writer_write w b : hquiet (writer_write w b).
Proof using Type.
  intros h. unfold writer_write. destruct w as [w|]; [|reflexivity].
  destruct (writers h !! w) as [wr|]; [|reflexivity]. now destruct (ended wr).
Qed.

Lemma hquiet_writer_end w : hquiet (writer_end w).
Proof using Type. intros h. now destruct w. Qed.

Lemma hquiet_close_if_open ws : hquiet (close_if_open ws).
Proof using Type.
  intros h. unfold close_if_open. destruct (is_open (sockets h) ws); [|reflexivity].
  destruct ws; [|reflexivity]. unfold labels. cbn. now rewrite labels_alter.
Qed.

Lemma hquiet_new_WebSocket label uuid : hquiet (new_WebSocket label uuid).
Proof using Type.
  intros h. unfold labels. cbn. rewrite fmap_app. now apply prefix_app_r.
Qed.

Create HintDb quiet.
#[local] Hint Resolve quiet_ret quiet_lift quiet_gets quiet_on_heap quiet_sessionIds
  quiet_wavWriters hquiet_emit hquiet_ws_send hquiet_createWavWriter hquiet_writer_write
  hquiet_writer_end hquiet_close_if_open hquiet_new_WebSocket registers_insert : quiet.

(** Takes a handler apart along its binds and branches. *)
Ltac tame :=
  repeat first
    [ apply quiet_bind; [|intros ?]
    | apply registers_bind; [|intros ?]
    | solve [auto with quiet]
    | solve [apply quiet_registers; auto with quiet]
    | solve [apply quiet_on_heap, hquiet_alter; intros []; reflexivity]
    | solve [apply quiet_registers, quiet_on_heap, hquiet_alter; intros []; reflexivity]
    | match goal with
      | |- quiet (if ?b then _ else _) => destruct b
      | |- quiet (match ?x with _ => _ end) => destruct x
      | |- registers _ _ (if ?b then _ else _) => destruct b
      | |- registers _ _ (match ?x with _ => _ end) => destruct x
      end ].

Lemma on_message_registers ws label raw : registers ws label (on_message ws label raw).
Proof using Type. unfold on_message, on_audio. tame. Qed.

Lemma quiet_sendAudio label buffer : quiet (_sendAudio label buffer).
Proof using Type. unfold _sendAudio. tame. Qed.

Lemma quiet_start uuidA uuidB : quiet (start uuidA uuidB).
Proof using Type. unfold start, _createSession. tame. Qed.

Lemma quiet_stop : quiet stop.
Proof using Type. unfold stop, stop_label. tame. Qed.

Lemma quiet_on_open label uuid : quiet (on_open label uuid).
Proof using Type. unfold on_open. tame. Qed.

Lemma quiet_on_close label : quiet (on_close label).
Proof using Type. unfold on_close. tame. Qed.

Lemma quiet_on_error ws err : quiet (on_error ws err).
Proof using Type.
  unfold on_error. tame. apply quiet_on_heap, hquiet_alter.
  intros [? ? ? ? []]; reflexivity.
Qed.

Lemma grows_settle {A} (c : M Arena A) st : grows st (snd (c st)) -> grows st (settle (c st)).
Proof using Type. destruct (c st) as [[a|e] st']; auto. Qed.

Lemma grows_readyState r ws st :
  grows st (with_heap (with_sockets (alter (set_readyState r) ws) (heap st)) st).
Proof using Type.
  split; [|auto]. unfold labels. cbn. now rewrite labels_alter.
Qed.

Lemma quiet_grows {A} (c : M Arena A) st : quiet c -> grows st (snd (c st)).
Proof using Type.
  intros Hq. destruct (Hq st) as [Hs Hp]. split; [exact Hp|].
  intros l r Hl. left. now rewrite <- Hs.
Qed.

Lemma step_grows ev st : grows st (step ev st).
Proof using Type.
  destruct ev as [a b|seed| |ws|ws raw|ws|ws err]; unfold step.
  - apply grows_settle, quiet_grows, quiet_start.
  - apply grows_settle, quiet_grows. unfold start_resume. tame.
  - apply grows_settle, quiet_grows, quiet_stop.
  - destruct (sockets (heap st) !! ws) as [s|]; [|apply grows_refl].
    eapply grows_trans; [apply (grows_readyState OPEN ws)|].
    apply grows_settle, quiet_grows, quiet_on_open.
  - destruct (sockets (heap st) !! ws) as [s|] eqn:Hs; [|apply grows_refl].
    apply grows_settle, on_message_registers.
    unfold labels. now rewrite list_lookup_fmap, Hs.
  - destruct (sockets (heap st) !! ws) as [s|]; [|apply grows_refl].
    eapply grows_trans; [apply (grows_readyState CLOSED ws)|].
    apply grows_settle, quiet_grows, quiet_on_close.
  - destruct (sockets (heap st) !! ws) as [s|]; [|apply grows_refl].
    apply grows_settle, quiet_grows, quiet_on_error.
Qed.

(** Whatever happens to a fresh orchestrator, every registered connection
    is one that was made for the label it is registered under. *)
Lemma run_labelled evs : forall st, labelled st -> labelled (run evs st).
Proof using Type.
  induction evs as [|ev evs IH]; intros st HL; [exact HL|].
  rewrite run_cons. apply IH. eapply grows_labelled; [exact HL|apply step_grows].
Qed.

Lemma new_labelled apiKey : labelled (new_ArenaOrchestrator apiKey).
Proof using Type. intros l r Hl. cbn in Hl. now rewrite lookup_empty in Hl. Qed.

(** The listener on [session.created], on a connection that is open. *)
Lemma on_message_session_created ws label msg type session realSid s st :
  get (Some msg) "type" = Normal type ->
  is_str type "session.created" = true ->
  get (Some msg) "session" = Normal session ->
  get session "id" = Normal realSid ->
  sockets (heap st) !! ws = Some s ->
  readyState s = OPEN ->
  on_message ws label (Parsed msg) st
  = (Normal tt,
     {| apiKey := apiKey st; model := model st;
        sessions := <[label := ws]> (sessions st);
        wavWriters := <[label := length (writers (heap st))]> (wavWriters st);
        sessionIds := assign label realSid (sessionIds st);
        heap :=
          {| sockets := alter (set_ready Resolved) ws
                          (alter (push_sent session_update) ws (sockets (heap st)));
             writers := writers (heap st)
                          ++ [{| path := "session" +:+ label +:+ ".wav";
                                 chunks := []; ended := false |}];
             emitted := emitted (heap st)
                          ++ [log (obj [("session", Some (JStr label));
                                        ("event", Some (JStr "session.created"));
                                        ("sessionId", realSid)])];
             uncaught := uncaught (heap st) |} |}).
Proof using Type.
  intros Hty Hcr Hse Hid Hs Hopen.
  unfold on_message, bind, lift. rewrite Hty, Hcr, Hse, Hid.
  unfold modify, on_heap, emit, ws_send, _createWavWriter, modify.
  cbn [heap with_sessionIds with_heap with_emitted sockets]. rewrite Hs, Hopen. reflexivity.
Qed.

(** C6, as the code has it.  [start()] has no guard: called in any state,
    also while a conversation is running, it does not fail; it opens one
    more connection for each party and leaves the sessions, the writers and
    the session identifiers as they are.  The [session.created] message of a
    new connection then replaces the session, the writer and the session
    identifier of its party. *)
Theorem C6_start_has_no_guard st uuidA uuidB :
  let n := length (sockets (heap st)) in
  let st1 := snd (start uuidA uuidB st) in
  fst (start uuidA uuidB st) = Normal (n, S n) /\
  sessions st1 = sessions st /\ wavWriters st1 = wavWriters st /\
  sessionIds st1 = sessionIds st /\
  writers (heap st1) = writers (heap st) /\
  emitted (heap st1) = emitted (heap st) /\
  uncaught (heap st1) = uncaught (heap st) /\
  sockets (heap st1)
    = sockets (heap st)
      ++ [ {| label := "A"; clientSessionId := uuidA; readyState := CONNECTING;
              sent := []; ready := Pending |};
           {| label := "B"; clientSessionId := uuidB; readyState := CONNECTING;
              sent := []; ready := Pending |} ] /\
  (forall st2 ws s msg type session realSid,
     sockets (heap st2) !! ws = Some s ->
     readyState s = OPEN ->
     get (Some msg) "type" = Normal type ->
     is_str type "session.created" = true ->
     get (Some msg) "session" = Normal session ->
     get session "id" = Normal realSid ->
     let st3 := step (Message ws (Parsed msg)) st2 in
     sessions st3 = <[label s := ws]> (sessions st2) /\
     wavWriters st3 = <[label s := length (writers (heap st2))]> (wavWriters st2) /\
     sessionIds st3 = assign (label s) realSid (sessionIds st2) /\
     uncaught (heap st3) = uncaught (heap st2)).
Proof using Type.
  intros n st1. subst n st1. unfold start, _createSession, bind, ret, on_heap, new_WebSocket.
  cbn [fst snd heap with_heap with_sockets sockets sessions wavWriters sessionIds
         writers emitted uncaught].
  rewrite length_app, Nat.add_1_r, <- app_assoc.
  do 8 (split; [reflexivity|]).
  intros st2 ws s msg type session realSid Hs Hopen Hty Hcr Hse Hid.
  unfold step. rewrite Hs.
  rewrite (on_message_session_created ws (label s) msg type session realSid s st2
             Hty Hcr Hse Hid Hs Hopen).
  repeat split.
Qed.

(** C7.  A frame that does not parse makes the listener emit the error and
    return: nothing is thrown, and the sessions, the session identifiers,
    the writers, the connections and, in the draft that has them, the
    forwarding queues are as before. *)
Theorem C7_malformed_frame_ignored ws label err :
  (forall st : Arena,
     let r := on_message ws label (Unparsable err) st in
     fst r = Normal tt /\
     emitted (heap (snd r)) = emitted (heap st) ++ [error err] /\
     sessions (snd r) = sessions st /\ sessionIds (snd r) = sessionIds st /\
     wavWriters (snd r) = wavWriters st /\
     sockets (heap (snd r)) = sockets (heap st) /\
     writers (heap (snd r)) = writers (heap st) /\
     uncaught (heap (snd r)) = uncaught (heap st)) /\
  (forall st : Part002.Arena,
     let r := Part002.on_message ws label (Unparsable err) st in
     fst r = Normal tt /\
     emitted (Part002.heap (snd r)) = emitted (Part002.heap st) ++ [error err] /\
     Part002.sessions (snd r) = Part002.sessions st /\
     Part002.sessionIds (snd r) = Part002.sessionIds st /\
     Part002.wavWriters (snd r) = Part002.wavWriters st /\
     Part002.forwardQueues (snd r) = Part002.forwardQueues st /\
     sockets (Part002.heap (snd r)) = sockets (Part002.heap st) /\
     writers (Part002.heap (snd r)) = writers (Part002.heap st) /\
     uncaught (Part002.heap (snd r)) = uncaught (Part002.heap st)).
Proof using Type. split; intros st; repeat split. Qed.

(** C1, as the code has it.  Audio payloads received on a connection of
    party X whose writer is live are recorded for X, each once and in the
    order received; they are forwarded, each once and in that order, to the
    connection registered for the other party if that connection is OPEN,
    and to no connection otherwise; no connection made for X is sent
    anything. *)
Theorem C1_audio_recorded_and_forwarded st ws s w wr frames bufs :
  labelled st ->
  sockets (heap st) !! ws = Some s ->
  wavWriters st !! label s = Some w ->
  writers (heap st) !! w = Some wr ->
  ended wr = false ->
  Forall2 audio_frame frames bufs ->
  let X := label s in
  let st' := run (map (fun fields => Message ws (Parsed (JObj fields))) frames) st in
  writers (heap st') = alter (push_chunks bufs) w (writers (heap st)) /\
  (sockets (heap st') =
     match forward_to X st with
     | Some r => alter (push_sents (map forwarded frames)) r (sockets (heap st))
     | None => sockets (heap st)
     end) /\
  (forall r, forward_to X st = Some r ->
     sessions st !! other_of X = Some r /\
     exists t, sockets (heap st) !! r = Some t /\ label t = other_of X /\
               readyState t = OPEN) /\
  (forall r t, sockets (heap st) !! r = Some t -> label t = X ->
     sockets (heap st') !! r = Some t) /\
  uncaught (heap st') = uncaught (heap st).
Proof using Type.
  intros HL Hs Hw Hwr Hend HF X st'.
  destruct (run_audio ws X frames bufs st s w wr HF Hs eq_refl Hw Hwr Hend)
    as (Rw & Rs & Ru & _).
  fold st' in Rw, Rs, Ru.
  assert (Htarget : forall r, forward_to X st = Some r ->
            sessions st !! other_of X = Some r /\
            exists t, sockets (heap st) !! r = Some t /\ label t = other_of X /\
                      readyState t = OPEN).
  { intros r0 Hf. unfold forward_to in Hf.
    destruct (sessions st !! other_of X) as [r'|] eqn:Hr; [|discriminate].
    destruct (is_open (sockets (heap st)) (Some r')) eqn:Ho; [|discriminate].
    injection Hf as <-. split; [reflexivity|].
    destruct (HL _ _ Hr) as (t & Ht & Hlt). exists t. repeat split; try assumption.
    unfold is_open in Ho. rewrite Ht in Ho. now destruct (readyState t). }
  split; [exact Rw|]. split; [exact Rs|]. split; [exact Htarget|]. split; [|exact Ru].
  intros r t Hr Hlt. rewrite Rs.
  destruct (forward_to X st) as [r'|] eqn:Hf; [|exact Hr].
  destruct (Htarget r' eq_refl) as (_ & t' & Ht' & Hlt' & _).
  rewrite list_lookup_alter_ne; [exact Hr|].
  intros ->. rewrite Hr in Ht'. injection Ht' as ->.
  rewrite Hlt in Hlt'. now apply (other_of_ne X).
Qed.

End Relay.

(** C1 on the running conversation: two payloads for A reach the file of A
    and the connection of B. *)
Lemma C1_audio_recorded_and_forwarded_witness :
  let st := Scenario.running in
  let frames := [Scenario.audio_delta "AAAA"; Scenario.audio_delta "AQID"] in
  let st' := run (map (fun fields => Message 0%nat (Parsed (JObj fields))) frames) st in
  labelled st /\
  Forall2 audio_frame frames [[Byte.x00; Byte.x00; Byte.x00]; [Byte.x01; Byte.x02; Byte.x03]] /\
  writers (heap st')
    = alter (push_chunks [[Byte.x00; Byte.x00; Byte.x00]; [Byte.x01; Byte.x02; Byte.x03]])
        0%nat (writers (heap st)) /\
  sockets (heap st') = alter (push_sents (map forwarded frames)) 1%nat (sockets (heap st)).
Proof.
  intros st frames st'.
  assert (HL : labelled st) by apply run_labelled, new_labelled.
  assert (HF : Forall2 audio_frame frames
                 [[Byte.x00; Byte.x00; Byte.x00]; [Byte.x01; Byte.x02; Byte.x03]]).
  { repeat constructor. }
  split; [exact HL|]. split; [exact HF|].
  destruct (C1_audio_recorded_and_forwarded st 0%nat
              {| label := "A"; clientSessionId := "uuid-A"; readyState := OPEN;
                 sent := [session_update;
                          input_audio_buffer_append (Some (JStr "AQI="))];
                 ready := Resolved |}
              0%nat {| path := "sessionA.wav"; chunks := []; ended := false |}
              frames _ HL eq_refl eq_refl eq_refl eq_refl HF) as (Rw & Rs & _).
  split; [exact Rw|exact Rs].
Defined.

(** C1 as stated fails: once the connection of B is closed, a payload for A
    is recorded and forwarded to nobody. *)
Lemma C1_counterexample :
  let frame := Scenario.audio_delta "AQID" in
  let st' := step (Message 0%nat (Parsed (JObj frame))) Scenario.B_gone in
  audio_frame frame [Byte.x01; Byte.x02; Byte.x03] /\
  (chunks <$> writers (heap st') !! 0%nat) = Some [[Byte.x01; Byte.x02; Byte.x03]] /\
  sockets (heap st') = sockets (heap Scenario.B_gone) /\
  Forall (fun t => forwarded frame ∉ sent t) (sockets (heap st')).
Proof.
  cbv zeta. split; [split; reflexivity|]. split; [reflexivity|]. split; [reflexivity|].
  vm_compute. repeat constructor; intros Hin; repeat (inversion Hin as [|? ? ? Hin']; subst; clear Hin; rename Hin' into Hin).
Qed.

(** C6 on the running conversation, up to the [session.created] message of
    the second connection of A.  *)
Lemma C6_start_has_no_guard_witness :
  let st2 := run [Start "uuid-A2" "uuid-B2"; Opened 2%nat] Scenario.running in
  let s := {| label := "A"; clientSessionId := "uuid-A2"; readyState := OPEN;
              sent := []; ready := Pending |} in
  let st3 := step (Message 2%nat (Scenario.session_created "sess_A2")) st2 in
  sockets (heap st2) !! 2%nat = Some s /\
  sessions st3 = <[label s := 2%nat]> (sessions st2) /\
  wavWriters st3 = <[label s := length (writers (heap st2))]> (wavWriters st2) /\
  sessionIds st3 = assign (label s) (Some (JStr "sess_A2")) (sessionIds st2) /\
  uncaught (heap st3) = uncaught (heap st2).
Proof.
  intros st2 s st3.
  assert (Hs : sockets (heap st2) !! 2%nat = Some s) by (vm_compute; reflexivity).
  split; [exact Hs|].
  exact (proj2 (proj2 (proj2 (proj2 (proj2 (proj2 (proj2 (proj2
           (C6_start_has_no_guard Scenario.running "x" "y"))))))))
           st2 2%nat s
           (JObj [("type", JStr "session.created"); ("session", JObj [("id", JStr "sess_A2")])])
           (Some (JStr "session.created"))
           (Some (JObj [("id", JStr "sess_A2")]))
           (Some (JStr "sess_A2"))
           Hs eq_refl eq_refl eq_refl eq_refl eq_refl).
Defined.

(** C6 as stated fails: on the running conversation [start()] does not
    fail, and once the new connection of A is configured the session, the
    writer and the session identifier of A are other ones. *)
Lemma C6_counterexample :
  let st := Scenario.running in
  let st' := run [ Start "uuid-A2" "uuid-B2"; Opened 2%nat; Opened 3%nat;
                   Message 2%nat (Scenario.session_created "sess_A2");
                   Message 3%nat (Scenario.session_created "sess_B2");
                   StartResume (Normal Scenario.seed) ] st in
  fst (start "uuid-A2" "uuid-B2" st) = Normal (2%nat, 3%nat) /\
  uncaught (heap st') = [] /\
  Forall (fun e => match e with error _ => False | log _ => True end) (emitted (heap st')) /\
  (sessions st !! "A" = Some 0%nat /\ sessions st' !! "A" = Some 2%nat) /\
  (wavWriters st !! "A" = Some 0%nat /\ wavWriters st' !! "A" = Some 2%nat) /\
  (sessionIds st !! "A" = Some (JStr "sess_A") /\
   sessionIds st' !! "A" = Some (JStr "sess_A2")).
Proof.
  cbv zeta. split; [vm_compute; reflexivity|]. split; [vm_compute; reflexivity|].
  split; [vm_compute; repeat constructor|].
  repeat split; vm_compute; reflexivity.
Qed.

(** ** The singleton *)

(** C9, as the code has it.  While no instance exists, [initOrchestrator()]
    throws if and only if OPENAI_API_KEY is unset or empty, and otherwise
    makes the one instance; once an instance exists every call returns that
    instance and makes nothing, whatever the environment says by then. *)
Theorem C9_initOrchestrator_singleton :
  (forall key g,
     orchestrator g = None ->
     ((exists e, fst (initOrchestrator key g) = Throw e)
        <-> key = None \/ key = Some EmptyString) /\
     (forall e, fst (initOrchestrator key g) = Throw e -> snd (initOrchestrator key g) = g) /\
     (forall apiKey, key = Some apiKey -> apiKey <> EmptyString ->
        initOrchestrator key g
        = (Normal (length (instances g)),
           {| orchestrator := Some (length (instances g));
              instances := instances g ++ [new_ArenaOrchestrator apiKey] |}))) /\
  (forall key g o, orchestrator g = Some o -> initOrchestrator key g = (Normal o, g)) /\
  (forall key key' g o g',
     initOrchestrator key g = (Normal o, g') ->
     initOrchestrator key' g' = (Normal o, g')).
Proof.
  assert (Hsome : forall key g o,
            orchestrator g = Some o -> initOrchestrator key g = (Normal o, g)).
  { intros key g o Ho. unfold initOrchestrator. now rewrite Ho. }
  split; [|split; [exact Hsome|]].
  - intros key g Hnone. unfold initOrchestrator. rewrite Hnone.
    destruct key as [[|c k]|]; cbn [fst snd].
    + split; [|split].
      * split; [intros _; now right|intros _; eexists; reflexivity].
      * reflexivity.
      * intros apiKey [= <-] Hne. now destruct Hne.
    + split; [|split].
      * split; [intros [e He]; discriminate|intros [E|E]; discriminate].
      * discriminate.
      * now intros apiKey [= <-] _.
    + split; [|split].
      * split; [intros _; now left|intros _; eexists; reflexivity].
      * reflexivity.
      * discriminate.
  - intros key key' g o g' Hinit. apply Hsome.
    unfold initOrchestrator in Hinit.
    destruct (orchestrator g) as [o'|] eqn:Ho.
    + injection Hinit as <- <-. exact Ho.
    + destruct key as [[|c k]|]; try discriminate. now injection Hinit as <- <-.
Qed.

(** C9 at the start of [server.js] with a key in the environment, and a
    second call after the key was removed. *)
Lemma C9_initOrchestrator_singleton_witness :
  initOrchestrator (Some "sk-test") module_loaded
    = (Normal 0%nat, {| orchestrator := Some 0%nat;
                        instances := [new_ArenaOrchestrator "sk-test"] |}) /\
  initOrchestrator None {| orchestrator := Some 0%nat;
                           instances := [new_ArenaOrchestrator "sk-test"] |}
    = (Normal 0%nat, {| orchestrator := Some 0%nat;
                        instances := [new_ArenaOrchestrator "sk-test"] |}).
Proof.
  destruct C9_initOrchestrator_singleton as (Hfirst & _ & Hagain).
  assert (H1 := proj2 (proj2 (Hfirst (Some "sk-test") module_loaded eq_refl))
                  "sk-test" eq_refl ltac:(discriminate)).
  split; [exact H1|]. exact (Hagain _ None _ _ _ H1).
Defined.

(** C9 as stated fails: with OPENAI_API_KEY set to the empty string the
    first call throws although the variable is set. *)
Lemma C9_counterexample :
  let OPENAI_API_KEY := Some EmptyString in
  OPENAI_API_KEY <> None /\
  initOrchestrator OPENAI_API_KEY module_loaded
    = (Throw (Error "OPENAI_API_KEY not set in environment"), module_loaded).
Proof. split; [discriminate|reflexivity]. Qed.

End Relay.

(** ** Solo tracks written live *)

Module SoloTracks.
Import Part000.

Section SoloTracks.
Context `{NodeBuffer}.

Lemma preserves_send m a b ta tb r msg :
  preserves (tracks m a b ta tb) (on_heap (ws_send r msg)).
Proof using Type.
  intros st HI. unfold on_heap, ws_send.
  destruct (sockets (heap st) !! r) as [s|]; [|exact HI].
  destruct (readyState s); exact HI.
Qed.

Lemma preserves_emit m a b ta tb e :
  preserves (tracks m a b ta tb) (on_heap (emit e)).
Proof using Type. intros st HI. exact HI. Qed.

Lemma preserves_write_other m a b ta tb k buf :
  m !! k <> Some a -> m !! k <> Some b ->
  preserves (tracks m a b ta tb) (write k buf).
Proof using Type.
  intros Ha Hb st (Hm & Hta & Htb). unfold write, bind, gets, on_heap, writer_write.
  rewrite Hm. destruct (m !! k) as [c|] eqn:Hk; [|now repeat split].
  destruct (writers (heap st) !! c) as [wc|]; [|now repeat split].
  destruct (ended wc); [now repeat split|].
  repeat split; cbn; [exact Hm| |]; rewrite list_lookup_alter_ne; congruence.
Qed.

(** The two writes to the solo tracks. *)
Lemma solo_writes label chunk a b wa wb st :
  wavWriters st !! "A" = Some a -> wavWriters st !! "B" = Some b -> a <> b ->
  writers (heap st) !! a = Some wa -> writers (heap st) !! b = Some wb ->
  ended wa = false -> ended wb = false ->
  let c := if String.eqb label "A"
           then write "A" chunk >> write "B" (Buffer_alloc (length chunk))
           else write "B" chunk >> write "A" (Buffer_alloc (length chunk)) in
  fst (c st) = Normal tt /\
  tracks (wavWriters st) a b
    (Some (push_chunk (solo_part "A" label chunk) wa))
    (Some (push_chunk (solo_part "B" label chunk) wb)) (snd (c st)).
Proof using Type.
  intros HA HB Hab Hwa Hwb Hea Heb. unfold solo_part.
  destruct (String.eqb label "A"); cbn [Bool.eqb String.eqb Ascii.eqb Bool.eqb];
    unfold write, bind, gets, on_heap, writer_write; cbn beta iota zeta.
  - rewrite HA, Hwa, Hea. cbn [wavWriters with_heap heap writers with_writers].
    rewrite HB, list_lookup_alter_ne, Hwb, Heb by done. cbn [fst snd].
    repeat split; cbn [writers heap with_heap with_writers wavWriters].
    + rewrite list_lookup_alter_ne, list_lookup_alter_eq, Hwa by done. reflexivity.
    + rewrite list_lookup_alter_eq, list_lookup_alter_ne, Hwb by done. reflexivity.
  - rewrite HB, Hwb, Heb. cbn [wavWriters with_heap heap writers with_writers].
    rewrite HA, list_lookup_alter_ne, Hwa, Hea by done. cbn [fst snd].
    repeat split; cbn [writers heap with_heap with_writers wavWriters].
    + rewrite list_lookup_alter_eq, list_lookup_alter_ne, Hwa by done. reflexivity.
    + rewrite list_lookup_alter_ne, list_lookup_alter_eq, Hwb by done. reflexivity.
Qed.

Lemma tracks_settle {A} m a b ta tb (r : Completion A * Arena) :
  tracks m a b ta tb (snd r) -> tracks m a b ta tb (settle r).
Proof using Type. destruct r as [[x|e] st]; auto. Qed.

Ltac keep :=
  repeat first
    [ apply preserves_write_other; assumption
    | apply preserves_send
    | apply preserves_emit
    | apply preserves_pure; reflexivity
    | apply preserves_bind; [|intros ?]
    | match goal with
      | |- preserves _ (if ?b then _ else _) => destruct b
      | |- preserves _ (match ?x with _ => _ end) => destruct x
      end ].

(** After the audio branch of either draft, the solo tracks hold what they
    held, then the chunk on the track of the party it came from and as many
    zero bytes on the other track. *)
Lemma branch_tracks branch label fields chunk a b wa wb st :
  branch = Part000.on_audio \/ branch = Part001.on_audio ->
  Buffer_from (nullish (assoc "data" fields) (assoc "delta" fields)) = Normal chunk ->
  wavWriters st !! "A" = Some a -> wavWriters st !! "B" = Some b -> a <> b ->
  wavWriters st !! "combined" <> Some a -> wavWriters st !! "combined" <> Some b ->
  writers (heap st) !! a = Some wa -> writers (heap st) !! b = Some wb ->
  ended wa = false -> ended wb = false ->
  tracks (wavWriters st) a b
    (Some (push_chunk (solo_part "A" label chunk) wa))
    (Some (push_chunk (solo_part "B" label chunk) wb))
    (settle (branch label (JObj fields) st)).
Proof using Type.
  intros Hbr Hbuf HA HB Hab Hca Hcb Hwa Hwb Hea Heb.
  apply tracks_settle.
  destruct (solo_writes label chunk a b wa wb st HA HB Hab Hwa Hwb Hea Heb) as [Hn Ht].
  destruct Hbr as [-> | ->].
  - unfold Part000.on_audio. cbn [get]. unfold bind at 1 2 3. unfold lift.
    rewrite Hbuf. unfold bind at 1.
    match goal with |- context [match ?c st with _ => _ end] =>
      change c with (if String.eqb label "A"
           then write "A" chunk >> write "B" (Buffer_alloc (length chunk))
           else write "B" chunk >> write "A" (Buffer_alloc (length chunk))) end.
    destruct ((if String.eqb label "A"
           then write "A" chunk >> write "B" (Buffer_alloc (length chunk))
           else write "B" chunk >> write "A" (Buffer_alloc (length chunk))) st)
      as [[[]|e] st1]; [|discriminate].
    cbn [snd] in Ht. clear Hn. revert st1 Ht.
    change (preserves (tracks (wavWriters st) a b
              (Some (push_chunk (solo_part "A" label chunk) wa))
              (Some (push_chunk (solo_part "B" label chunk) wb)))
              (write "combined" chunk >>
               let! target := gets (fun st => sessions st !! other_of label) in
               let! target_open := gets (fun st => is_open (sockets (heap st)) target) in
               (if target_open
                then match target with
                     | Some r => on_heap (ws_send r (input_audio_buffer_append
                                    (nullish (assoc "data" fields) (assoc "delta" fields))))
                     | None => ret tt
                     end
                else ret tt) >>
               on_heap (emit (log (obj [("session", Some (JStr label));
                                        ("event", Some (JStr "audio_chunk"));
                                        ("byteLength", Some (JNum (Z.of_nat (length chunk))))]))))).
    keep.
  - unfold Part001.on_audio. cbn [get]. unfold bind at 1 2 3. unfold lift.
    rewrite Hbuf. unfold bind at 1.
    match goal with |- context [match ?c st with _ => _ end] =>
      change c with (if String.eqb label "A"
           then write "A" chunk >> write "B" (Buffer_alloc (length chunk))
           else write "B" chunk >> write "A" (Buffer_alloc (length chunk))) end.
    destruct ((if String.eqb label "A"
           then write "A" chunk >> write "B" (Buffer_alloc (length chunk))
           else write "B" chunk >> write "A" (Buffer_alloc (length chunk))) st)
      as [[[]|e] st1]; [|discriminate].
    cbn [snd] in Ht. clear Hn. revert st1 Ht.
    change (preserves (tracks (wavWriters st) a b
              (Some (push_chunk (solo_part "A" label chunk) wa))
              (Some (push_chunk (solo_part "B" label chunk) wb)))
              (write "combined" chunk >>
               let! target := gets (fun st => sessions st !! other_of label) in
               let! target_open := gets (fun st => is_open (sockets (heap st)) target) in
               if target_open
               then match target with
                    | Some r => on_heap (ws_send r (input_audio_buffer_append
                                   (nullish (assoc "data" fields) (assoc "delta" fields))))
                    | None => ret tt
                    end
               else ret tt)).
    keep.
Qed.

Lemma length_solo_part k label chunk : length (solo_part k label chunk) = length chunk.
Proof using Type.
  unfold solo_part. destruct (Bool.eqb _ _); [reflexivity|].
  unfold Buffer_alloc. apply length_replicate.
Qed.

Lemma length_concat_solo_parts k frames : forall bufs,
  length frames = length bufs ->
  length (concat (solo_parts k frames bufs)) = length (concat bufs).
Proof using Type.
  induction frames as [|f frames IH]; intros [|c bufs] Hlen; try discriminate; [reflexivity|].
  cbn. rewrite !length_app, length_solo_part. f_equal. apply IH. now injection Hlen.
Qed.

Lemma receive_cons branch label fields frames st :
  receive branch ((label, fields) :: frames) st
  = receive branch frames (settle (branch label (JObj fields) st)).
Proof using Type. reflexivity. Qed.

Lemma receive_tracks branch frames : forall bufs st a b wa wb,
  branch = Part000.on_audio \/ branch = Part001.on_audio ->
  wavWriters st !! "A" = Some a -> wavWriters st !! "B" = Some b -> a <> b ->
  wavWriters st !! "combined" <> Some a -> wavWriters st !! "combined" <> Some b ->
  writers (heap st) !! a = Some wa -> writers (heap st) !! b = Some wb ->
  ended wa = false -> ended wb = false ->
  Forall2 audio_frame frames bufs ->
  tracks (wavWriters st) a b
    (Some (push_chunks (solo_parts "A" frames bufs) wa))
    (Some (push_chunks (solo_parts "B" frames bufs) wb))
    (receive branch frames st).
Proof using Type.
  induction frames as [|[label fields] frames IH];
    intros bufs st a b wa wb Hbr HA HB Hab Hca Hcb Hwa Hwb Hea Heb HF.
  - inversion HF; subst. cbn. unfold tracks, push_chunks. cbn.
    rewrite !app_nil_r. destruct wa, wb. now repeat split.
  - inversion HF as [|? chunk ? bufs' [Hty Hbuf] HF']; subst. cbn [snd] in *.
    rewrite receive_cons.
    destruct (branch_tracks branch label fields chunk a b wa wb st
                Hbr Hbuf HA HB Hab Hca Hcb Hwa Hwb Hea Heb) as (Hm1 & Ha1 & Hb1).
    set (st1 := settle (branch label (JObj fields) st)) in *.
    rewrite <- Hm1 in HA, HB, Hca, Hcb.
    specialize (IH bufs' st1 a b _ _ Hbr HA HB Hab Hca Hcb Ha1 Hb1 Hea Heb HF').
    rewrite Hm1 in IH. destruct IH as (Hm & Ha' & Hb').
    unfold solo_parts. cbn [zip_with fst]. fold (solo_parts "A" frames bufs').
    fold (solo_parts "B" frames bufs').
    unfold tracks. repeat split; [exact Hm| |].
    + rewrite Ha'. f_equal. unfold push_chunks, push_chunk. cbn. now rewrite <- app_assoc.
    + rewrite Hb'. f_equal. unfold push_chunks, push_chunk. cbn. now rewrite <- app_assoc.
Qed.


End SoloTracks.


End SoloTracks.

(** ** Paced forwarding *)

Module Pacing.
Import Part002.

Section Pacing.
Context `{NodeBuffer}.
Variable setTimeout_wait : Q -> Q.

Local Abbreviation paced := (paced setTimeout_wait).
Local Abbreviation pause := (pause setTimeout_wait).
Local Abbreviation queues_paced := (queues_paced setTimeout_wait).

Lemma waiting_not_ran l : waiting l -> not_ran l.
Proof using Type. unfold waiting, not_ran, ran_at. now intros ->. Qed.

Lemma paced_later lower now now' q :
  (now <= now')%Q -> paced lower now q -> paced lower now' q.
Proof using Type.
  intros Hle. revert lower. induction q as [|l rest IH]; intros lower; cbn.
  - intros. lra.
  - destruct (status l) as [|t|t|e].
    + intros [? ?]. split; [lra|assumption].
    + intros (? & ? & ?). repeat split; [assumption|lra|assumption].
    + intros (? & ? & ?). repeat split; [assumption|lra|]. now apply IH.
    + auto.
Qed.

Lemma paced_waiting lower now q :
  (lower <= now)%Q -> Forall waiting q -> paced lower now q.
Proof using Type.
  intros Hle Hq. destruct Hq as [|l rest Hl Hrest]; cbn; [exact Hle|].
  rewrite Hl. now split.
Qed.

(** [then] on the last promise of the queue. *)
Lemma paced_then lower now q k :
  paced lower now q -> paced lower now (q ++ [{| task := k; status := Waiting |}]).
Proof using Type.
  revert lower. induction q as [|l rest IH]; intros lower; cbn.
  - intros Hle. split; [exact Hle|constructor].
  - destruct (status l) as [|t|t|e].
    + intros [? Hw]. split; [assumption|]. apply Forall_app. split; [exact Hw|].
      now repeat constructor.
    + intros (? & ? & Hw). repeat split; try assumption. apply Forall_app.
      split; [exact Hw|]. now repeat constructor.
    + intros (? & ? & Hp). repeat split; try assumption. now apply IH.
    + intros Hn. apply Forall_app. split; [exact Hn|]. now repeat constructor.
Qed.

(** After a rejected promise the reaction job rejects the next one. *)
Lemma react_not_ran q : forall e st q' st',
  Forall not_ran q -> react (Some e) q st = Some (q', st') ->
  st' = st /\ Forall not_ran q'.
Proof using Type.
  induction q as [|l rest IH]; intros e st q' st' Hn Hr; [discriminate|].
  inversion Hn as [|? ? Hl Hrest]; subst. cbn in Hr.
  unfold not_ran, ran_at in Hl. destruct (status l) as [|t|t|e'] eqn:Hst; try discriminate.
  - injection Hr as <- <-. split; [reflexivity|]. constructor; [reflexivity|exact Hrest].
  - destruct (react (Some e') rest st) as [[rest' st1]|] eqn:Hrec; [|discriminate].
    cbn in Hr. injection Hr as <- <-.
    destruct (IH _ _ _ _ Hrest Hrec) as [-> Hn']. split; [reflexivity|].
    constructor; [|exact Hn']. unfold not_ran, ran_at. now rewrite Hst.
Qed.

Lemma run_task_frame k st :
  now (snd (run_task k st)) = now st /\
  forwardQueues (snd (run_task k st)) = forwardQueues st /\
  (forall s, fst (run_task k st) = Normal s -> s = Sleeping (now st)).
Proof using Type.
  unfold run_task, bind, on_heap, gets, ret, ws_send.
  destruct (sockets (heap st) !! target k) as [s|]; [|repeat split; discriminate].
  destruct (readyState s); cbn; repeat split; try discriminate; now intros ? [= <-].
Qed.

(** The reaction job keeps the queue paced. *)
Lemma react_paced q : forall lower st q' st',
  paced lower (now st) q -> react None q st = Some (q', st') ->
  now st' = now st /\ forwardQueues st' = forwardQueues st /\ paced lower (now st) q'.
Proof using Type.
  induction q as [|l rest IH]; intros lower st q' st' Hp Hr; [discriminate|].
  cbn in Hr, Hp. destruct (status l) as [|t|t|e] eqn:Hst.
  - destruct Hp as [Hle Hw].
    destruct (run_task_frame (task l) st) as (Hnow & Hfq & Hs).
    destruct (run_task (task l) st) as [[s|e] st1]; injection Hr as <- <-;
      cbn [snd fst] in *; repeat split; try assumption; cbn.
    + rewrite (Hs s eq_refl). repeat split; [exact Hle|lra|exact Hw].
    + eapply Forall_impl; [exact Hw|]. apply waiting_not_ran.
  - discriminate.
  - destruct Hp as (Hle & Hdone & Hp).
    destruct (react None rest st) as [[rest' st1]|] eqn:Hrec; [|discriminate].
    cbn in Hr. injection Hr as <- <-.
    destruct (IH _ _ _ _ Hp Hrec) as (Hnow & Hfq & Hp').
    repeat split; try assumption. cbn. rewrite Hst. now repeat split.
  - destruct (react (Some e) rest st) as [[rest' st1]|] eqn:Hrec; [|discriminate].
    cbn in Hr. injection Hr as <- <-.
    destruct (react_not_ran _ _ _ _ _ Hp Hrec) as [-> Hn'].
    repeat split. cbn. now rewrite Hst.
Qed.

Lemma fire_not_ran q t : Forall not_ran q -> fire setTimeout_wait q t = None.
Proof using Type.
  induction 1 as [|l rest Hl Hrest IH]; [reflexivity|]. cbn.
  unfold not_ran, ran_at in Hl. destruct (status l); try discriminate; [reflexivity|].
  now rewrite IH.
Qed.

(** A timer that fires keeps the queue paced. *)
Lemma fire_paced q : forall lower now q',
  paced lower now q -> fire setTimeout_wait q now = Some q' -> paced lower now q'.
Proof using Type.
  induction q as [|l rest IH]; intros lower now q' Hp Hf; [discriminate|].
  cbn in Hf, Hp. destruct (status l) as [|t|t|e] eqn:Hst.
  - discriminate.
  - destruct Hp as (Hle & Hnow & Hw).
    destruct (Qle_bool _ _) eqn:Hdue; [|discriminate]. injection Hf as <-.
    apply Qle_bool_iff in Hdue. cbn. repeat split; try assumption.
    now apply paced_waiting.
  - destruct Hp as (Hle & Hdone & Hp).
    destruct (fire setTimeout_wait rest now) as [rest'|] eqn:Hrec; [|discriminate].
    cbn in Hf. injection Hf as <-. cbn. rewrite Hst. repeat split; try assumption.
    now apply IH.
  - now rewrite fire_not_ran in Hf.
Qed.

(** What the claim is about: in a paced queue, a task that has run comes
    after a task that has run, a pause earlier. *)
Lemma paced_consecutive q : forall lower now i li lj t',
  paced lower now q ->
  q !! i = Some li -> q !! S i = Some lj -> ran_at lj = Some t' ->
  exists t, ran_at li = Some t /\ (t + pause li <= t')%Q.
Proof using Type.
  induction q as [|l rest IH]; intros lower now i li lj t' Hp Hi Hj Hran; [discriminate|].
  destruct i as [|i].
  - cbn in Hi, Hj. injection Hi as <-. cbn in Hp.
    unfold ran_at in *. destruct (status l) as [|t|t|e] eqn:Hst.
    + destruct Hp as [_ Hw]. destruct rest as [|x rest]; [discriminate|].
      injection Hj as ->. inversion Hw as [|? ? Hx _]; subst.
      unfold waiting in Hx. now rewrite Hx in Hran.
    + destruct Hp as (_ & _ & Hw). destruct rest as [|x rest]; [discriminate|].
      injection Hj as ->. inversion Hw as [|? ? Hx _]; subst.
      unfold waiting in Hx. now rewrite Hx in Hran.
    + destruct Hp as (_ & _ & Hp). exists t. split; [reflexivity|].
      destruct rest as [|x rest]; [discriminate|]. injection Hj as ->.
      cbn in Hp. destruct (status lj) as [|u|u|e]; try discriminate;
        injection Hran as <-; apply Hp.
    + destruct rest as [|x rest]; [discriminate|]. injection Hj as ->.
      inversion Hp as [|? ? Hx _]; subst. unfold not_ran, ran_at in Hx.
      now rewrite Hran in Hx.
  - cbn in Hi, Hj. cbn in Hp. destruct (status l) as [|t|t|e] eqn:Hst.
    + destruct Hp as [_ Hw]. exfalso.
      assert (Hx : waiting lj) by (eapply Forall_lookup_1; eassumption).
      unfold waiting in Hx. unfold ran_at in Hran. now rewrite Hx in Hran.
    + destruct Hp as (_ & _ & Hw). exfalso.
      assert (Hx : waiting lj) by (eapply Forall_lookup_1; eassumption).
      unfold waiting in Hx. unfold ran_at in Hran. now rewrite Hx in Hran.
    + destruct Hp as (_ & _ & Hp). eapply IH; eassumption.
    + exfalso. assert (Hx : not_ran lj) by (eapply Forall_lookup_1; eassumption).
      unfold not_ran in Hx. now rewrite Hran in Hx.
Qed.

(** *** The queues stay paced, whatever happens *)

Lemma calm_on_heap {A} (c : M Heap A) : preserves queues_paced (on_heap c).
Proof using Type. intros st HI. unfold on_heap. now destruct (c (heap st)). Qed.

Lemma calm_sessionIds f : preserves queues_paced (modify (with_sessionIds f)).
Proof using Type. intros st HI. exact HI. Qed.

Lemma calm_wavWriters f : preserves queues_paced (modify (with_wavWriters f)).
Proof using Type. intros st HI. exact HI. Qed.

Lemma calm_sessions f : preserves queues_paced (modify (with_sessions f)).
Proof using Type. intros st HI. exact HI. Qed.

Lemma calm_enqueue other k : preserves queues_paced (enqueue other k).
Proof using Type.
  intros st HI. unfold enqueue.
  destruct (forwardQueues st !! other) as [q|] eqn:Hq; [|exact HI].
  intros d q'. cbn. rewrite lookup_insert. case_decide as E.
  - intros [= <-]. destruct (HI _ _ Hq) as [lower Hp]. exists lower. now apply paced_then.
  - apply HI.
Qed.

Ltac calm :=
  repeat first
    [ apply calm_on_heap
    | apply calm_sessionIds
    | apply calm_wavWriters
    | apply calm_sessions
    | apply calm_enqueue
    | apply preserves_pure; reflexivity
    | apply preserves_bind; [|intros ?]
    | match goal with
      | |- preserves _ (if ?b then _ else _) => destruct b
      | |- preserves _ (match ?x with _ => _ end) => destruct x
      end ].

Lemma calm_on_message ws label raw : preserves queues_paced (on_message ws label raw).
Proof using Type. unfold on_message, on_audio. calm. Qed.

Lemma calm_settle {A} (r : Completion A * Arena) :
  queues_paced (snd r) -> queues_paced (settle r).
Proof using Type. destruct r as [[a|e] st]; auto. Qed.

Lemma step_paced ev st st' :
  queues_paced st -> step setTimeout_wait ev st = Some st' -> queues_paced st'.
Proof using Type.
  intros HI Hstep. destruct ev as [a b|ws|ws raw|ws|d|d|dt]; unfold step in Hstep.
  - assert (Hc : preserves queues_paced (start a b))
      by (unfold start, _createSession; calm).
    assert (E : st' = settle (start a b st)) by congruence.
    rewrite E. apply calm_settle, Hc, HI.
  - destruct (sockets (heap st) !! ws) as [s|]; [|discriminate].
    cbn [mbind option_bind] in Hstep.
    assert (Hc : preserves queues_paced (on_open (label s) (clientSessionId s)))
      by (unfold on_open; calm).
    match type of Hstep with Some ?x = _ => assert (E : st' = x) by congruence end.
    rewrite E. apply calm_settle, Hc, HI.
  - destruct (sockets (heap st) !! ws) as [s|]; [|discriminate].
    cbn [mbind option_bind] in Hstep.
    match type of Hstep with Some ?x = _ => assert (E : st' = x) by congruence end.
    rewrite E. apply calm_settle, calm_on_message, HI.
  - destruct (sockets (heap st) !! ws) as [s|]; [|discriminate].
    cbn [mbind option_bind] in Hstep.
    assert (Hc : preserves queues_paced (on_close (label s))) by (unfold on_close; calm).
    match type of Hstep with Some ?x = _ => assert (E : st' = x) by congruence end.
    rewrite E. apply calm_settle, Hc, HI.
  - destruct (forwardQueues st !! d) as [q|] eqn:Hq; [|discriminate].
    cbn [mbind option_bind] in Hstep.
    destruct (react None q st) as [[q' st1]|] eqn:Hr; [|discriminate].
    cbn [mbind option_bind] in Hstep.
    match type of Hstep with Some ?x = _ => assert (E : st' = x) by congruence end.
    rewrite E. clear E Hstep. destruct (HI _ _ Hq) as [lower Hp].
    destruct (react_paced _ _ _ _ _ Hp Hr) as (Hnow & Hfq & Hp').
    intros d' q''. cbn [forwardQueues with_forwardQueues now].
    rewrite lookup_insert, Hnow, Hfq. case_decide as E.
    + intros [= <-]. now exists lower.
    + apply HI.
  - destruct (forwardQueues st !! d) as [q|] eqn:Hq; [|discriminate].
    cbn [mbind option_bind] in Hstep.
    destruct (fire setTimeout_wait q (now st)) as [q'|] eqn:Hf; [|discriminate].
    cbn [mbind option_bind] in Hstep.
    match type of Hstep with Some ?x = _ => assert (E : st' = x) by congruence end.
    rewrite E. clear E Hstep. destruct (HI _ _ Hq) as [lower Hp].
    intros d' q''. cbn [forwardQueues with_forwardQueues now].
    rewrite lookup_insert. case_decide as E.
    + intros [= <-]. exists lower. eapply fire_paced; eassumption.
    + apply HI.
  - destruct (Qle_bool 0 dt) eqn:Hdt; [|discriminate].
    match type of Hstep with Some ?x = _ => assert (E : st' = x) by congruence end.
    rewrite E. clear E Hstep.
    apply Qle_bool_iff in Hdt. intros d q Hq. cbn [forwardQueues with_now now] in *.
    destruct (HI _ _ Hq) as [lower Hp]. exists lower.
    eapply paced_later; [|exact Hp]. lra.
Qed.

Lemma run_paced evs : forall st st',
  queues_paced st -> run setTimeout_wait evs st = Some st' -> queues_paced st'.
Proof using Type.
  induction evs as [|ev evs IH]; intros st st' HI Hrun; cbn in Hrun.
  - now injection Hrun as <-.
  - destruct (step setTimeout_wait ev st) as [st1|] eqn:Hstep; [|discriminate].
    cbn in Hrun. eapply IH; [|exact Hrun]. eapply step_paced; eassumption.
Qed.

Lemma new_paced apiKey now0 : queues_paced (new_ArenaOrchestrator apiKey now0).
Proof using Type.
  intros d q. cbn. rewrite !lookup_insert. repeat case_decide.
  - intros [= <-]. exists now0. cbn. lra.
  - intros [= <-]. exists now0. cbn. lra.
  - now rewrite lookup_empty.
Qed.


End Pacing.


End Pacing.

(** * Further properties of the code *)

(** ** The files of the recorder *)

Module Files.
Import Backup0507 Timeline Recorder.

Lemma walk_from_snoc w l e : walk_from w (l ++ [e]) = build_step (walk_from w l) e.
Proof. unfold walk_from. now rewrite fold_left_app. Qed.

Lemma written_step w e :
  exists gap : list Buffer,
    written (build_step w e) = written w ++ gap ++ [data e] /\
    Forall silent gap.
Proof.
  unfold build_step. cbn [written].
  destruct (Qltb 0 _).
  - eexists [_]. rewrite <- app_assoc. split; [reflexivity|].
    constructor; [|constructor]. unfold silent, Buffer_alloc.
    now apply Forall_replicate.
  - exists []. split; [reflexivity|constructor].
Qed.

(** What a walk writes: the audio of the events, in their order, with
    buffers of zero bytes in between. *)
Lemma written_walk_from l : forall w,
  exists out,
    written (walk_from w l) = written w ++ out /\
    map data l `sublist_of` out /\
    Forall (fun b => silent b \/ b ∈ map data l) out.
Proof.
  induction l as [|e l IH] using rev_ind; intros w.
  - exists []. rewrite app_nil_r. repeat split; constructor.
  - rewrite walk_from_snoc. destruct (IH w) as (out & Hw & Hs & Hf).
    destruct (written_step (walk_from w l) e) as (gap & Hstep & Hgap).
    exists (out ++ gap ++ [data e]). rewrite Hstep, Hw, <- app_assoc.
    split; [reflexivity|]. rewrite map_app. cbn [map]. split.
    + apply sublist_app; [exact Hs|]. apply sublist_inserts_l. reflexivity.
    + rewrite !Forall_app. repeat split.
      * eapply Forall_impl; [exact Hf|]. intros b [Hb|Hb]; [now left|right].
        apply elem_of_app. now left.
      * eapply Forall_impl; [exact Hgap|]. intros b Hb. now left.
      * constructor; [|constructor]. right. apply elem_of_app. right. now left.
Qed.


Lemma walk_app l1 l2 : walk (l1 ++ l2) = walk_from (walk l1) l2.
Proof. unfold walk, walk_from. apply fold_left_app. Qed.

Lemma pcm_of_walk_app l1 l2 :
  exists rest, pcm_of (walk (l1 ++ l2)) = pcm_of (walk l1) ++ rest.
Proof.
  rewrite walk_app. destruct (written_walk_from l2 (walk l1)) as (out & Hw & _).
  exists (concat out). unfold pcm_of. now rewrite Hw, concat_app.
Qed.

(** One iteration, in bytes: where the audio of the event lands. *)
Lemma step_position w e z :
  (cursor w * bytesPerMs == inject_Z z)%Q ->
  z <= Z.of_nat (length (pcm_of w)) ->
  exists n : nat,
    pcm_of (build_step w e) = pcm_of w ++ Buffer_alloc n ++ data e /\
    48 * t e <= Z.of_nat (length (pcm_of w) + n) /\
    ((cursor w <= inject_Z (t e))%Q ->
     Z.of_nat (length (pcm_of w) + n) = 48 * t e + (Z.of_nat (length (pcm_of w)) - z)) /\
    (cursor (build_step w e) * bytesPerMs
     == inject_Z (48 * t e + Z.of_nat (length (data e))))%Q.
Proof.
  intros Hz Hpos.
  assert (Hc : (cursor (build_step w e) * bytesPerMs
                == inject_Z (48 * t e + Z.of_nat (length (data e))))%Q).
  { cbn [build_step cursor].
    rewrite Qmult_plus_distr_l, duration_bytes, bytesPerMs_48.
    rewrite !inject_Z_plus, !inject_Z_mult. ring. }
  assert (Hcz : forall x : Z, (cursor w <= inject_Z x)%Q <-> z <= 48 * x).
  { intros x. rewrite Zle_Qle, <- Hz, inject_Z_mult, bytesPerMs_48. split; intros H.
    - assert (E : (inject_Z 48 * inject_Z x == inject_Z x * inject_Z 48)%Q) by ring.
      rewrite E. apply Qmult_le_compat_r; [exact H|discriminate].
    - apply Qmult_lt_0_le_reg_r with (z := inject_Z 48); [reflexivity|].
      assert (E : (inject_Z x * inject_Z 48 == inject_Z 48 * inject_Z x)%Q) by ring.
      rewrite E. exact H. }
  destruct (Qlt_le_dec (cursor w) (inject_Z (t e))) as [Hlt|Hle].
  - destruct (build_step_gap w e z Hz Hlt) as (_ & Hw & _).
    assert (z < 48 * t e).
    { destruct (Z_lt_le_dec z (48 * t e)) as [?|Hge]; [assumption|].
      exfalso. apply (Qlt_not_le _ _ Hlt).
      apply Qmult_lt_0_le_reg_r with (z := bytesPerMs); [reflexivity|].
      rewrite Hz, bytesPerMs_48, <- inject_Z_mult, <- Zle_Qle. lia. }
    exists (Z.to_nat (t e * 48 - z)). split; [|split; [|split]].
    + unfold pcm_of. rewrite Hw, concat_app. cbn [concat]. now rewrite app_nil_r.
    + lia.
    + intros _. lia.
    + exact Hc.
  - destruct (build_step_no_gap w e Hle) as (Hw & _).
    exists 0%nat. split; [|split; [|split]].
    + unfold pcm_of. rewrite Hw, concat_app. cbn. now rewrite app_nil_r.
    + assert (48 * t e <= z); [|lia].
      rewrite Zle_Qle, <- Hz, inject_Z_mult, bytesPerMs_48.
      assert (E : (inject_Z 48 * inject_Z (t e) == inject_Z (t e) * inject_Z 48)%Q) by ring.
      rewrite E. apply Qmult_le_compat_r; [exact Hle|discriminate].
    + intros Hge. apply Hcz in Hge.
      assert (48 * t e <= z); [|lia].
      rewrite Zle_Qle, <- Hz, inject_Z_mult, bytesPerMs_48.
      assert (E : (inject_Z 48 * inject_Z (t e) == inject_Z (t e) * inject_Z 48)%Q) by ring.
      rewrite E. apply Qmult_le_compat_r; [exact Hle|discriminate].
    + exact Hc.
Qed.

(** The write position of the file is never behind the cursor. *)
Lemma position_ahead l :
  exists z, (cursor (walk l) * bytesPerMs == inject_Z z)%Q /\
            z <= Z.of_nat (length (pcm_of (walk l))).
Proof.
  induction l as [|e l IH] using rev_ind.
  - exists 0. split; [reflexivity|cbn; lia].
  - destruct IH as (z & Hz & Hle). rewrite walk_snoc.
    destruct (step_position (walk l) e z Hz Hle) as (n & Hp & Hn & _ & Hc).
    eexists. split; [exact Hc|].
    rewrite Hp, !length_app. unfold Buffer_alloc at 1. rewrite length_replicate. lia.
Qed.

Lemma spaced_app c l1 : forall l2 w,
  cursor w = c -> spaced c (l1 ++ l2) ->
  spaced c l1 /\ spaced (cursor (walk_from w l1)) l2.
Proof.
  revert c. induction l1 as [|x r IH]; intros c l2 w Hw Hs.
  - cbn. subst c. now split.
  - cbn [app spaced] in Hs. destruct Hs as [Hx Hr].
    destruct (IH _ l2 (build_step w x) eq_refl Hr) as [H1 H2].
    cbn [spaced]. repeat split; assumption.
Qed.

(** ... and level with it as long as no event starts before the one before
    it is over. *)
Lemma position_level l :
  spaced 0 l ->
  (cursor (walk l) * bytesPerMs == inject_Z (Z.of_nat (length (pcm_of (walk l)))))%Q.
Proof.
  induction l as [|e l IH] using rev_ind; intros Hs.
  - reflexivity.
  - destruct (spaced_app 0 l [e] {| cursor := 0; written := [] |} eq_refl Hs) as [Hl He].
    specialize (IH Hl). cbn [spaced] in He. destruct He as [He _].
    rewrite walk_snoc.
    destruct (step_position (walk l) e _ IH (Z.le_refl _)) as (n & Hp & _ & Hn & Hc).
    specialize (Hn He). rewrite Hc, Hp.
    rewrite !length_app. unfold Buffer_alloc at 1. rewrite length_replicate.
    rewrite Nat.add_assoc, Nat2Z.inj_add, Hn.
    rewrite Z.sub_diag, Z.add_0_r. reflexivity.
Qed.

(** X2.  In the file [build] produces, the audio of an event never starts
    before the byte of its offset, 48 bytes to the millisecond: what
    precedes it is the file of the events before it and zero bytes. *)
Theorem build_never_early events before e after :
  fst (build events) = before ++ e :: after ->
  exists (n : nat) (rest : Buffer),
    concat (snd (build events))
    = pcm_of (walk before) ++ Buffer_alloc n ++ data e ++ rest /\
    48 * t e <= Z.of_nat (length (pcm_of (walk before) ++ Buffer_alloc n)).
Proof.
  cbn [build fst snd]. intros ->.
  destruct (position_ahead before) as (z & Hz & Hle).
  destruct (step_position (walk before) e z Hz Hle) as (n & Hp & Hn & _).
  replace (before ++ e :: after) with ((before ++ [e]) ++ after)
    by now rewrite <- app_assoc.
  destruct (pcm_of_walk_app (before ++ [e]) after) as (rest & Hrest).
  exists n, rest. change (concat (written ?w)) with (pcm_of w).
  rewrite Hrest, walk_snoc, Hp, <- !app_assoc. split; [reflexivity|].
  rewrite length_app. unfold Buffer_alloc at 1. now rewrite length_replicate.
Qed.

(** X3.  When no event starts before the audio of the one before it is
    over, and the first not before offset 0, the audio of every event starts
    exactly at the byte of its offset. *)
Theorem build_aligned events before e after :
  spaced 0 (fst (build events)) ->
  fst (build events) = before ++ e :: after ->
  exists (n : nat) (rest : Buffer),
    concat (snd (build events))
    = pcm_of (walk before) ++ Buffer_alloc n ++ data e ++ rest /\
    Z.of_nat (length (pcm_of (walk before) ++ Buffer_alloc n)) = 48 * t e.
Proof.
  cbn [build fst snd]. intros Hs E. rewrite E in *.
  destruct (spaced_app 0 before (e :: after) {| cursor := 0; written := [] |} eq_refl Hs)
    as [Hb He].
  cbn [spaced] in He. destruct He as [He _].
  pose proof (position_level before Hb) as Hz.
  destruct (step_position (walk before) e _ Hz (Z.le_refl _)) as (n & Hp & _ & Hn & _).
  specialize (Hn He).
  replace (before ++ e :: after) with ((before ++ [e]) ++ after)
    by now rewrite <- app_assoc.
  destruct (pcm_of_walk_app (before ++ [e]) after) as (rest & Hrest).
  exists n, rest. change (concat (written ?w)) with (pcm_of w).
  rewrite Hrest, walk_snoc, Hp, <- !app_assoc. split; [reflexivity|].
  rewrite length_app. unfold Buffer_alloc at 1. rewrite length_replicate. lia.
Qed.

(** X4.  Finalising twice gives the same three files: the arrays
    [_writeConversationFiles] leaves behind are sorted, and sorting is
    stable. *)
Theorem _writeConversationFiles_again ev :
  _writeConversationFiles (fst (_writeConversationFiles ev))
  = (fst (_writeConversationFiles ev), snd (_writeConversationFiles ev)).
Proof.
  rewrite !_writeConversationFiles_eq. cbn [fst snd events_A events_B].
  now rewrite !Recorder.sort_by_t_idem.
Qed.

(** Two events handed over out of order, the later one 150 ms in. *)
Lemma build_never_early_witness :
  let e0 := {| t := 0; data := replicate 48 Byte.x01 |} in
  let e1 := {| t := 150; data := [Byte.x02; Byte.x02] |} in
  exists (n : nat) (rest : Buffer),
    concat (snd (build [e1; e0]))
    = pcm_of (walk [e0]) ++ Buffer_alloc n ++ data e1 ++ rest /\
    48 * t e1 <= Z.of_nat (length (pcm_of (walk [e0]) ++ Buffer_alloc n)).
Proof.
  intros e0 e1. apply (build_never_early [e1; e0] [e0] e1 []).
  vm_compute. reflexivity.
Defined.

Lemma build_aligned_witness :
  let e0 := {| t := 0; data := replicate 48 Byte.x01 |} in
  let e1 := {| t := 150; data := [Byte.x02; Byte.x02] |} in
  spaced 0 (fst (build [e1; e0])) /\
  exists (n : nat) (rest : Buffer),
    concat (snd (build [e1; e0]))
    = pcm_of (walk [e0]) ++ Buffer_alloc n ++ data e1 ++ rest /\
    Z.of_nat (length (pcm_of (walk [e0]) ++ Buffer_alloc n)) = 48 * t e1.
Proof.
  intros e0 e1.
  assert (Hs : spaced 0 (fst (build [e1; e0]))).
  { vm_compute. repeat split; discriminate. }
  split; [exact Hs|].
  apply (build_aligned [e1; e0] [e0] e1 [] Hs).
  vm_compute. reflexivity.
Defined.

End Files.

(** ** Seeding in frames *)

Module Seeding.
Import Backup0507 Timeline.

Lemma loop_count ws buffer fuel : forall i,
  (length buffer - i <= fuel)%nat ->
  length (frames_sent (stream_loop fuel ws buffer i))
  = ((length buffer - i + 959) / 960)%nat.
Proof.
  induction fuel as [|fuel IH]; intros i Hf;
    remember ((length buffer - i + 959) / 960)%nat as q eqn:Eq; simpl.
  - subst q. replace (length buffer - i)%nat with 0%nat by lia. reflexivity.
  - destruct (Nat.ltb_spec i (length buffer)) as [Hi|Hi].
    + cbn. rewrite IH by (unfold frameSize; lia). unfold frameSize. subst q.
      destruct (Nat.le_gt_cases (length buffer - i) 960) as [Hs|Hl].
      * replace (length buffer - (i + 960))%nat with 0%nat by lia.
        change ((0 + 959) / 960)%nat with 0%nat.
        apply (Nat.div_unique _ 960 1 (length buffer - i - 1)); lia.
      * replace (length buffer - i + 959)%nat
          with (length buffer - (i + 960) + 959 + 1 * 960)%nat by lia.
        rewrite Nat.div_add by lia. lia.
    + subst q. replace (length buffer - i)%nat with 0%nat by lia. reflexivity.
Qed.

Lemma loop_wait ws buffer fuel : forall i,
  total_wait (stream_loop fuel ws buffer i)
  = 20 * Z.of_nat (length (frames_sent (stream_loop fuel ws buffer i))).
Proof.
  induction fuel as [|fuel IH]; intros i; simpl; [reflexivity|].
  destruct (i <? length buffer)%nat; [|reflexivity].
  cbn [total_wait]. rewrite IH. unfold frames_sent. cbn. lia.
Qed.

(** X5.  [_streamTo] sends one frame for every 960 bytes of the buffer or
    part thereof and waits 20 ms for each, so that a seed goes out in the
    time it lasts, rounded up to a whole frame; for a party whose
    connection is missing or not open it sends nothing and waits for
    nothing. *)
Theorem _streamTo_frames_and_wait (sessions : gmap string nat) (sockets : list WebSocket)
    (label : string) (buffer : Buffer) :
  let script := _streamTo sessions sockets label buffer in
  length (frames_sent script)
  = (if is_open sockets (sessions !! label)
     then (length buffer + 959) / 960 else 0)%nat /\
  total_wait script = 20 * Z.of_nat (length (frames_sent script)).
Proof.
  cbn zeta. unfold _streamTo.
  destruct (sessions !! label) as [ws|]; [|now split].
  destruct (is_open sockets (Some ws)); [|now split].
  split; [|apply loop_wait].
  rewrite loop_count by lia. now rewrite Nat.sub_0_r.
Qed.

End Seeding.

(** ** The life of an orchestrator *)

Module Lifecycle.
Import Orchestrator History.

Lemma end_writer_ended wr : ended wr = true -> end_writer wr = wr.
Proof. destruct wr as [p c e]. cbn. now intros ->. Qed.

Lemma closing_length ws l : length (closing ws l) = length l.
Proof.
  unfold closing. destruct (is_open l ws); [|reflexivity].
  destruct ws; [|reflexivity]. apply length_alter.
Qed.

Lemma closing_lookup ws l i s :
  l !! i = Some s ->
  exists s', closing ws l !! i = Some s' /\
    label s' = label s /\ clientSessionId s' = clientSessionId s /\
    sent s' = sent s /\ ready s' = ready s /\
    (readyState s' = readyState s \/ readyState s = OPEN /\ readyState s' = CLOSING).
Proof.
  intros Hi. unfold closing. destruct (is_open l ws) eqn:Ho.
  - destruct ws as [r|]; [|discriminate]. destruct (decide (r = i)) as [->|Hne].
    + exists (set_readyState CLOSING s). rewrite list_lookup_alter_eq, Hi.
      repeat split. right. unfold is_open in Ho. rewrite Hi in Ho.
      now destruct (readyState s).
    + exists s. rewrite list_lookup_alter_ne by exact Hne. repeat split; auto.
  - exists s. repeat split; auto.
Qed.

Lemma closing_closed ws l x : is_open l x = false -> is_open (closing ws l) x = false.
Proof.
  intros Hx. unfold closing. destruct (is_open l ws); [|exact Hx].
  destruct ws as [r|]; [|exact Hx]. destruct x as [i|]; [|reflexivity].
  unfold is_open in *. destruct (decide (r = i)) as [->|Hne].
  - rewrite list_lookup_alter_eq. now destruct (l !! i).
  - now rewrite list_lookup_alter_ne by exact Hne.
Qed.

Lemma closing_not_open ws l : is_open (closing ws l) ws = false.
Proof.
  unfold closing. destruct (is_open l ws) eqn:Ho; [|exact Ho].
  destruct ws as [r|]; [|discriminate]. unfold is_open.
  rewrite list_lookup_alter_eq. now destruct (l !! r).
Qed.

Lemma closing_id ws l : is_open l ws = false -> closing ws l = l.
Proof. unfold closing. now intros ->. Qed.

Lemma ending_length w l : length (ending w l) = length l.
Proof. destruct w; [apply length_alter|reflexivity]. Qed.

Lemma ending_lookup w l i wr :
  l !! i = Some wr ->
  exists wr', ending w l !! i = Some wr' /\
    path wr' = path wr /\ chunks wr' = chunks wr /\
    (ended wr = true -> ended wr' = true) /\
    (w = Some i -> ended wr' = true).
Proof.
  intros Hi. destruct w as [k|]; cbn.
  - destruct (decide (k = i)) as [->|Hne].
    + exists (end_writer wr). rewrite list_lookup_alter_eq, Hi. repeat split.
    + exists wr. rewrite list_lookup_alter_ne by exact Hne. repeat split; auto.
      intros [= ->]. contradiction.
  - exists wr. repeat split; auto. discriminate.
Qed.

Lemma ending_id w l :
  (forall i wr, w = Some i -> l !! i = Some wr -> ended wr = true) -> ending w l = l.
Proof.
  intros He. destruct w as [k|]; [|reflexivity]. cbn.
  apply list_eq. intros i. destruct (decide (k = i)) as [->|Hne].
  - rewrite list_lookup_alter_eq. destruct (l !! i) as [wr|] eqn:Hi; [|reflexivity].
    cbn. f_equal. apply end_writer_ended. now apply (He i).
  - now rewrite list_lookup_alter_ne.
Qed.

(** One pass of the loop in [stop()], in one piece. *)
Lemma stop_label_eq l st :
  stop_label l st
  = (Normal tt,
     with_heap
       {| sockets := closing (sessions st !! l) (sockets (heap st));
          writers := ending (wavWriters st !! l) (writers (heap st));
          emitted := emitted (heap st)
                     ++ [log (obj [("session", Some (JStr l));
                                   ("event", Some (JStr "stopped"))])];
          uncaught := uncaught (heap st) |} st).
Proof.
  unfold stop_label, bind, gets, on_heap, close_if_open, writer_end, emit, modify, ret,
    closing, ending.
  destruct (sessions st !! l) as [r|]; destruct (wavWriters st !! l) as [w|];
    try destruct (is_open (sockets (heap st)) (Some r)); reflexivity.
Qed.

Lemma stop_eq st :
  stop st
  = (Normal tt,
     with_heap
       {| sockets := closing (sessions st !! "B")
                       (closing (sessions st !! "A") (sockets (heap st)));
          writers := ending (wavWriters st !! "B")
                       (ending (wavWriters st !! "A") (writers (heap st)));
          emitted := emitted (heap st) ++ stopped_logs;
          uncaught := uncaught (heap st) |} st).
Proof.
  unfold stop, bind. rewrite stop_label_eq, stop_label_eq.
  cbn [sessions wavWriters heap with_heap sockets writers emitted uncaught].
  unfold stopped_logs. now rewrite <- app_assoc.
Qed.

(** X6.  [stop()] never throws.  Afterwards no connection registered for A
    or B is OPEN and the writers registered for them are ended; a
    connection changes in nothing but its state, from OPEN to CLOSING, a
    writer keeps its file and what was written; the registrations
    themselves stay, and two records are logged. *)
Theorem stop_closes_and_ends st :
  let r := stop st in
  fst r = Normal tt /\
  sessions (snd r) = sessions st /\ wavWriters (snd r) = wavWriters st /\
  sessionIds (snd r) = sessionIds st /\
  (forall l, l = "A" \/ l = "B" ->
     is_open (sockets (heap (snd r))) (sessions st !! l) = false) /\
  (forall l w wr, l = "A" \/ l = "B" -> wavWriters st !! l = Some w ->
     writers (heap (snd r)) !! w = Some wr -> ended wr = true) /\
  length (sockets (heap (snd r))) = length (sockets (heap st)) /\
  (forall i s, sockets (heap st) !! i = Some s ->
     exists s', sockets (heap (snd r)) !! i = Some s' /\
       label s' = label s /\ clientSessionId s' = clientSessionId s /\
       sent s' = sent s /\ ready s' = ready s /\
       (readyState s' = readyState s \/ readyState s = OPEN /\ readyState s' = CLOSING)) /\
  length (writers (heap (snd r))) = length (writers (heap st)) /\
  (forall i wr, writers (heap st) !! i = Some wr ->
     exists wr', writers (heap (snd r)) !! i = Some wr' /\
       path wr' = path wr /\ chunks wr' = chunks wr) /\
  emitted (heap (snd r)) = emitted (heap st) ++ stopped_logs /\
  uncaught (heap (snd r)) = uncaught (heap st).
Proof.
  cbn zeta. rewrite stop_eq.
  cbn [fst snd sessions wavWriters sessionIds heap with_heap sockets writers emitted uncaught].
  do 4 (split; [reflexivity|]). split; [|split; [|split; [|split; [|split; [|split]]]]].
  - intros l [-> | ->].
    + apply closing_closed, closing_not_open.
    + apply closing_not_open.
  - intros l w wr Hl Hw Hwr.
    assert (Hin : exists wr0, writers (heap st) !! w = Some wr0).
    { apply lookup_lt_is_Some. apply lookup_lt_Some in Hwr.
      now rewrite !ending_length in Hwr. }
    destruct Hin as (wr0 & H0).
    destruct (ending_lookup (wavWriters st !! "A") _ w wr0 H0) as (wr1 & H1 & _ & _ & _ & EA).
    destruct (ending_lookup (wavWriters st !! "B") _ w wr1 H1) as (wr2 & H2 & _ & _ & K & EB).
    rewrite H2 in Hwr. injection Hwr as <-.
    destruct Hl as [-> | ->]; [apply K, EA, Hw|apply EB, Hw].
  - now rewrite !closing_length.
  - intros i s Hs.
    destruct (closing_lookup (sessions st !! "A") _ i s Hs) as (s1 & H1 & L1 & C1 & S1 & R1 & T1).
    destruct (closing_lookup (sessions st !! "B") _ i s1 H1) as (s2 & H2 & L2 & C2 & S2 & R2 & T2).
    exists s2. split; [exact H2|]. repeat split; try congruence.
    destruct T1 as [T1|[T1 T1']], T2 as [T2|[T2 T2']].
    + left. congruence.
    + right. split; congruence.
    + right. split; congruence.
    + congruence.
  - now rewrite !ending_length.
  - intros i wr Hwr.
    destruct (ending_lookup (wavWriters st !! "A") _ i wr Hwr) as (wr1 & H1 & P1 & C1 & _).
    destruct (ending_lookup (wavWriters st !! "B") _ i wr1 H1) as (wr2 & H2 & P2 & C2 & _).
    exists wr2. repeat split; congruence.
  - split; reflexivity.
Qed.

(** X7.  A second [stop()] changes no connection and no writer; it logs
    its two records again. *)
Theorem stop_again st :
  let st1 := snd (stop st) in
  let st2 := snd (stop st1) in
  sockets (heap st2) = sockets (heap st1) /\
  writers (heap st2) = writers (heap st1) /\
  uncaught (heap st2) = uncaught (heap st1) /\
  emitted (heap st2) = emitted (heap st1) ++ stopped_logs.
Proof.
  cbn zeta. rewrite (stop_eq (snd (stop st))). rewrite stop_eq.
  cbn [fst snd sessions wavWriters sessionIds heap with_heap sockets writers emitted uncaught].
  split; [|split; [|split; reflexivity]].
  - rewrite (closing_id (sessions st !! "A"))
      by apply closing_closed, closing_not_open.
    apply closing_id, closing_not_open.
  - set (l1 := ending (wavWriters st !! "A") (writers (heap st))).
    set (l2 := ending (wavWriters st !! "B") l1).
    assert (HA : forall i wr, wavWriters st !! "A" = Some i -> l2 !! i = Some wr ->
                              ended wr = true).
    { intros i wr Hi Hwr.
      assert (Hin : exists wr0, writers (heap st) !! i = Some wr0).
      { apply lookup_lt_is_Some. apply lookup_lt_Some in Hwr.
        unfold l2, l1 in Hwr. now rewrite !ending_length in Hwr. }
      destruct Hin as (wr0 & H0).
      destruct (ending_lookup (wavWriters st !! "A") _ i wr0 H0) as (wr1 & H1 & _ & _ & _ & EA).
      destruct (ending_lookup (wavWriters st !! "B") _ i wr1 H1) as (wr2 & H2 & _ & _ & K & _).
      fold l1 in H1, H2. fold l2 in H2. rewrite H2 in Hwr. injection Hwr as <-.
      apply K, EA, Hi. }
    assert (HB : forall i wr, wavWriters st !! "B" = Some i -> l2 !! i = Some wr ->
                              ended wr = true).
    { intros i wr Hi Hwr.
      assert (Hin : exists wr1, l1 !! i = Some wr1).
      { apply lookup_lt_is_Some. apply lookup_lt_Some in Hwr.
        unfold l2 in Hwr. now rewrite ending_length in Hwr. }
      destruct Hin as (wr1 & H1).
      destruct (ending_lookup (wavWriters st !! "B") _ i wr1 H1) as (wr2 & H2 & _ & _ & _ & EB).
      fold l2 in H2. rewrite H2 in Hwr. injection Hwr as <-. apply EB, Hi. }
    rewrite (ending_id (wavWriters st !! "A") l2) by exact HA.
    apply ending_id. exact HB.
Qed.

Section Listeners.
Context `{NodeBuffer}.

Lemma with_heap_same st : with_heap (heap st) st = st.
Proof using Type. now destruct st. Qed.

Lemma is_open_Some l r :
  is_open l (Some r) = true -> exists s, l !! r = Some s /\ readyState s = OPEN.
Proof using Type.
  unfold is_open. destruct (l !! r) as [s|]; [|discriminate].
  intros Ho. exists s. split; [reflexivity|]. now destruct (readyState s).
Qed.

(** Sending on a connection that is open. *)
Lemma ws_send_open r m h :
  is_open (sockets h) (Some r) = true ->
  ws_send r m h = (Normal tt, with_sockets (alter (push_sent m) r) h).
Proof using Type.
  intros Ho. destruct (is_open_Some _ _ Ho) as (s & Hs & Hr).
  unfold ws_send. now rewrite Hs, Hr.
Qed.

(** X8.  [_sendAudio] never throws: it sends the whole buffer in one
    message to the connection registered for the party if that connection
    is OPEN and logs it, and emits one error and sends nothing otherwise. *)
Theorem _sendAudio_one_message_or_one_error label buffer st :
  let r := _sendAudio label buffer st in
  fst r = Normal tt /\
  sessions (snd r) = sessions st /\ wavWriters (snd r) = wavWriters st /\
  sessionIds (snd r) = sessionIds st /\
  writers (heap (snd r)) = writers (heap st) /\
  uncaught (heap (snd r)) = uncaught (heap st) /\
  if is_open (sockets (heap st)) (sessions st !! label)
  then exists ws,
         sessions st !! label = Some ws /\
         sockets (heap (snd r))
         = alter (push_sent (input_audio_buffer_append
                               (Some (JStr (Buffer_toString_base64 buffer))))) ws
             (sockets (heap st)) /\
         emitted (heap (snd r))
         = emitted (heap st)
           ++ [log (obj [("session", Some (JStr label)); ("event", Some (JStr "seed_sent"))])]
  else sockets (heap (snd r)) = sockets (heap st) /\
       emitted (heap (snd r))
       = emitted (heap st) ++ [error (Error ("Session " +:+ label +:+ " not ready"))].
Proof using Type.
  cbn zeta. unfold _sendAudio, bind, gets.
  destruct (is_open (sockets (heap st)) (sessions st !! label)) eqn:Ho.
  - destruct (sessions st !! label) as [ws|]; [|discriminate].
    unfold on_heap. rewrite (ws_send_open _ _ _ Ho). cbn.
    repeat split. exists ws. repeat split.
  - cbn. repeat split.
Qed.

(** The continuation of the audio branch after the write: it returns. *)
Lemma forward_returns label (b64 : JsValue) (entry : Emitted) h1 st :
  sockets h1 = sockets (heap st) ->
  fst ((let! target := gets (fun st0 => sessions st0 !! other_of label) in
        let! target_open := gets (fun st0 => is_open (sockets (heap st0)) target) in
        (if target_open
         then match target with
              | Some r => on_heap (ws_send r (input_audio_buffer_append b64))
              | None => ret tt
              end
         else ret tt) >>
        on_heap (emit entry)) (with_heap h1 st)) = Normal tt.
Proof using Type.
  intros Hh. unfold bind, gets. cbn [sessions with_heap heap]. rewrite Hh.
  destruct (is_open (sockets (heap st)) (sessions st !! other_of label)) eqn:Ht;
    [|reflexivity].
  destruct (sessions st !! other_of label) as [r|]; [|reflexivity].
  unfold on_heap. cbn [heap with_heap]. rewrite ws_send_open by now rewrite Hh.
  reflexivity.
Qed.

Lemma on_message_throws ws label raw st :
  is_open (sockets (heap st)) (Some ws) = true ->
  match on_message ws label raw st with
  | (Normal _, _) => True
  | (Throw _, st') => st' = st
  end.
Proof using Type.
  intros Ho. destruct raw as [err|msg]; [exact I|].
  unfold on_message. unfold bind at 1. unfold lift at 1.
  destruct (get (Some msg) "type") as [type|e1]; [|reflexivity].
  destruct (is_str type "session.created") eqn:Hcr.
  - unfold bind at 1. unfold lift at 1.
    destruct (get (Some msg) "session") as [session|e1]; [|reflexivity].
    unfold bind at 1. unfold lift at 1.
    destruct (get session "id") as [realSid|e1]; [|reflexivity].
    unfold bind, modify, on_heap, emit, modify, _createWavWriter.
    cbn [heap with_sessionIds with_heap with_emitted sockets].
    rewrite ws_send_open by exact Ho. exact I.
  - destruct (is_audio_type type).
    + unfold on_audio. unfold bind at 1. unfold lift at 1.
      destruct (get (Some msg) "data") as [data|e1]; [|reflexivity].
      unfold bind at 1. unfold lift at 1.
      destruct (get (Some msg) "delta") as [delta|e1]; [|reflexivity].
      unfold bind at 1. unfold lift at 1.
      destruct (Buffer_from (nullish data delta)) as [chunk|e1]; [|reflexivity].
      unfold bind at 1. unfold gets at 1.
      destruct (wavWriters st !! label) as [w|].
      * unfold bind at 1. unfold on_heap at 1. unfold writer_write.
        match goal with
        | |- context [(let! target := _ in _)] =>
            pose proof (fun h1 => forward_returns label (nullish data delta)
              (log (obj [("session", Some (JStr label));
                         ("event", Some (JStr "audio_chunk"));
                         ("byteLength", Some (JNum (Z.of_nat (length chunk))))])) h1 st)
              as Hn
        end.
        destruct (writers (heap st) !! w) as [wr|]; [destruct (ended wr)|];
          cbn beta iota zeta;
          match goal with
          | |- match ?c ?s with _ => _ end =>
              specialize (Hn (heap s) eq_refl);
              replace (with_heap (heap s) st) with s in Hn
                by (try reflexivity; symmetry; apply with_heap_same);
              destruct (c s) as [[a|e1] st']; [exact I|discriminate]
          end.
      * cbn. apply with_heap_same.
    + destruct (is_str type "conversation.item.created").
      * destruct (is_str _ "user"); [|exact I].
        unfold bind, gets, on_heap, emit, modify.
        cbn [heap with_heap with_emitted sockets].
        rewrite ws_send_open by exact Ho. exact I.
      * exact I.
Qed.

(** X9.  A message listener that throws has changed nothing: on a
    connection that is OPEN, as it is while the ws library delivers a
    message, whatever the frame, either the listener returns or the arena is
    as it was before the frame. *)
Theorem on_message_throws_before_it_writes ws label raw st e :
  is_open (sockets (heap st)) (Some ws) = true ->
  fst (on_message ws label raw st) = Throw e ->
  snd (on_message ws label raw st) = st.
Proof using Type.
  intros Ho. pose proof (on_message_throws ws label raw st Ho) as Ht.
  destruct (on_message ws label raw st) as [[a|e1] st']; [discriminate|].
  intros _. exact Ht.
Qed.

End Listeners.

(** The frame [null] on the connection of A in the running conversation:
    reading [msg.type] throws, and the arena is as it was. *)
Lemma on_message_throws_before_it_writes_witness :
  snd (on_message 0 "A" (Parsed JNull) Scenario.running) = Scenario.running.
Proof.
  apply (on_message_throws_before_it_writes 0 "A" (Parsed JNull) Scenario.running
           (TypeError "Cannot read properties of null (reading 'type')")).
  - vm_compute. reflexivity.
  - vm_compute. reflexivity.
Defined.

Section Late.
Context `{NodeBuffer}.

(** The listener on an audio payload whose writer was ended: the chunk is
    refused, the rest of the branch runs. *)
Lemma on_message_audio_ended ws label fields chunk w wr st :
  is_audio_type (assoc "type" fields) = true ->
  Buffer_from (audio_payload fields) = Normal chunk ->
  wavWriters st !! label = Some w ->
  writers (heap st) !! w = Some wr ->
  ended wr = true ->
  on_message ws label (Parsed (JObj fields)) st
  = (Normal tt,
     let h1 := with_uncaught (fun l => l ++ [Error "write after end"]) (heap st) in
     with_heap
       (with_emitted (fun l => l ++ [audio_chunk_log label chunk])
          match forward_to label st with
          | Some r => with_sockets (alter (push_sent (forwarded fields)) r) h1
          | None => h1
          end) st).
Proof using Type.
  intros Hty Hbuf Hw Hwr Hend.
  unfold on_message. cbn [get lift bind].
  rewrite (Relay.audio_not_created _ Hty), Hty.
  unfold on_audio, forward_to, forwarded, audio_payload, audio_chunk_log in *.
  unfold bind, gets, lift, ret. cbn [get]. cbn beta iota zeta. rewrite Hbuf, Hw.
  unfold on_heap, writer_write, emit, modify, ws_send. cbn beta iota zeta.
  rewrite Hwr, Hend. cbn [heap with_heap with_uncaught sockets sessions is_open].
  destruct (sessions st !! other_of label) as [r|]; [|reflexivity].
  unfold is_open.
  destruct (sockets (heap st) !! r) as [s|] eqn:Hs; [|reflexivity].
  destruct (readyState s) eqn:Hrs; cbn [ReadyState_eqb]; [reflexivity| |reflexivity..].
  cbn [heap with_heap with_uncaught sockets]. rewrite Hs, Hrs. reflexivity.
Qed.

Lemma stopped_not_open st l :
  l = "A" \/ l = "B" ->
  is_open (closing (sessions st !! "B") (closing (sessions st !! "A") (sockets (heap st))))
    (sessions st !! l) = false.
Proof using Type.
  intros [-> | ->]; [apply closing_closed|]; apply closing_not_open.
Qed.

Lemma other_of_AB l : other_of l = "A" \/ other_of l = "B".
Proof using Type. unfold other_of. destruct (String.eqb l "A"); auto. Qed.


(** X11.  The close listener ends the writer registered for its party at
    the time, whichever connection that writer was made with: when a
    connection of a party closes, audio that arrives afterwards on another
    connection of the same party, such as the one a later [start()] opened,
    is refused by the writer with a write-after-end error and is lost. *)
Theorem close_ends_the_registered_writer st ws ws' s s' w wr fields chunk :
  sockets (heap st) !! ws = Some s ->
  sockets (heap st) !! ws' = Some s' ->
  label s' = label s ->
  wavWriters st !! label s = Some w ->
  writers (heap st) !! w = Some wr ->
  audio_frame fields chunk ->
  let st1 := step (Closed ws) st in
  let st2 := step (Message ws' (Parsed (JObj fields))) st1 in
  writers (heap st1) = alter end_writer w (writers (heap st)) /\
  writers (heap st2) = writers (heap st1) /\
  uncaught (heap st2) = uncaught (heap st1) ++ [Error "write after end"].
Proof using Type.
  intros Hs Hs' Hl Hw Hwr [Hty Hbuf]. cbn zeta.
  assert (E1 : step (Closed ws) st
               = with_heap
                   {| sockets := alter (set_readyState CLOSED) ws (sockets (heap st));
                      writers := alter end_writer w (writers (heap st));
                      emitted := emitted (heap st)
                                 ++ [log (obj [("session", Some (JStr (label s)));
                                               ("event", Some (JStr "closed"))])];
                      uncaught := uncaught (heap st) |} st).
  { unfold step. rewrite Hs. unfold on_close, bind, gets, on_heap.
    cbn [wavWriters with_heap]. rewrite Hw. reflexivity. }
  rewrite E1. set (st1 := with_heap _ st).
  assert (H1 : exists s1, sockets (heap st1) !! ws' = Some s1 /\ label s1 = label s).
  { unfold st1. cbn [heap with_heap sockets]. destruct (decide (ws = ws')) as [->|Hne].
    - rewrite list_lookup_alter_eq, Hs'. eexists. split; [reflexivity|exact Hl].
    - rewrite list_lookup_alter_ne by exact Hne. eauto. }
  destruct H1 as (s1 & H1 & L1).
  assert (W1 : writers (heap st1) !! w = Some (end_writer wr)).
  { unfold st1. cbn [heap with_heap writers]. now rewrite list_lookup_alter_eq, Hwr. }
  split; [reflexivity|].
  unfold step. rewrite H1, L1.
  rewrite (on_message_audio_ended ws' (label s) fields chunk w (end_writer wr) st1
             Hty Hbuf Hw W1 eq_refl).
  cbn zeta. cbn [settle]. destruct (forward_to (label s) st1); split; reflexivity.
Qed.

(** X12.  What is neither [session.created] nor audio is never recorded
    and changes no registration.  A [conversation.item.created] whose item
    has the role [user] makes the listener ask for a response on the same
    connection, with the identifier the service gave the session; an item
    of any other role leaves no trace at all; every other message is logged
    as it came, and nothing is sent. *)
Theorem on_message_other_frames ws label fields st :
  is_open (sockets (heap st)) (Some ws) = true ->
  is_str (assoc "type" fields) "session.created" = false ->
  is_audio_type (assoc "type" fields) = false ->
  let r := on_message ws label (Parsed (JObj fields)) st in
  fst r = Normal tt /\
  sessions (snd r) = sessions st /\ wavWriters (snd r) = wavWriters st /\
  sessionIds (snd r) = sessionIds st /\
  writers (heap (snd r)) = writers (heap st) /\
  uncaught (heap (snd r)) = uncaught (heap st) /\
  if is_str (assoc "type" fields) "conversation.item.created"
  then if is_str (get_opt (get_opt (assoc "payload" fields) "item") "role") "user"
       then sockets (heap (snd r))
            = alter (push_sent (obj [("type", Some (JStr "response.create"));
                                     ("session", sessionIds st !! label)])) ws
                (sockets (heap st)) /\
            emitted (heap (snd r))
            = emitted (heap st)
              ++ [ log (obj [("session", Some (JStr label));
                             ("event", Some (JStr "user_committed"))]);
                   log (obj [("session", Some (JStr label));
                             ("event", Some (JStr "response.create.sent"))]) ]
       else snd r = st
  else sockets (heap (snd r)) = sockets (heap st) /\
       emitted (heap (snd r))
       = emitted (heap st)
         ++ [log (obj [("session", Some (JStr label)); ("event", assoc "type" fields);
                       ("payload", Some (JObj fields))])].
Proof using Type.
  intros Ho Hcr Hau. cbn zeta.
  unfold on_message. cbn [get lift bind]. rewrite Hcr, Hau.
  destruct (is_str (assoc "type" fields) "conversation.item.created").
  - cbn [get_opt].
    destruct (is_str (get_opt (get_opt (assoc "payload" fields) "item") "role") "user").
    + unfold bind, gets, on_heap, emit, modify.
      cbn [heap with_heap with_emitted sockets sessionIds].
      rewrite ws_send_open by exact Ho. cbn. rewrite <- app_assoc. repeat split.
    + repeat split.
  - cbn. repeat split.
Qed.

End Late.


(** The first connection of A closes after a second [start()]: audio on
    the second connection of A is lost. *)
Lemma close_ends_the_registered_writer_witness :
  let st1 := step (Closed 0%nat) restarted in
  let st2 := step (Message 2%nat (Parsed (JObj (Scenario.audio_delta "AAAA")))) st1 in
  wavWriters restarted !! "A" = Some 2%nat /\
  writers (heap st2) = writers (heap st1) /\
  uncaught (heap st2) = uncaught (heap st1) ++ [Error "write after end"].
Proof.
  intros st1 st2.
  assert (HF : audio_frame (Scenario.audio_delta "AAAA") [Byte.x00; Byte.x00; Byte.x00])
    by (split; reflexivity).
  assert (Hw : wavWriters restarted !! "A" = Some 2%nat) by (vm_compute; reflexivity).
  split; [exact Hw|].
  assert (H0 : sockets (heap restarted) !! 0%nat
               = Some {| label := "A"; clientSessionId := "uuid-A"; readyState := OPEN;
                         sent := [session_update;
                                  input_audio_buffer_append (Some (JStr "AQI="))];
                         ready := Resolved |}) by (vm_compute; reflexivity).
  assert (H2 : sockets (heap restarted) !! 2%nat
               = Some {| label := "A"; clientSessionId := "uuid-A2"; readyState := OPEN;
                         sent := [session_update]; ready := Resolved |})
    by (vm_compute; reflexivity).
  assert (Hwr : writers (heap restarted) !! 2%nat
                = Some {| path := "sessionA.wav"; chunks := []; ended := false |})
    by (vm_compute; reflexivity).
  destruct (close_ends_the_registered_writer restarted 0%nat 2%nat _ _ 2%nat _
              (Scenario.audio_delta "AAAA") [Byte.x00; Byte.x00; Byte.x00]
              H0 H2 eq_refl Hw Hwr HF) as (_ & Rw & Ru).
  split; [exact Rw|exact Ru].
Defined.

(** A transcript message on the open connection of A. *)
Lemma on_message_other_frames_witness :
  let fields := [("type", JStr "response.audio_transcript.done")] in
  let r := on_message 0%nat "A" (Parsed (JObj fields)) Scenario.running in
  fst r = Normal tt /\ writers (heap (snd r)) = writers (heap Scenario.running).
Proof.
  intros fields r.
  assert (Ho : is_open (sockets (heap Scenario.running)) (Some 0%nat) = true)
    by (vm_compute; reflexivity).
  destruct (on_message_other_frames 0%nat "A" fields Scenario.running Ho eq_refl eq_refl)
    as (R1 & _ & _ & _ & R2 & _).
  split; [exact R1|exact R2].
Defined.

(** *** What every event keeps

    [R h h'] is a relation between the heap before and the heap after that
    holds across the writes the listeners make; what [start()] adds is
    looked at apart. *)

Section Stepwise.
Context `{NodeBuffer}.
Variable R : Heap -> Heap -> Prop.
Hypothesis R_refl : forall h, R h h.
Hypothesis R_trans : forall h1 h2 h3, R h1 h2 -> R h2 h3 -> R h1 h3.
Hypothesis R_emitted : forall e h, R h (with_emitted (fun l => l ++ [e]) h).
Hypothesis R_uncaught : forall e h, R h (with_uncaught (fun l => l ++ [e]) h).
Hypothesis R_socket : forall f ws h,
  (forall s, socket_extends s (f s)) -> R h (with_sockets (alter f ws) h).
Hypothesis R_writer : forall f k h,
  (forall w, writer_extends w (f w)) -> R h (with_writers (alter f k) h).
Hypothesis R_new_writer : forall w h, R h (with_writers (fun l => l ++ [w]) h).

Lemma keeps_on_heap h0 {A} (c : M Heap A) :
  (forall h, R h (snd (c h))) ->
  preserves (fun st => R h0 (heap st)) (on_heap c).
Proof using R_trans.
  intros Hc st HI. unfold on_heap. specialize (Hc (heap st)).
  destruct (c (heap st)) as [r h]. cbn. eapply R_trans; eassumption.
Qed.

Lemma keeps_same h0 {A} (c : M Arena A) :
  (forall st, heap (snd (c st)) = heap st) ->
  preserves (fun st => R h0 (heap st)) c.
Proof using Type. intros Hc st HI. now rewrite Hc. Qed.

Lemma R_ws_send ws m h : R h (snd (ws_send ws m h)).
Proof using R_refl R_socket.
  unfold ws_send. destruct (sockets h !! ws) as [s|]; [|apply R_refl].
  destruct (readyState s); try apply R_refl.
  apply R_socket. intros x. split; [reflexivity|split; [reflexivity|]].
  now apply prefix_app_r.
Qed.

Lemma R_writer_write w b h : R h (snd (writer_write w b h)).
Proof using R_refl R_writer R_uncaught.
  unfold writer_write. destruct w as [w|]; [|apply R_refl].
  destruct (writers h !! w) as [wr|]; [|apply R_refl].
  destruct (ended wr); [apply R_uncaught|].
  apply R_writer. intros x. split; [reflexivity|split; [now apply prefix_app_r|auto]].
Qed.

Lemma R_writer_end w h : R h (snd (writer_end w h)).
Proof using R_refl R_writer.
  destruct w as [w|]; [|apply R_refl]. apply R_writer. intros x.
  split; [reflexivity|split; [reflexivity|auto]].
Qed.

Lemma R_close_if_open ws h : R h (snd (close_if_open ws h)).
Proof using R_refl R_socket.
  unfold close_if_open. destruct (is_open (sockets h) ws); [|apply R_refl].
  destruct ws; [|apply R_refl]. apply R_socket. intros x.
  split; [reflexivity|split; reflexivity].
Qed.

Lemma R_settle h0 {A} (c : M Arena A) st :
  R h0 (heap (snd (c st))) -> R h0 (heap (settle (c st))).
Proof using R_trans R_uncaught.
  destruct (c st) as [[a|e] st']; [auto|]. cbn. intros HR.
  eapply R_trans; [exact HR|apply R_uncaught].
Qed.

(** Takes a handler apart along its binds and branches. *)
Ltac steady :=
  repeat first
    [ apply preserves_bind; [|intros ?]
    | apply keeps_same; reflexivity
    | apply keeps_on_heap; intros ?;
        first [ apply R_ws_send | apply R_writer_write | apply R_writer_end
              | apply R_close_if_open | apply R_emitted | apply R_new_writer
              | apply R_socket; intros [? ? ? ? []];
                  (split; [reflexivity|split; reflexivity]) ]
    | match goal with
      | |- preserves _ (if ?b then _ else _) => destruct b
      | |- preserves _ (match ?x with _ => _ end) => destruct x
      end ].

Lemma keeps_on_message h0 ws label raw :
  preserves (fun st => R h0 (heap st)) (on_message ws label raw).
Proof using R_refl R_trans R_emitted R_uncaught R_socket R_writer R_new_writer.
  unfold on_message, on_audio. steady.
Qed.

Lemma keeps_sendAudio h0 label buffer :
  preserves (fun st => R h0 (heap st)) (_sendAudio label buffer).
Proof using R_refl R_trans R_emitted R_socket. unfold _sendAudio. steady. Qed.

Lemma keeps_stop h0 : preserves (fun st => R h0 (heap st)) stop.
Proof using R_refl R_trans R_emitted R_socket R_writer.
  unfold stop, stop_label. steady.
Qed.

Lemma keeps_on_close h0 label : preserves (fun st => R h0 (heap st)) (on_close label).
Proof using R_refl R_trans R_emitted R_writer. unfold on_close. steady. Qed.

Lemma keeps_on_error h0 ws err : preserves (fun st => R h0 (heap st)) (on_error ws err).
Proof using R_refl R_trans R_emitted R_socket. unfold on_error. steady. Qed.

(** Every event but a call of [start()]. *)
Lemma step_keeps ev st :
  (forall a b, ev <> Start a b) -> R (heap st) (heap (step ev st)).
Proof using R_refl R_trans R_emitted R_uncaught R_socket R_writer R_new_writer.
  intros Hev. destruct ev as [a b|seed| |ws|ws raw|ws|ws err]; unfold step.
  - now elim (Hev a b).
  - apply R_settle. unfold start_resume.
    apply preserves_bind;
      [apply keeps_same; reflexivity|intros ?; apply keeps_sendAudio|apply R_refl].
  - apply R_settle, keeps_stop, R_refl.
  - destruct (sockets (heap st) !! ws) as [s|]; [|apply R_refl].
    apply R_settle. unfold on_open.
    apply (keeps_on_heap (heap st)); [intros ?; apply R_emitted|].
    cbn. apply R_socket. intros x. split; [reflexivity|split; reflexivity].
  - destruct (sockets (heap st) !! ws) as [s|]; [|apply R_refl].
    apply R_settle, keeps_on_message, R_refl.
  - destruct (sockets (heap st) !! ws) as [s|]; [|apply R_refl].
    apply R_settle, keeps_on_close. cbn. apply R_socket. intros x.
    split; [reflexivity|split; reflexivity].
  - destruct (sockets (heap st) !! ws) as [s|]; [|apply R_refl].
    apply R_settle, keeps_on_error, R_refl.
Qed.

End Stepwise.

Lemma extends_refl h : extends h h.
Proof.
  repeat split; try reflexivity.
  - intros r s Hs. exists s. repeat split; [exact Hs|reflexivity].
  - intros k w Hw. exists w. repeat split; [exact Hw|reflexivity|auto].
Qed.

Lemma extends_trans h1 h2 h3 : extends h1 h2 -> extends h2 h3 -> extends h1 h3.
Proof.
  intros (S1 & W1 & E1 & U1) (S2 & W2 & E2 & U2). repeat split.
  - intros r s Hs. destruct (S1 r s Hs) as (s' & Hs' & L1 & C1 & P1).
    destruct (S2 r s' Hs') as (s'' & Hs'' & L2 & C2 & P2).
    exists s''. repeat split; [exact Hs''|congruence|congruence|etrans; eassumption].
  - intros k w Hw. destruct (W1 k w Hw) as (w' & Hw' & A1 & B1 & C1).
    destruct (W2 k w' Hw') as (w'' & Hw'' & A2 & B2 & C2).
    exists w''. repeat split; [exact Hw''|congruence|etrans; eassumption|auto].
  - etrans; eassumption.
  - etrans; eassumption.
Qed.

Lemma extends_sockets f ws h :
  (forall s, socket_extends s (f s)) -> extends h (with_sockets (alter f ws) h).
Proof.
  intros Hf. split; [|split; [|split]]; cbn; try reflexivity.
  - intros r s Hs. destruct (decide (ws = r)) as [->|Hne].
    + exists (f s). rewrite list_lookup_alter_eq, Hs. split; [reflexivity|apply Hf].
    + exists s. rewrite list_lookup_alter_ne by exact Hne.
      repeat split; [exact Hs|reflexivity].
  - intros k w Hw. exists w. repeat split; [exact Hw|reflexivity|auto].
Qed.

Lemma extends_writers f k h :
  (forall w, writer_extends w (f w)) -> extends h (with_writers (alter f k) h).
Proof.
  intros Hf. split; [|split; [|split]]; cbn; try reflexivity.
  - intros r s Hs. exists s. repeat split; [exact Hs|reflexivity].
  - intros i w Hw. destruct (decide (k = i)) as [->|Hne].
    + exists (f w). rewrite list_lookup_alter_eq, Hw. split; [reflexivity|apply Hf].
    + exists w. rewrite list_lookup_alter_ne by exact Hne.
      repeat split; [exact Hw|reflexivity|auto].
Qed.

Lemma extends_more h h' :
  sockets h `prefix_of` sockets h' -> writers h `prefix_of` writers h' ->
  emitted h `prefix_of` emitted h' -> uncaught h `prefix_of` uncaught h' ->
  extends h h'.
Proof.
  intros Hs Hw He Hu. repeat split; try assumption.
  - intros r s Hr. exists s. repeat split; [|reflexivity].
    eapply prefix_lookup_Some; eassumption.
  - intros k w Hk. exists w. repeat split; [|reflexivity|auto].
    eapply prefix_lookup_Some; eassumption.
Qed.

Section Runs.
Context `{NodeBuffer}.

Lemma step_extends ev st : extends (heap st) (heap (step ev st)).
Proof using Type.
  destruct ev as [a b|seed| |ws|ws raw|ws|ws err];
    try (apply (step_keeps extends extends_refl extends_trans); try discriminate;
         [ intros; apply extends_more; cbn; try reflexivity; now apply prefix_app_r
         | intros; apply extends_more; cbn; try reflexivity; now apply prefix_app_r
         | apply extends_sockets | apply extends_writers
         | intros; apply extends_more; cbn; try reflexivity; now apply prefix_app_r ]).
  unfold step, start, _createSession, bind, on_heap, new_WebSocket, ret. cbn.
  apply extends_more; cbn; try reflexivity.
  rewrite <- app_assoc. now apply prefix_app_r.
Qed.


Lemma step_labels ev st :
  labels (heap (step ev st))
  = labels (heap st) ++ match ev with Start _ _ => ["A"; "B"] | _ => [] end.
Proof using Type.
  destruct ev as [a b|seed| |ws|ws raw|ws|ws err];
    try (rewrite app_nil_r;
         apply (step_keeps (fun h h' => labels h' = labels h)); try discriminate;
         [ reflexivity | intros; congruence | reflexivity | reflexivity
         | intros f i h Hf; unfold labels; cbn; apply Relay.labels_alter; intros x; apply Hf
         | reflexivity | reflexivity ]).
  unfold step, start, _createSession, bind, on_heap, new_WebSocket, ret, labels. cbn.
  now rewrite !fmap_app, <- app_assoc.
Qed.

Lemma run_labels evs : forall st,
  labels (heap (run evs st))
  = labels (heap st) ++ concat (replicate (starts evs) ["A"; "B"]).
Proof using Type.
  induction evs as [|ev evs IH]; intros st; [now rewrite app_nil_r|].
  rewrite Relay.run_cons, IH, step_labels, <- app_assoc.
  destruct ev; reflexivity.
Qed.

Lemma alternate_lookup n : forall r l,
  concat (replicate n ["A"; "B"]) !! r = Some l ->
  (r < 2 * n)%nat /\ l = if Nat.even r then "A" else "B".
Proof using Type.
  induction n as [|n IH]; intros r l; [discriminate|].
  destruct r as [|[|r]]; cbn [replicate concat app lookup list_lookup].
  - intros [= <-]. split; [lia|reflexivity].
  - intros [= <-]. split; [lia|reflexivity].
  - intros Hr. destruct (IH r l Hr) as [Hlt Hl]. split; [lia|exact Hl].
Qed.

(** X14.  Connections come in pairs and parties keep to their own.  However
    a fresh orchestrator is driven, it has two connections for every call of
    [start()], made for A and for B in turn, and a connection is only ever
    registered under the party it was made for. *)
Theorem connections_alternate apiKey evs :
  let st := run evs (new_ArenaOrchestrator apiKey) in
  length (sockets (heap st)) = (2 * starts evs)%nat /\
  (forall r s, sockets (heap st) !! r = Some s ->
     label s = if Nat.even r then "A" else "B") /\
  (forall l r, sessions st !! l = Some r ->
     (r < 2 * starts evs)%nat /\ l = if Nat.even r then "A" else "B").
Proof using Type.
  cbn zeta. set (st := run evs (new_ArenaOrchestrator apiKey)).
  assert (HL : labels (heap st) = concat (replicate (starts evs) ["A"; "B"])).
  { unfold st. now rewrite run_labels. }
  assert (Hlook : forall r s, sockets (heap st) !! r = Some s ->
            (r < 2 * starts evs)%nat /\ label s = if Nat.even r then "A" else "B").
  { intros r s Hs. apply alternate_lookup. rewrite <- HL. unfold labels.
    now rewrite list_lookup_fmap, Hs. }
  split; [|split].
  - rewrite <- (length_fmap label). fold (labels (heap st)). rewrite HL.
    clear. induction (starts evs) as [|n IH]; [reflexivity|].
    cbn [replicate concat]. rewrite length_app, IH. cbn. lia.
  - intros r s Hs. now apply Hlook.
  - intros l r Hl.
    destruct (Relay.run_labelled evs _ (Relay.new_labelled apiKey) l r Hl) as (s & Hs & <-).
    now apply Hlook.
Qed.

End Runs.

End Lifecycle.

(** ** The promise chains of [part_002] *)

Module Chains.
Import Part002 Queues.

Section Chains.
Context `{NodeBuffer}.
Variable setTimeout_wait : Q -> Q.

Lemma live_alter f ws h r :
  (forall s, readyState (f s) <> CONNECTING) \/ (forall s, readyState (f s) = readyState s) ->
  live h r -> live (with_sockets (alter f ws) h) r.
Proof using Type.
  intros Hf (s & Hs & Hr). unfold live. cbn.
  destruct (decide (ws = r)) as [->|Hne].
  - exists (f s). rewrite list_lookup_alter_eq, Hs. split; [reflexivity|].
    destruct Hf as [Hf|Hf]; [apply Hf|now rewrite Hf].
  - exists s. now rewrite list_lookup_alter_ne.
Qed.

Lemma live_ws_send ws m h r : live h r -> live (snd (ws_send ws m h)) r.
Proof using Type.
  intros Hl. unfold ws_send. destruct (sockets h !! ws) as [s|]; [|exact Hl].
  destruct (readyState s); try exact Hl. apply live_alter; [now right|exact Hl].
Qed.

Lemma live_writer_write w b h r : live h r -> live (snd (writer_write w b h)) r.
Proof using Type.
  intros Hl. unfold writer_write. destruct w as [w|]; [|exact Hl].
  destruct (writers h !! w) as [wr|]; [|exact Hl]. now destruct (ended wr).
Qed.

Lemma live_writer_end w h r : live h r -> live (snd (writer_end w h)) r.
Proof using Type. intros Hl. now destruct w. Qed.

Lemma live_new_WebSocket l u h r : live h r -> live (snd (new_WebSocket l u h)) r.
Proof using Type.
  intros (s & Hs & Hr). exists s. split; [|exact Hr]. cbn.
  now apply lookup_app_l_Some.
Qed.

Lemma sound_mono st st' :
  forwardQueues st' = forwardQueues st ->
  (forall r, live (heap st) r -> live (heap st') r) ->
  sound st -> sound st'.
Proof using Type.
  intros Hq Hl HS d q Hd. rewrite Hq in Hd.
  eapply Forall_impl; [apply (HS d q Hd)|]. intros l [Hu Hv]. split; [exact Hu|auto].
Qed.

Lemma sound_on_heap {A} (c : M Heap A) :
  (forall h r, live h r -> live (snd (c h)) r) -> preserves sound (on_heap c).
Proof using Type.
  intros Hc st HS. unfold on_heap. specialize (Hc (heap st)).
  destruct (c (heap st)) as [a h]. cbn [snd] in *.
  eapply sound_mono; [| |exact HS]; [reflexivity|exact Hc].
Qed.

Lemma sound_same {A} (c : M Arena A) :
  (forall st, forwardQueues (snd (c st)) = forwardQueues st /\
              heap (snd (c st)) = heap st) ->
  preserves sound c.
Proof using Type.
  intros Hc st HS. destruct (Hc st) as [Hq Hh].
  eapply sound_mono; [exact Hq| |exact HS]. intros r. now rewrite Hh.
Qed.

(** The end of the audio branch: a task is queued only for a connection
    that is OPEN. *)
Lemma sound_queueing other (b64 : JsValue) (buf : Buffer) :
  preserves sound
    (let! target := gets (fun st => sessions st !! other) in
     let! target_open := gets (fun st => is_open (sockets (heap st)) target) in
     if target_open
     then match target with
          | Some r => enqueue other {| target := r; audio := b64; chunk := buf |}
          | None => ret tt
          end
     else ret tt).
Proof using Type.
  intros st HS. unfold bind, gets.
  destruct (is_open (sockets (heap st)) (sessions st !! other)) eqn:Ho; [|exact HS].
  destruct (sessions st !! other) as [r|]; [|exact HS].
  unfold enqueue. destruct (forwardQueues st !! other) as [q|] eqn:Hq; [|exact HS].
  intros d q'. cbn. rewrite lookup_insert. case_decide as E; [|apply HS].
  intros [= <-]. apply Forall_app. split; [apply (HS _ _ Hq)|].
  constructor; [|constructor]. split; [exact I|]. cbn.
  destruct (Lifecycle.is_open_Some _ _ Ho) as (s & Hs & Hr).
  exists s. split; [exact Hs|]. now rewrite Hr.
Qed.

Ltac sane :=
  repeat first
    [ apply sound_queueing
    | apply sound_same; intros ?; split; reflexivity
    | apply sound_on_heap; intros ? ? ?;
        first [ apply live_ws_send; assumption
              | apply live_writer_write; assumption
              | apply live_writer_end; assumption
              | apply live_new_WebSocket; assumption
              | apply live_alter; [right; intros []; reflexivity|assumption]
              | assumption ]
    | apply preserves_bind; [|intros ?]
    | match goal with
      | |- preserves _ (if ?b then _ else _) => destruct b
      | |- preserves _ (match ?x with _ => _ end) => destruct x
      end ].

Lemma sound_on_message ws label raw : preserves sound (on_message ws label raw).
Proof using Type. unfold on_message, on_audio. sane. Qed.

Lemma sound_settle {A} (r : Completion A * Arena) : sound (snd r) -> sound (settle r).
Proof using Type.
  destruct r as [[a|e] st]; [auto|]. cbn. apply sound_mono; [reflexivity|auto].
Qed.

(** A reaction job on a sound chain runs a task whose send returns. *)
Lemma react_sound q : forall st q' st',
  Forall (fun l => unbroken l /\ live (heap st) (target (task l))) q ->
  react None q st = Some (q', st') ->
  Forall (fun l => unbroken l /\ live (heap st') (target (task l))) q' /\
  forwardQueues st' = forwardQueues st /\
  (forall r, live (heap st) r -> live (heap st') r).
Proof using Type.
  induction q as [|l rest IH]; intros st q' st' HF Hr; [discriminate|].
  cbn [react] in Hr. inversion HF as [|? ? [Hu Hl] Hrest]; subst.
  unfold unbroken in Hu. destruct (status l) eqn:Hst; try contradiction.
  - unfold run_task, bind, on_heap, gets, ret in Hr.
    destruct Hl as (s & Hs & Hcon). unfold ws_send in Hr. rewrite Hs in Hr.
    assert (Hkeep : forall h' : Heap,
              (forall r, live (heap st) r -> live h' r) ->
              Forall (fun l0 => unbroken l0 /\ live h' (target (task l0)))
                ({| task := task l; status := Sleeping (now (with_heap h' st)) |} :: rest)).
    { intros h' Hh. constructor.
      - split; [exact I|]. cbn. apply Hh. exists s. now split.
      - eapply Forall_impl; [exact Hrest|]. intros x [Hx Hy]. split; [exact Hx|auto]. }
    destruct (readyState s) eqn:Hrs; [congruence| | |];
      cbn in Hr; injection Hr as <- <-; cbn [heap with_heap forwardQueues];
      (split; [|split; [reflexivity|]]);
      try (apply Hkeep); try (intros r Hr; apply live_alter; [now right|exact Hr]);
      auto.
  - discriminate.
  - destruct (react None rest st) as [[rest' st1]|] eqn:Hrec; [|discriminate].
    cbn in Hr. injection Hr as <- <-.
    destruct (IH _ _ _ Hrest Hrec) as (HF' & Hq & Hlive).
    split; [|split; [exact Hq|exact Hlive]].
    constructor; [|exact HF']. split; [unfold unbroken; now rewrite Hst|auto].
Qed.

Lemma fire_sound q : forall t q' h,
  Forall (fun l => unbroken l /\ live h (target (task l))) q ->
  fire setTimeout_wait q t = Some q' ->
  Forall (fun l => unbroken l /\ live h (target (task l))) q'.
Proof using Type.
  induction q as [|l rest IH]; intros t q' h HF Hf; [discriminate|].
  cbn [fire] in Hf. inversion HF as [|? ? [Hu Hl] Hrest]; subst.
  destruct (status l) eqn:Hst.
  - discriminate.
  - destruct (Qle_bool _ t); [|discriminate]. injection Hf as <-.
    constructor; [|exact Hrest]. split; [exact I|exact Hl].
  - destruct (fire setTimeout_wait rest t) as [rest'|] eqn:Hrec; [|discriminate].
    cbn in Hf. injection Hf as <-. constructor; [now split|]. eapply IH; eassumption.
  - unfold unbroken in Hu. now rewrite Hst in Hu.
Qed.

Lemma step_sound ev st st' :
  sound st -> step setTimeout_wait ev st = Some st' -> sound st'.
Proof using Type.
  intros HI Hstep. destruct ev as [a b|ws|ws raw|ws|d|d|dt]; unfold step in Hstep.
  - assert (Hc : preserves sound (start a b)) by (unfold start, _createSession; sane).
    assert (E : st' = settle (start a b st)) by congruence.
    rewrite E. apply sound_settle, Hc, HI.
  - destruct (sockets (heap st) !! ws) as [s|]; [|discriminate].
    cbn [mbind option_bind] in Hstep.
    assert (Hc : preserves sound (on_open (label s) (clientSessionId s)))
      by (unfold on_open; sane).
    match type of Hstep with Some ?x = _ => assert (E : st' = x) by congruence end.
    rewrite E. apply sound_settle, Hc.
    apply (sound_mono st); [reflexivity| |exact HI].
    intros r Hr. cbn. apply live_alter; [left; intros ?; discriminate|exact Hr].
  - destruct (sockets (heap st) !! ws) as [s|]; [|discriminate].
    cbn [mbind option_bind] in Hstep.
    match type of Hstep with Some ?x = _ => assert (E : st' = x) by congruence end.
    rewrite E. apply sound_settle, sound_on_message, HI.
  - destruct (sockets (heap st) !! ws) as [s|]; [|discriminate].
    cbn [mbind option_bind] in Hstep.
    assert (Hc : preserves sound (on_close (label s))) by (unfold on_close; sane).
    match type of Hstep with Some ?x = _ => assert (E : st' = x) by congruence end.
    rewrite E. apply sound_settle, Hc.
    apply (sound_mono st); [reflexivity| |exact HI].
    intros r Hr. cbn. apply live_alter; [left; intros ?; discriminate|exact Hr].
  - destruct (forwardQueues st !! d) as [q|] eqn:Hq; [|discriminate].
    cbn [mbind option_bind] in Hstep.
    destruct (react None q st) as [[q' st1]|] eqn:Hr; [|discriminate].
    cbn [mbind option_bind] in Hstep.
    match type of Hstep with Some ?x = _ => assert (E : st' = x) by congruence end.
    rewrite E. clear E Hstep.
    destruct (react_sound _ _ _ _ (HI _ _ Hq) Hr) as (HF & Hfq & Hlive).
    intros d' q''. cbn [forwardQueues with_forwardQueues heap].
    rewrite lookup_insert, Hfq. case_decide as E.
    + intros [= <-]. exact HF.
    + intros Hd. eapply Forall_impl; [apply (HI _ _ Hd)|].
      intros l [Hu Hl]. split; [exact Hu|auto].
  - destruct (forwardQueues st !! d) as [q|] eqn:Hq; [|discriminate].
    cbn [mbind option_bind] in Hstep.
    destruct (fire setTimeout_wait q (now st)) as [q'|] eqn:Hf; [|discriminate].
    cbn [mbind option_bind] in Hstep.
    match type of Hstep with Some ?x = _ => assert (E : st' = x) by congruence end.
    rewrite E. clear E Hstep.
    intros d' q''. cbn [forwardQueues with_forwardQueues heap].
    rewrite lookup_insert. case_decide as E.
    + intros [= <-]. eapply fire_sound; [apply (HI _ _ Hq)|exact Hf].
    + apply HI.
  - destruct (Qle_bool 0 dt); [|discriminate].
    match type of Hstep with Some ?x = _ => assert (E : st' = x) by congruence end.
    rewrite E. exact HI.
Qed.

Lemma run_sound evs : forall st st',
  sound st -> run setTimeout_wait evs st = Some st' -> sound st'.
Proof using Type.
  induction evs as [|ev evs IH]; intros st st' HI Hrun; cbn in Hrun.
  - now injection Hrun as <-.
  - destruct (step setTimeout_wait ev st) as [st1|] eqn:Hstep; [|discriminate].
    cbn in Hrun. eapply IH; [|exact Hrun]. eapply step_sound; eassumption.
Qed.

Lemma new_sound apiKey now0 : sound (new_ArenaOrchestrator apiKey now0).
Proof using Type.
  intros d q. cbn. rewrite !lookup_insert. repeat case_decide.
  - intros [= <-]. constructor.
  - intros [= <-]. constructor.
  - now rewrite lookup_empty.
Qed.

(** X15.  The forwarding chains of [part_002] never reject.  In every run,
    whatever the timers do, no promise of a chain is rejected: a task is
    queued only for a connection that is OPEN, a connection never goes back
    to CONNECTING, and [send] throws on no other; so no task is ever skipped
    because one before it failed. *)
Theorem chain_never_rejects apiKey now0 evs st d q l :
  run setTimeout_wait evs (new_ArenaOrchestrator apiKey now0) = Some st ->
  forwardQueues st !! d = Some q ->
  l ∈ q ->
  (forall e, status l <> Broken e) /\
  exists s, sockets (heap st) !! target (task l) = Some s /\ readyState s <> CONNECTING.
Proof using Type.
  intros Hrun Hq Hl.
  pose proof (run_sound _ _ _ (new_sound apiKey now0) Hrun d q Hq) as HF.
  rewrite Forall_forall in HF. destruct (HF l Hl) as [Hu Hv].
  split; [|exact Hv]. intros e He. unfold unbroken in Hu. now rewrite He in Hu.
Qed.

(** A chain without a rejected promise is settled, or has a task to run,
    or waits for a timer that fires once its time has come. *)
Lemma chain_moves q st :
  Forall unbroken q ->
  Forall (fun l => exists t, status l = Fulfilled t) q \/
  is_Some (react None q st) \/
  exists deadline, forall t, (deadline <= t)%Q -> is_Some (fire setTimeout_wait q t).
Proof using Type.
  induction 1 as [|l rest Hu Hrest IH]; [left; constructor|].
  unfold unbroken in Hu. cbn [react fire]. destruct (status l) as [|t|t|e] eqn:Hst.
  - right. left. destruct (run_task (task l) st) as [[s|e] st']; eauto.
  - right. right. exists (t + setTimeout_wait (delayMs (chunk (task l))))%Q.
    intros t' Ht. apply Qle_bool_iff in Ht. rewrite Ht. eauto.
  - destruct IH as [IH|[IH|IH]].
    + left. constructor; eauto.
    + right. left. destruct IH as [[rest' st'] ->]. cbn. eauto.
    + right. right. destruct IH as (deadline & IH). exists deadline.
      intros t' Ht. destruct (IH t' Ht) as [rest' ->]. cbn. eauto.
  - contradiction.
Qed.

(** X16.  The forwarding chains of [part_002] never stall.  In every run
    and for every destination, either every queued payload has been sent and
    its pause is over, or the next task can run now, or the chain waits for
    a timer that fires after some time. *)
Theorem chain_never_stalls apiKey now0 evs st d q :
  run setTimeout_wait evs (new_ArenaOrchestrator apiKey now0) = Some st ->
  forwardQueues st !! d = Some q ->
  Forall (fun l => exists t, status l = Fulfilled t) q \/
  is_Some (step setTimeout_wait (React d) st) \/
  exists dt, is_Some (run setTimeout_wait [Elapse dt; TimerFired d] st).
Proof using Type.
  intros Hrun Hq.
  pose proof (run_sound _ _ _ (new_sound apiKey now0) Hrun d q Hq) as HF.
  assert (Hu : Forall unbroken q).
  { eapply Forall_impl; [exact HF|]. now intros l [Hl _]. }
  destruct (chain_moves q st Hu) as [Hs|[Hr|(deadline & Hf)]].
  - now left.
  - right. left. unfold step. rewrite Hq. cbn [mbind option_bind].
    destruct Hr as [[q' st'] ->]. cbn. eauto.
  - right. right.
    set (dt := if Qle_bool deadline (now st) then 0%Q else (deadline - now st)%Q).
    assert (Hdt : (0 <= dt)%Q /\ (deadline <= now st + dt)%Q).
    { unfold dt. destruct (Qle_bool deadline (now st)) eqn:E.
      - apply Qle_bool_iff in E. split; lra.
      - assert (~ (deadline <= now st)%Q) by (rewrite <- Qle_bool_iff; congruence).
        split; lra. }
    destruct Hdt as [H0 Hd]. apply Qle_bool_iff in H0. exists dt.
    cbn [run step]. rewrite H0. cbn [mbind option_bind forwardQueues with_now now].
    rewrite Hq. cbn [mbind option_bind].
    destruct (Hf (now st + dt)%Q Hd) as [q' Hq'].
    rewrite Hq'. cbn. eauto.
Qed.

End Chains.

(** The chain of B at the end of the paced run: its second item sleeps. *)
Lemma chain_never_stalls_witness :
  Forall (fun l => exists t, status l = Fulfilled t) Scenario.queue_B \/
  is_Some (step Scenario.on_time (React "B") Scenario.paced_end) \/
  exists dt, is_Some (run Scenario.on_time [Elapse dt; TimerFired "B"] Scenario.paced_end).
Proof.
  assert (H1 : run Scenario.on_time Scenario.paced_run
                 (new_ArenaOrchestrator "sk-test" 0) = Some Scenario.paced_end)
    by (vm_compute; reflexivity).
  assert (H2 : forwardQueues Scenario.paced_end !! "B" = Some Scenario.queue_B)
    by (vm_compute; reflexivity).
  exact (chain_never_stalls Scenario.on_time "sk-test" 0 Scenario.paced_run
           Scenario.paced_end "B" Scenario.queue_B H1 H2).
Defined.

(** The two items queued for B in the paced run. *)
Lemma chain_never_rejects_witness :
  (forall e, status Scenario.second_item <> Broken e) /\
  exists s, sockets (heap Scenario.paced_end) !! target (task Scenario.second_item) = Some s /\
            readyState s <> CONNECTING.
Proof.
  assert (H1 : run Scenario.on_time Scenario.paced_run
                 (new_ArenaOrchestrator "sk-test" 0) = Some Scenario.paced_end)
    by (vm_compute; reflexivity).
  assert (H2 : forwardQueues Scenario.paced_end !! "B" = Some Scenario.queue_B)
    by (vm_compute; reflexivity).
  assert (H3 : Scenario.second_item ∈ Scenario.queue_B).
  { apply (list_elem_of_lookup_2 _ 1%nat). vm_compute. reflexivity. }
  exact (chain_never_rejects Scenario.on_time "sk-test" 0 Scenario.paced_run
           Scenario.paced_end "B" Scenario.queue_B Scenario.second_item H1 H2 H3).
Defined.

End Chains.

(** ** Recording and relaying in [orchestrator_backup_0507.js] *)

Module Relayed.
Import Backup0507 Timeline Relay0507.

Section Relayed.
Context `{NodeBuffer}.

(** The branch on a payload that decodes, for A or B. *)
Lemma on_audio_decodes a chunk st q :
  decodes a chunk ->
  forwardQueues st !! other_of (party a) = Some q ->
  snd (on_audio (party a) (clock a) (JObj (fields a)) st)
  = {| startTime := startTime st;
       events :=
         (let e := {| t := clock a - default 0 (startTime st); data := chunk |} in
          if String.eqb (party a) "A"
          then {| events_A := events_A (events st) ++ [e]; events_B := events_B (events st) |}
          else {| events_A := events_A (events st); events_B := events_B (events st) ++ [e] |});
       forwardQueues := <[other_of (party a) := q ++ [chunk]]> (forwardQueues st);
       emitted := emitted st
                  ++ [log (obj [("session", Some (JStr (party a)));
                                ("event", Some (JStr "audio_chunk"));
                                ("byteLength", Some (JNum (Z.of_nat (length chunk))))])] |}.
Proof using Type.
  intros [Hp Hbuf] Hq. unfold on_audio. cbn [get lift]. unfold bind, lift, gets.
  rewrite Hbuf. cbn beta iota zeta.
  assert (Hpush : forall e ev,
            push_event (party a) e ev
            = Normal (if String.eqb (party a) "A"
                      then {| events_A := events_A ev ++ [e]; events_B := events_B ev |}
                      else {| events_A := events_A ev; events_B := events_B ev ++ [e] |})).
  { intros e ev. unfold push_event. destruct Hp as [-> | ->]; reflexivity. }
  rewrite Hpush. unfold set_events, emit, modify, enqueue.
  cbn [forwardQueues]. rewrite Hq. reflexivity.
Qed.

Lemma receive_arrival a arrivals st :
  receive (a :: arrivals) st
  = receive arrivals (snd (on_audio (party a) (clock a) (JObj (fields a)) st)).
Proof using Type. reflexivity. Qed.

Lemma receive_spec arrivals : forall chunks st s qA qB,
  Forall2 decodes arrivals chunks ->
  startTime st = Some s ->
  forwardQueues st !! "A" = Some qA ->
  forwardQueues st !! "B" = Some qB ->
  let st' := receive arrivals st in
  events_A (events st') = events_A (events st) ++ heard "A" s arrivals chunks /\
  events_B (events st') = events_B (events st) ++ heard "B" s arrivals chunks /\
  forwardQueues st' !! "A" = Some (qA ++ map data (heard "B" s arrivals chunks)) /\
  forwardQueues st' !! "B" = Some (qB ++ map data (heard "A" s arrivals chunks)).
Proof using Type.
  induction arrivals as [|a arrivals IH]; intros chunks st s qA qB HF Hs HA HB.
  - inversion HF; subst. cbn. rewrite !app_nil_r. auto.
  - inversion HF as [|? c ? cr Hd Hrest]; subst. cbn zeta. rewrite receive_arrival.
    destruct Hd as [Hp Hbuf].
    destruct Hp as [Hp|Hp].
    + rewrite (on_audio_decodes a c st qB (conj (or_introl Hp) Hbuf))
        by (rewrite Hp; exact HB).
      rewrite Hp, Hs. cbn [String.eqb Ascii.eqb Bool.eqb default other_of heard].
      rewrite Hp. cbn [String.eqb Ascii.eqb Bool.eqb].
      match goal with |- context [receive arrivals ?x] =>
        destruct (IH cr x s qA (qB ++ [c]) Hrest eq_refl) as (E1 & E2 & E3 & E4)
      end.
      * cbn. now rewrite lookup_insert_ne.
      * cbn. now rewrite lookup_insert_eq.
      * cbn [events events_A events_B] in E1, E2.
        rewrite E1, E2, E3, E4. cbn [map]. rewrite <- !app_assoc. auto.
    + rewrite (on_audio_decodes a c st qA (conj (or_intror Hp) Hbuf))
        by (rewrite Hp; exact HA).
      rewrite Hp, Hs. cbn [String.eqb Ascii.eqb Bool.eqb default other_of heard].
      rewrite Hp. cbn [String.eqb Ascii.eqb Bool.eqb].
      match goal with |- context [receive arrivals ?x] =>
        destruct (IH cr x s (qA ++ [c]) qB Hrest eq_refl) as (E1 & E2 & E3 & E4)
      end.
      * cbn. now rewrite lookup_insert_eq.
      * cbn. now rewrite lookup_insert_ne.
      * cbn [events events_A events_B] in E1, E2.
        rewrite E1, E2, E3, E4. cbn [map]. rewrite <- !app_assoc. auto.
Qed.

Lemma heard_stamp label s arrivals : forall chunks e,
  In e (heard label s arrivals chunks) -> exists a, In a arrivals /\ t e = clock a - s.
Proof using Type.
  induction arrivals as [|a arrivals IH]; intros [|c cr] e He; cbn in He;
    try contradiction.
  destruct (String.eqb (party a) label).
  - destruct He as [<-|He].
    + exists a. split; [now left|reflexivity].
    + destruct (IH _ _ He) as (a' & Ha' & Ht). exists a'. split; [now right|exact Ht].
  - destruct (IH _ _ He) as (a' & Ha' & Ht). exists a'. split; [now right|exact Ht].
Qed.

(** With a clock that does not run backwards the arrays are in order. *)
Lemma heard_sorted label s arrivals : forall chunks,
  Sorted Z.le (map clock arrivals) -> Sorted le_t (heard label s arrivals chunks).
Proof using Type.
  intros chunks Hs. apply StronglySorted_Sorted.
  apply Sorted_StronglySorted in Hs; [|intros x y z; apply Z.le_trans].
  revert chunks. induction arrivals as [|a arrivals IH]; intros [|c cr]; cbn;
    try constructor.
  inversion Hs as [|? ? Hrest Hall]; subst.
  destruct (String.eqb (party a) label); [|now apply IH].
  constructor; [now apply IH|].
  apply List.Forall_forall. intros e He.
  destruct (heard_stamp _ _ _ _ _ He) as (a' & Ha' & Ht).
  unfold le_t. cbn [t]. rewrite Ht.
  rewrite List.Forall_forall in Hall.
  assert (clock a <= clock a'); [|lia].
  apply Hall. now apply in_map.
Qed.

(** X17.  What [orchestrator_backup_0507.js] keeps of the audio it
    receives.  After [start()] at time [s], audio payloads for A and B leave
    in [this.events] the chunks of each party in the order they came, each
    stamped with the clock reading minus [s], and in the chain of each
    party the chunks of the other party in the order they came, one task a
    chunk.  With a clock that does not run backwards [stop()] builds the
    solo files from the arrays as they are: in order of arrival. *)
Theorem recorded_in_arrival_order s arrivals chunks :
  Forall2 decodes arrivals chunks ->
  Sorted Z.le (map clock arrivals) ->
  let st := receive arrivals (start s new_ArenaOrchestrator) in
  events_A (events st) = heard "A" s arrivals chunks /\
  events_B (events st) = heard "B" s arrivals chunks /\
  forwardQueues st !! "A" = Some (map data (heard "B" s arrivals chunks)) /\
  forwardQueues st !! "B" = Some (map data (heard "A" s arrivals chunks)) /\
  fst (_writeConversationFiles (events st)) = events st /\
  snd (_writeConversationFiles (events st)) !! 0%nat
  = Some {| name := "sessionA_full.wav";
            pcm := pcm_of (walk (heard "A" s arrivals chunks)) |} /\
  snd (_writeConversationFiles (events st)) !! 1%nat
  = Some {| name := "sessionB_full.wav";
            pcm := pcm_of (walk (heard "B" s arrivals chunks)) |}.
Proof using Type.
  intros HF Hs. cbn zeta.
  destruct (receive_spec arrivals chunks (start s new_ArenaOrchestrator) s [] []
              HF eq_refl eq_refl eq_refl) as (E1 & E2 & E3 & E4).
  cbn [start new_ArenaOrchestrator events events_A events_B app] in E1, E2, E3, E4.
  split; [exact E1|]. split; [exact E2|]. split; [exact E3|]. split; [exact E4|].
  rewrite Recorder._writeConversationFiles_eq. cbn [fst snd lookup list_lookup].
  rewrite E1, E2.
  rewrite !(Recorder.sort_by_t_sorted_id _ (heard_sorted _ s arrivals chunks Hs)).
  split; [|split; reflexivity].
  destruct (events (receive arrivals (start s new_ArenaOrchestrator))) as [ea eb].
  cbn in E1, E2. now subst.
Qed.

Lemma frames_sent_app s1 s2 : frames_sent (s1 ++ s2) = frames_sent s1 ++ frames_sent s2.
Proof using Type. unfold frames_sent. apply omap_app. Qed.

Lemma total_wait_app s1 s2 : total_wait (s1 ++ s2) = total_wait s1 + total_wait s2.
Proof using Type.
  induction s1 as [|[ws f|ms|e] s1 IH]; cbn [app total_wait]; lia.
Qed.

Lemma frames_cover (b : Buffer) : (length b <= 960 * frames_of b)%nat.
Proof using Type.
  unfold frames_of.
  pose proof (Nat.div_mod_eq (length b + 959) 960) as Hd.
  pose proof (Nat.mod_upper_bound (length b + 959) 960) as Hm. lia.
Qed.

(** X18.  A chain that finds its connection OPEN delivers the bytes of its
    chunks in the order they were queued, every chunk cut into frames of
    its own: two chunks never share a frame.  It waits 20 ms for every
    frame, which is never less than the audio lasts at 24 kHz, 16 bit,
    mono. *)
Theorem drain_in_order (sessions : gmap string nat) (sockets : list WebSocket)
    (label : string) (ws : nat) (queue : list Buffer) :
  sessions !! label = Some ws ->
  is_open sockets (Some ws) = true ->
  let script := drain sessions sockets label queue in
  concat (frames_sent script) = concat queue /\
  length (frames_sent script) = sum_list (map frames_of queue) /\
  total_wait script = 20 * Z.of_nat (length (frames_sent script)) /\
  (duration (concat queue) <= inject_Z (total_wait script))%Q.
Proof using Type.
  intros Hs Ho. cbn zeta.
  assert (Hone : forall b, _streamTo sessions sockets label b
                           = stream_loop (length b) ws b 0).
  { intros b. unfold _streamTo. now rewrite Hs, Ho. }
  assert (H1 : concat (frames_sent (drain sessions sockets label queue)) = concat queue).
  { induction queue as [|b queue IH]; [reflexivity|].
    cbn [drain flat_map]. rewrite frames_sent_app, concat_app. fold (drain sessions sockets label queue).
    rewrite IH, Hone, Streaming.stream_loop_concat by lia. now rewrite drop_0. }
  assert (H2 : length (frames_sent (drain sessions sockets label queue))
               = sum_list (map frames_of queue)).
  { clear H1. induction queue as [|b queue IH]; [reflexivity|].
    cbn [drain flat_map map sum_list sum_list_with].
    rewrite frames_sent_app, length_app.
    fold (drain sessions sockets label queue). rewrite IH.
    rewrite Hone, Seeding.loop_count by lia. unfold frames_of.
    now rewrite Nat.sub_0_r. }
  assert (H3 : total_wait (drain sessions sockets label queue)
               = 20 * Z.of_nat (length (frames_sent (drain sessions sockets label queue)))).
  { clear H1 H2. induction queue as [|b queue IH]; [reflexivity|].
    cbn [drain flat_map]. rewrite total_wait_app, frames_sent_app, length_app.
    fold (drain sessions sockets label queue). rewrite IH, Hone, Seeding.loop_wait. lia. }
  split; [exact H1|]. split; [exact H2|]. split; [exact H3|].
  rewrite H3, H2. unfold duration.
  apply Qle_shift_div_r; [reflexivity|].
  rewrite Recorder.bytesPerMs_48, <- inject_Z_mult, <- Zle_Qle.
  assert (Hc : (length (concat queue) <= 960 * sum_list (map frames_of queue))%nat).
  { clear. induction queue as [|b queue IH]; [cbn; lia|].
    cbn [concat map sum_list sum_list_with]. rewrite length_app.
    pose proof (frames_cover b). unfold sum_list, id in *. lia. }
  lia.
Qed.

End Relayed.

(** Two chunks of A around one of B, the clock at 1000 when [start()] ran. *)
Lemma recorded_in_arrival_order_witness :
  let arrivals :=
    [ {| party := "A"; clock := 1010; fields := Scenario.audio_delta "AAAA" |};
      {| party := "B"; clock := 1010; fields := Scenario.audio_delta "AQID" |};
      {| party := "A"; clock := 1200; fields := Scenario.audio_delta "AQ==" |} ] in
  let st := receive arrivals (start 1000 new_ArenaOrchestrator) in
  events_A (events st)
  = heard "A" 1000 arrivals [[Byte.x00; Byte.x00; Byte.x00]; [Byte.x01; Byte.x02; Byte.x03];
                             [Byte.x01]] /\
  fst (_writeConversationFiles (events st)) = events st.
Proof.
  intros arrivals st.
  assert (HF : Forall2 decodes arrivals
                 [[Byte.x00; Byte.x00; Byte.x00]; [Byte.x01; Byte.x02; Byte.x03]; [Byte.x01]]).
  { constructor; [split; [left; reflexivity|reflexivity]|].
    constructor; [split; [right; reflexivity|reflexivity]|].
    constructor; [split; [left; reflexivity|reflexivity]|]. constructor. }
  assert (Hs : Sorted Z.le (map clock arrivals)).
  { repeat constructor; cbn; lia. }
  destruct (recorded_in_arrival_order 1000 arrivals _ HF Hs) as (E1 & _ & _ & _ & E5 & _).
  split; [exact E1|exact E5].
Defined.

(** A seed of 1000 bytes and one of 2 bytes queued for A. *)
Lemma drain_in_order_witness :
  let script := drain Scenario.sessions_A Scenario.sockets_A "A"
                  [Scenario.seed_1000; Scenario.seed] in
  concat (frames_sent script) = Scenario.seed_1000 ++ Scenario.seed /\
  length (frames_sent script) = 3%nat /\
  total_wait script = 60.
Proof.
  intros script.
  destruct (drain_in_order Scenario.sessions_A Scenario.sockets_A "A" 0%nat
              [Scenario.seed_1000; Scenario.seed] eq_refl eq_refl) as (E1 & E2 & E3 & _).
  fold script in E1, E2, E3.
  split; [|split].
  - rewrite E1. cbn [concat]. now rewrite app_nil_r.
  - rewrite E2. reflexivity.
  - rewrite E3, E2. reflexivity.
Defined.

End Relayed.

(** ** When a connection of [part_000] closes *)

Module Closing.
Import Part000 Part000Close.

Section Closing.
Context `{NodeBuffer}.

Lemma end_all_lookup ws : forall (l : list WavWriter) i wr,
  foldr (fun w l => alter end_writer w l) l ws !! i = Some wr ->
  exists wr0, l !! i = Some wr0 /\ path wr = path wr0 /\ chunks wr = chunks wr0 /\
              (ended wr0 = true \/ i ∈ ws -> ended wr = true) /\
              (i ∉ ws -> wr = wr0).
Proof using Type.
  induction ws as [|w ws IH]; intros l i wr Hi; cbn [foldr] in Hi.
  - exists wr. repeat split; [exact Hi|]. intros [He|He]; [exact He|].
    now apply elem_of_nil in He.
  - destruct (decide (w = i)) as [->|Hne].
    + rewrite list_lookup_alter_eq in Hi.
      destruct (foldr _ l ws !! i) as [wr1|] eqn:H1; [|discriminate].
      cbn in Hi. injection Hi as <-.
      destruct (IH l i wr1 H1) as (wr0 & H0 & Hp & Hc & He & Hn).
      exists wr0. repeat split; [exact H0|exact Hp|exact Hc|].
      intros Hin. exfalso. apply Hin. now left.
    + rewrite list_lookup_alter_ne in Hi by exact Hne.
      destruct (IH l i wr Hi) as (wr0 & H0 & Hp & Hc & He & Hn).
      exists wr0. repeat split; [exact H0|exact Hp|exact Hc| |].
      * intros [Hk|Hk]; [now apply He; left|]. apply He. right.
        apply elem_of_cons in Hk. destruct Hk as [Hk|Hk]; [congruence|exact Hk].
      * intros Hin. apply Hn. intros Hk. apply Hin. now right.
Qed.

Lemma frozen_keeps W k b :
  preserves (fun st => frozen st /\ writers (heap st) = W) (write k b).
Proof using Type.
  intros st [HF HW]. unfold write, bind, gets, on_heap, writer_write.
  destruct (wavWriters st !! k) as [w|] eqn:Hk; [|now split].
  destruct (writers (heap st) !! w) as [wr|] eqn:Hw; [|now split].
  rewrite (HF _ _ _ Hk Hw). now split.
Qed.

Lemma frozen_heap W {A} (c : M Heap A) :
  (forall h, writers (snd (c h)) = writers h) ->
  preserves (fun st => frozen st /\ writers (heap st) = W) (on_heap c).
Proof using Type.
  intros Hc st [HF HW]. unfold on_heap. specialize (Hc (heap st)).
  destruct (c (heap st)) as [a h]. cbn [snd] in *. split.
  - intros k w wr Hk Hw. cbn in Hk, Hw. rewrite Hc in Hw. eauto.
  - cbn. congruence.
Qed.

Lemma writers_ws_send r m h : writers (snd (ws_send r m h)) = writers h.
Proof using Type.
  unfold ws_send. destruct (sockets h !! r) as [s|]; [|reflexivity].
  now destruct (readyState s).
Qed.

Ltac still :=
  repeat first
    [ apply frozen_keeps
    | apply frozen_heap; intros ?; first [apply writers_ws_send|reflexivity]
    | apply preserves_pure; reflexivity
    | apply preserves_bind; [|intros ?]
    | match goal with
      | |- preserves _ (if ?b then _ else _) => destruct b
      | |- preserves _ (match ?x with _ => _ end) => destruct x
      end ].

Lemma frozen_on_audio_000 W label msg :
  preserves (fun st => frozen st /\ writers (heap st) = W) (Part000.on_audio label msg).
Proof using Type. unfold Part000.on_audio. still. Qed.

Lemma frozen_on_audio_001 W label msg :
  preserves (fun st => frozen st /\ writers (heap st) = W) (Part001.on_audio label msg).
Proof using Type. unfold Part001.on_audio. still. Qed.

Lemma frozen_receive W branch frames :
  (forall label msg,
     preserves (fun st => frozen st /\ writers (heap st) = W) (branch label msg)) ->
  forall st, frozen st /\ writers (heap st) = W ->
             frozen (receive branch frames st) /\ writers (heap (receive branch frames st)) = W.
Proof using Type.
  intros Hb. induction frames as [|[label fields] frames IH]; intros st HI; [exact HI|].
  cbn [receive fold_left]. apply IH. specialize (Hb label (JObj fields) st HI).
  destruct (branch label (JObj fields) st) as [[a|e] st1]; [exact Hb|].
  destruct Hb as [HF HW]. split; [|exact HW]. exact HF.
Qed.

(** The writers after the close listener of either draft. *)
Lemma ended_all st (st1 : Arena) :
  wavWriters st1 = wavWriters st ->
  writers (heap st1)
  = foldr (fun w l => alter end_writer w l) (writers (heap st))
      (map_to_list (wavWriters st)).*2 ->
  frozen st1 /\
  forall k w wr, wavWriters st !! k = Some w -> writers (heap st) !! w = Some wr ->
    exists wr1, writers (heap st1) !! w = Some wr1 /\
                ended wr1 = true /\ chunks wr1 = chunks wr /\ path wr1 = path wr.
Proof using Type.
  set (ws := (map_to_list (wavWriters st)).*2). intros E1 E2.
  assert (Hin : forall k w, wavWriters st !! k = Some w -> w ∈ ws).
  { intros k w Hk. unfold ws. apply list_elem_of_fmap. exists (k, w).
    split; [reflexivity|]. now apply elem_of_map_to_list. }
  split.
  - intros k w wr Hk Hw. rewrite E1 in Hk. rewrite E2 in Hw.
    destruct (end_all_lookup ws _ _ _ Hw) as (wr0 & _ & _ & _ & He & _).
    apply He. right. eapply Hin, Hk.
  - intros k w wr Hk Hw. rewrite E2.
    assert (Hlen : is_Some (foldr (fun w l => alter end_writer w l) (writers (heap st)) ws !! w)).
    { apply lookup_lt_is_Some.
      assert (HL : length (foldr (fun w l => alter end_writer w l) (writers (heap st)) ws)
                   = length (writers (heap st))).
      { clear. induction ws as [|x ws IH]; cbn [foldr]; [reflexivity|].
        now rewrite length_alter. }
      rewrite HL. eapply lookup_lt_Some, Hw. }
    destruct Hlen as [wr1 H1]. exists wr1. split; [exact H1|].
    destruct (end_all_lookup ws _ _ _ H1) as (wr0 & H0 & Hp & Hc & He & _).
    rewrite Hw in H0. injection H0 as <-.
    repeat split; [|exact Hc|exact Hp]. apply He. right. eapply Hin, Hk.
Qed.

(** X19.  In [part_000] and in [part_001] the close listener of either
    connection ends every writer there is: the track of A, the track of B
    and the combined track keep what they hold, and whatever audio arrives
    afterwards, on either connection, none of them receives another
    byte. *)
Theorem close_ends_every_track label st frames :
  (let st1 := snd (on_close label st) in
   fst (on_close label st) = Normal tt /\
   wavWriters st1 = wavWriters st /\
   (forall k w wr, wavWriters st !! k = Some w -> writers (heap st) !! w = Some wr ->
      exists wr1, writers (heap st1) !! w = Some wr1 /\
                  ended wr1 = true /\ chunks wr1 = chunks wr /\ path wr1 = path wr) /\
   writers (heap (receive Part000.on_audio frames st1)) = writers (heap st1)) /\
  (let st1 := snd (on_close_001 st) in
   fst (on_close_001 st) = Normal tt /\
   wavWriters st1 = wavWriters st /\
   (forall k w wr, wavWriters st !! k = Some w -> writers (heap st) !! w = Some wr ->
      exists wr1, writers (heap st1) !! w = Some wr1 /\
                  ended wr1 = true /\ chunks wr1 = chunks wr /\ path wr1 = path wr) /\
   writers (heap (receive Part001.on_audio frames st1)) = writers (heap st1)).
Proof using Type.
  split; cbn zeta.
  - destruct (ended_all st (snd (on_close label st)) eq_refl eq_refl) as [HF Hw].
    split; [reflexivity|]. split; [reflexivity|]. split; [exact Hw|].
    eapply (frozen_receive _ Part000.on_audio frames (frozen_on_audio_000 _)).
    split; [exact HF|reflexivity].
  - destruct (ended_all st (snd (on_close_001 st)) eq_refl eq_refl) as [HF Hw].
    split; [reflexivity|]. split; [reflexivity|]. split; [exact Hw|].
    eapply (frozen_receive _ Part001.on_audio frames (frozen_on_audio_001 _)).
    split; [exact HF|reflexivity].
Qed.

End Closing.

End Closing.

(** ** The listeners of the orchestrator in [server.js] *)

Module Listeners.
Import Server.

Lemma removeListener_notin l ls : l ∉ ls -> removeListener l ls = ls.
Proof.
  induction ls as [|x r IH]; intros Hn; [reflexivity|]. cbn.
  rewrite not_elem_of_cons in Hn. destruct Hn as [Hx Hr].
  destruct (decide (l ∈ r)); [contradiction|].
  destruct (decide (x = l)); [congruence|reflexivity].
Qed.

Lemma removeListener_subset l x ls : x ∈ removeListener l ls -> x ∈ ls.
Proof.
  induction ls as [|y r IH]; cbn; [auto|].
  destruct (decide (l ∈ r)).
  - rewrite !elem_of_cons. intros [->|Hx]; auto.
  - destruct (decide (y = l)); [|auto]. intros Hx. now right.
Qed.

(** Of listeners that were each added once, the one removed is gone. *)
Lemma removeListener_map (f : nat -> Listener) k alive :
  (forall a b, f a = f b -> a = b) -> NoDup alive ->
  removeListener (f k) (map f alive) = map f (filter (fun x => x <> k) alive).
Proof.
  intros Hf. induction 1 as [|x r Hx Hr IH]; [reflexivity|]. cbn [map removeListener].
  destruct (decide (f k ∈ map f r)) as [Hin|Hout].
  - assert (k ∈ r).
    { apply list_elem_of_fmap in Hin. destruct Hin as (y & Hy & Hyr).
      apply Hf in Hy. now subst. }
    rewrite filter_cons_True by (intros ->; contradiction). cbn [map]. now rewrite IH.
  - assert (Hk : k ∉ r).
    { intros Hk. apply Hout. apply list_elem_of_fmap. now exists k. }
    assert (Hfr : filter (fun x => x <> k) r = r).
    { clear -Hk. induction r as [|y r IH]; [reflexivity|].
      rewrite not_elem_of_cons in Hk. destruct Hk as [Hy Hk].
      rewrite filter_cons_True by congruence. now rewrite IH. }
    destruct (decide (f x = f k)) as [E|E].
    + apply Hf in E. subst x. rewrite filter_cons_False by (intros H; now apply H).
      now rewrite Hfr.
    + rewrite filter_cons_True by (intros ->; contradiction). cbn [map].
      now rewrite Hfr.
Qed.

Lemma removeListener_console l c ls :
  c <> l -> removeListener l (c :: ls) = c :: removeListener l ls.
Proof.
  intros Hc. cbn. destruct (decide (l ∈ ls)) as [Hin|Hout]; [reflexivity|].
  destruct (decide (c = l)); [contradiction|]. now rewrite removeListener_notin.
Qed.

Lemma run_snoc evs ev sv : run (evs ++ [ev]) sv = step ev (run evs sv).
Proof. unfold run. now rewrite fold_left_app. Qed.

Lemma listeners_alive evs :
  exists alive : list nat,
    log_listeners (run evs boot) = console_log :: map sendLog alive /\
    error_listeners (run evs boot) = console_error :: map sendError alive /\
    NoDup alive /\
    Forall (fun socket => (socket < connections (run evs boot))%nat) alive.
Proof.
  induction evs as [|ev evs IH] using rev_ind.
  - exists []. repeat split; constructor.
  - destruct IH as (alive & HL & HE & Hnd & Hlt). rewrite run_snoc.
    destruct ev as [|k]; cbn [step log_listeners error_listeners connections].
    + exists (alive ++ [connections (run evs boot)]).
      rewrite HL, HE, !map_app. cbn [map app]. repeat split.
      * apply NoDup_app. repeat split; [exact Hnd| |apply NoDup_singleton].
        intros x Hx Hx'. apply list_elem_of_singleton in Hx'. subst x.
        rewrite Forall_forall in Hlt. specialize (Hlt _ Hx). lia.
      * apply Forall_app. split; [|repeat constructor].
        eapply Forall_impl; [exact Hlt|]. cbn. intros; lia.
    + exists (filter (fun x => x <> k) alive).
      rewrite HL, HE, !removeListener_console by discriminate.
      rewrite !removeListener_map by (congruence || exact Hnd).
      repeat split.
      * now apply NoDup_filter.
      * apply Forall_forall. intros x Hx. apply list_elem_of_filter in Hx.
        rewrite Forall_forall in Hlt. apply Hlt, Hx.
Qed.


Lemma run_gone k evs : forall sv,
  sendLog k ∉ log_listeners sv -> sendError k ∉ error_listeners sv ->
  (k < connections sv)%nat ->
  (sendLog k ∉ log_listeners (run evs sv)) /\ (sendError k ∉ error_listeners (run evs sv)).
Proof.
  induction evs as [|ev evs IH]; intros sv HL HE Hk; [now split|].
  cbn [run fold_left]. destruct ev as [|j]; apply IH; cbn.
  - rewrite elem_of_app, list_elem_of_singleton. intros [H|[= H]]; [contradiction|lia].
  - rewrite elem_of_app, list_elem_of_singleton. intros [H|[= H]]; [contradiction|lia].
  - lia.
  - intros H. apply HL. eapply removeListener_subset, H.
  - intros H. apply HE. eapply removeListener_subset, H.
  - exact Hk.
Qed.

(** X21.  No listener is left behind: once the close listener of a UI
    socket has run, neither of its two closures is a listener of the
    orchestrator again, whatever happens afterwards. *)
Theorem closed_socket_is_forgotten evs1 k evs2 :
  (k < connections (run evs1 boot))%nat ->
  let sv := run (evs1 ++ SocketClosed k :: evs2) boot in
  (sendLog k ∉ log_listeners sv) /\ (sendError k ∉ error_listeners sv).
Proof.
  intros Hk. cbn zeta. unfold run. rewrite fold_left_app. cbn [fold_left].
  fold (run evs1 boot). fold (run evs2 (step (SocketClosed k) (run evs1 boot))).
  destruct (listeners_alive evs1) as (alive & HL & HE & Hnd & Hlt).
  apply run_gone; cbn [step log_listeners error_listeners connections]; [| |exact Hk].
  - rewrite HL, removeListener_console, removeListener_map by (congruence || exact Hnd).
    rewrite not_elem_of_cons. split; [discriminate|].
    intros Hin. apply list_elem_of_fmap in Hin. destruct Hin as (y & [= <-] & Hy).
    apply list_elem_of_filter in Hy. now destruct Hy.
  - rewrite HE, removeListener_console, removeListener_map by (congruence || exact Hnd).
    rewrite not_elem_of_cons. split; [discriminate|].
    intros Hin. apply list_elem_of_fmap in Hin. destruct Hin as (y & [= <-] & Hy).
    apply list_elem_of_filter in Hy. now destruct Hy.
Qed.

(** Two UI sockets; the first one closes, a third connects. *)
Lemma closed_socket_is_forgotten_witness :
  let sv := run ([Connection; Connection] ++ SocketClosed 0 :: [Connection]) boot in
  (sendLog 0 ∉ log_listeners sv) /\ (sendError 0 ∉ error_listeners sv).
Proof.
  apply (closed_socket_is_forgotten [Connection; Connection] 0 [Connection]).
  vm_compute. lia.
Defined.

End Listeners.
